(** * humans-card viewer: orbit state, gestures, snap animation, variants

    A shallow embedding of [src/viewer.ts], [src/utils.ts] and
    [src/presets.ts].  The class [Viewer] becomes a record of its fields
    together with the few pieces of collaborator state the methods write to
    (camera position, model-group rotation, CSS classes, the browser's
    scheduled animation frames); every method becomes a function from
    states to states.

    JavaScript numbers are idealised as real numbers: [%] is the truncated
    remainder, [Math.hypot] the Euclidean norm, and decimal literals denote
    their exact decimal value.  There is therefore no NaN and no rounding,
    and the statements below are worded so as not to rest on that: what a
    function computes is given by its formula, and an equation that rounding
    breaks (the end of a transition being the target to the last bit) is not
    claimed.  Where the specification does claim one, module [Double] has
    the arithmetic concerned in binary64, and the value the code computes is
    evaluated there.

    A load is taken in the steps an observer can tell apart (module
    [Loading]): the call of [setSrc], the arrival of the asset, the
    resolution of each promised material, and failure.  Left out: lights,
    background, resizing and the normalisation of the model's size, which
    write to nothing the properties below speak about. *)

From Stdlib Require Import Reals Lra Lia ZArith List String Ascii Bool.
From Stdlib Require Import Zfloor.
From Stdlib Require Floats.
From stdpp Require Import gmap strings.
Import ListNotations.
Open Scope R_scope.

(** ** Numbers *)

Module JsNumber.

(** Rounding toward zero, as the quotient of [%] does. *)
Definition Rtrunc (x : R) : Z :=
  if Rle_dec 0 x then Zfloor x else Zceil x.

(** [a % b]: the remainder has the sign of the dividend. *)
Definition Rrem (a b : R) : R := a - b * IZR (Rtrunc (a / b)).

(** [Math.hypot(x, y)]. *)
Definition hypot (x y : R) : R := sqrt (x * x + y * y).

(** A number or [Number.POSITIVE_INFINITY]. *)
Inductive ExtR : Type :=
| Finite (r : R)
| PosInf.

(** [x < m] for a finite [x]. *)
Definition ext_lt (x : R) (m : ExtR) : bool :=
  match m with
  | Finite r => if Rlt_dec x r then true else false
  | PosInf => true
  end.

End JsNumber.

(** ** [Map<number, V>], in insertion order *)

Module JsMap.
Section Ordered.
Context {V : Type}.

Fixpoint get (k : Z) (m : list (Z * V)) : option V :=
  match m with
  | [] => None
  | (k', v) :: rest => if Z.eqb k k' then Some v else get k rest
  end.

Definition has (k : Z) (m : list (Z * V)) : bool :=
  match get k m with Some _ => true | None => false end.

(** An existing key keeps its position, a new key goes last. *)
Fixpoint set (k : Z) (v : V) (m : list (Z * V)) : list (Z * V) :=
  match m with
  | [] => [(k, v)]
  | (k', v') :: rest =>
      if Z.eqb k k' then (k, v) :: rest else (k', v') :: set k v rest
  end.

Fixpoint delete (k : Z) (m : list (Z * V)) : list (Z * V) :=
  match m with
  | [] => []
  | (k', v') :: rest =>
      if Z.eqb k k' then rest else (k', v') :: delete k rest
  end.

Definition values (m : list (Z * V)) : list V := map snd m.

Definition size (m : list (Z * V)) : nat := length m.

End Ordered.
End JsMap.

(** ** Strings and [String.prototype.trim]

    A string is the sequence of its code units, and the 256 values of
    [ascii] are the code units 0 to 255: the character with code 160 is the
    no-break space U+00A0.  Strings with a code unit above 255 are outside
    the model.

    [trim] strips ECMAScript's white space and line terminators.  Those
    below 256 are 9 to 13, 32 and 160; the others (U+1680, U+2000 to U+200A,
    U+2028, U+2029, U+202F, U+205F, U+3000 and U+FEFF) are above 255. *)

Module JsString.

(** The no-break space. *)
Definition NBSP : ascii := ascii_of_nat 160.

Definition is_space (c : ascii) : bool :=
  match nat_of_ascii c with
  | 9%nat | 10%nat | 11%nat | 12%nat | 13%nat | 32%nat | 160%nat => true
  | _ => false
  end.

Fixpoint trimStart (s : string) : string :=
  match s with
  | EmptyString => EmptyString
  | String c rest => if is_space c then trimStart rest else s
  end.

Fixpoint trimEnd (s : string) : string :=
  match s with
  | EmptyString => EmptyString
  | String c rest =>
      match trimEnd rest with
      | EmptyString => if is_space c then EmptyString else String c EmptyString
      | rest' => String c rest'
      end
  end.

Definition trim (s : string) : string := trimEnd (trimStart s).

End JsString.

(** ** utils.ts *)

Module Utils.

Definition clamp (value min max : R) : R := Rmin max (Rmax min value).

(** Over the real numbers [lerp a b 1] is [b]; in binary64 it can differ
    from [b] in the last bits ([Double.lerp]). *)
Definition lerp (a b t : R) : R := a + (b - a) * t.

End Utils.

(** ** utils.ts and the snap arithmetic in binary64

    The same formulas on the numbers the code runs on.  [Math.max] and
    [Math.min] answer NaN when an argument is NaN and take [-0] to be below
    [+0]. *)

Module Double.
Import Stdlib.Floats.PrimFloat.
Local Open Scope float_scope.
Set Warnings "-inexact-float".

(** [Math.PI]. *)
Definition PI : float := 0x1.921fb54442d18p+1.

Definition negative_zero (a : float) : bool := is_zero a && get_sign a.

Definition max (a b : float) : float :=
  if is_nan a || is_nan b then nan
  else if ltb a b then b
  else if ltb b a then a
  else if negative_zero a then b else a.

Definition min (a b : float) : float :=
  if is_nan a || is_nan b then nan
  else if ltb a b then a
  else if ltb b a then b
  else if negative_zero a then a else b.

Definition clamp (value lo hi : float) : float := min hi (max lo value).

Definition lerp (a b t : float) : float := a + (b - a) * t.




End Double.

(** ** types.ts and presets.ts *)

Module Preset.
Record t : Type := mk { name : string; yaw : R; pitch : R }.
End Preset.

Module Presets.

Definition DEFAULT_PRESETS : list Preset.t :=
  [ Preset.mk "front" 0 0;
    Preset.mk "back" PI 0;
    Preset.mk "left" (- PI / 2) 0;
    Preset.mk "right" (PI / 2) 0 ].

End Presets.

(** ** The scene-graph collaborator

    A material is known by its identity; a mesh holds one material or an
    array of them; a node that is not a mesh holds none.  A group is given by
    its rotation and by the nodes [traverse] visits, in visiting order. *)

Module Three.

Record Material : Type := mkMaterial { material_uuid : string; material_name : string }.

Inductive MaterialSlot : Type :=
| Single (m : Material)
| Multi (ms : list Material).

Record Object3D : Type := mkObject3D {
  uuid : string;
  material : option MaterialSlot   (* [None]: not an instance of Mesh *)
}.

Record Group : Type := mkGroup {
  rotation_x : R;
  rotation_y : R;
  nodes : list Object3D
}.

Definition traverse (callback : Object3D -> Object3D) (g : Group) : Group :=
  mkGroup (rotation_x g) (rotation_y g) (map callback (nodes g)).

Definition set_material (m : MaterialSlot) (node : Object3D) : Object3D :=
  mkObject3D (uuid node) (Some m).

End Three.

(** ** viewer.ts *)

Module Point.
Record t : Type := mk { x : R; y : R }.
End Point.

Module Viewer.
Import JsNumber JsString Utils Three.

Definition DEFAULT_DISTANCE : R := 2.8.
Definition MIN_DISTANCE : R := 1.8.
Definition MAX_DISTANCE : R := 4.5.

Record PointerEvent : Type := mkPointerEvent {
  pointerId : Z;
  clientX : R;
  clientY : R
}.

Record WheelEvent : Type := mkWheelEvent { deltaY : R }.

Record Snap : Type := mkSnap {
  active : bool;
  startYaw : R;
  startPitch : R;
  targetYaw : R;
  targetPitch : R;
  startTime : R;
  duration : R
}.

Definition set_active (v : bool) (sn : Snap) : Snap :=
  mkSnap v (startYaw sn) (startPitch sn) (targetYaw sn) (targetPitch sn)
    (startTime sn) (duration sn).

(** The fields of the class, followed by what its methods change outside
    of it: [camera_z] is [camera.position.z]; [listeners] says whether the
    five container listeners are attached; [hint_hidden] and
    [container_dragging] are the CSS classes "is-hidden" of the hint and
    "is-dragging" of the container; [frames] are the animation-frame
    requests the browser still holds and [next_frame] the handle it hands
    out next.  [renderer], [scene], [camera] and [resizeObserver] record
    whether the field is non-null. *)
Record State : Type := mkState {
  renderer : bool;
  scene : bool;
  camera : bool;
  camera_z : R;
  modelGroup : option Group;
  resizeObserver : bool;
  animationHandle : option nat;
  presets : list Preset.t;
  currentYaw : R;
  currentPitch : R;
  distance : R;
  zoomEnabled : bool;
  currentVariant : option string;
  dragging : bool;
  pinchDistance : R;
  pointers : list (Z * Point.t);
  snap : Snap;
  variantMaterialsKHR : gmap string (gmap string Material);
  variantMaterialsByName : gmap string (gmap string Material);
  originalMaterials : gmap string MaterialSlot;
  listeners : bool;
  hint_hidden : bool;
  container_dragging : bool;
  frames : list nat;
  next_frame : nat
}.

Definition set_renderer (v : bool) (s : State) : State :=
  mkState v (scene s) (camera s) (camera_z s) (modelGroup s)
    (resizeObserver s) (animationHandle s) (presets s) (currentYaw s)
    (currentPitch s) (distance s) (zoomEnabled s) (currentVariant s)
    (dragging s) (pinchDistance s) (pointers s) (snap s)
    (variantMaterialsKHR s) (variantMaterialsByName s) (originalMaterials s)
    (listeners s) (hint_hidden s) (container_dragging s) (frames s)
    (next_frame s).

Definition set_scene (v : bool) (s : State) : State :=
  mkState (renderer s) v (camera s) (camera_z s) (modelGroup s)
    (resizeObserver s) (animationHandle s) (presets s) (currentYaw s)
    (currentPitch s) (distance s) (zoomEnabled s) (currentVariant s)
    (dragging s) (pinchDistance s) (pointers s) (snap s)
    (variantMaterialsKHR s) (variantMaterialsByName s) (originalMaterials s)
    (listeners s) (hint_hidden s) (container_dragging s) (frames s)
    (next_frame s).

Definition set_camera (v : bool) (s : State) : State :=
  mkState (renderer s) (scene s) v (camera_z s) (modelGroup s)
    (resizeObserver s) (animationHandle s) (presets s) (currentYaw s)
    (currentPitch s) (distance s) (zoomEnabled s) (currentVariant s)
    (dragging s) (pinchDistance s) (pointers s) (snap s)
    (variantMaterialsKHR s) (variantMaterialsByName s) (originalMaterials s)
    (listeners s) (hint_hidden s) (container_dragging s) (frames s)
    (next_frame s).

Definition set_camera_z (v : R) (s : State) : State :=
  mkState (renderer s) (scene s) (camera s) v (modelGroup s)
    (resizeObserver s) (animationHandle s) (presets s) (currentYaw s)
    (currentPitch s) (distance s) (zoomEnabled s) (currentVariant s)
    (dragging s) (pinchDistance s) (pointers s) (snap s)
    (variantMaterialsKHR s) (variantMaterialsByName s) (originalMaterials s)
    (listeners s) (hint_hidden s) (container_dragging s) (frames s)
    (next_frame s).

Definition set_modelGroup (v : option Group) (s : State) : State :=
  mkState (renderer s) (scene s) (camera s) (camera_z s) v
    (resizeObserver s) (animationHandle s) (presets s) (currentYaw s)
    (currentPitch s) (distance s) (zoomEnabled s) (currentVariant s)
    (dragging s) (pinchDistance s) (pointers s) (snap s)
    (variantMaterialsKHR s) (variantMaterialsByName s) (originalMaterials s)
    (listeners s) (hint_hidden s) (container_dragging s) (frames s)
    (next_frame s).

Definition set_resizeObserver (v : bool) (s : State) : State :=
  mkState (renderer s) (scene s) (camera s) (camera_z s) (modelGroup s) v
    (animationHandle s) (presets s) (currentYaw s) (currentPitch s)
    (distance s) (zoomEnabled s) (currentVariant s) (dragging s)
    (pinchDistance s) (pointers s) (snap s) (variantMaterialsKHR s)
    (variantMaterialsByName s) (originalMaterials s) (listeners s)
    (hint_hidden s) (container_dragging s) (frames s) (next_frame s).

Definition set_animationHandle (v : option nat) (s : State) : State :=
  mkState (renderer s) (scene s) (camera s) (camera_z s) (modelGroup s)
    (resizeObserver s) v (presets s) (currentYaw s) (currentPitch s)
    (distance s) (zoomEnabled s) (currentVariant s) (dragging s)
    (pinchDistance s) (pointers s) (snap s) (variantMaterialsKHR s)
    (variantMaterialsByName s) (originalMaterials s) (listeners s)
    (hint_hidden s) (container_dragging s) (frames s) (next_frame s).

Definition set_presets (v : list Preset.t) (s : State) : State :=
  mkState (renderer s) (scene s) (camera s) (camera_z s) (modelGroup s)
    (resizeObserver s) (animationHandle s) v (currentYaw s) (currentPitch s)
    (distance s) (zoomEnabled s) (currentVariant s) (dragging s)
    (pinchDistance s) (pointers s) (snap s) (variantMaterialsKHR s)
    (variantMaterialsByName s) (originalMaterials s) (listeners s)
    (hint_hidden s) (container_dragging s) (frames s) (next_frame s).

Definition set_currentYaw (v : R) (s : State) : State :=
  mkState (renderer s) (scene s) (camera s) (camera_z s) (modelGroup s)
    (resizeObserver s) (animationHandle s) (presets s) v (currentPitch s)
    (distance s) (zoomEnabled s) (currentVariant s) (dragging s)
    (pinchDistance s) (pointers s) (snap s) (variantMaterialsKHR s)
    (variantMaterialsByName s) (originalMaterials s) (listeners s)
    (hint_hidden s) (container_dragging s) (frames s) (next_frame s).

Definition set_currentPitch (v : R) (s : State) : State :=
  mkState (renderer s) (scene s) (camera s) (camera_z s) (modelGroup s)
    (resizeObserver s) (animationHandle s) (presets s) (currentYaw s) v
    (distance s) (zoomEnabled s) (currentVariant s) (dragging s)
    (pinchDistance s) (pointers s) (snap s) (variantMaterialsKHR s)
    (variantMaterialsByName s) (originalMaterials s) (listeners s)
    (hint_hidden s) (container_dragging s) (frames s) (next_frame s).

Definition set_distance (v : R) (s : State) : State :=
  mkState (renderer s) (scene s) (camera s) (camera_z s) (modelGroup s)
    (resizeObserver s) (animationHandle s) (presets s) (currentYaw s)
    (currentPitch s) v (zoomEnabled s) (currentVariant s) (dragging s)
    (pinchDistance s) (pointers s) (snap s) (variantMaterialsKHR s)
    (variantMaterialsByName s) (originalMaterials s) (listeners s)
    (hint_hidden s) (container_dragging s) (frames s) (next_frame s).

Definition set_zoomEnabled (v : bool) (s : State) : State :=
  mkState (renderer s) (scene s) (camera s) (camera_z s) (modelGroup s)
    (resizeObserver s) (animationHandle s) (presets s) (currentYaw s)
    (currentPitch s) (distance s) v (currentVariant s) (dragging s)
    (pinchDistance s) (pointers s) (snap s) (variantMaterialsKHR s)
    (variantMaterialsByName s) (originalMaterials s) (listeners s)
    (hint_hidden s) (container_dragging s) (frames s) (next_frame s).

Definition set_currentVariant (v : option string) (s : State) : State :=
  mkState (renderer s) (scene s) (camera s) (camera_z s) (modelGroup s)
    (resizeObserver s) (animationHandle s) (presets s) (currentYaw s)
    (currentPitch s) (distance s) (zoomEnabled s) v (dragging s)
    (pinchDistance s) (pointers s) (snap s) (variantMaterialsKHR s)
    (variantMaterialsByName s) (originalMaterials s) (listeners s)
    (hint_hidden s) (container_dragging s) (frames s) (next_frame s).

Definition set_dragging (v : bool) (s : State) : State :=
  mkState (renderer s) (scene s) (camera s) (camera_z s) (modelGroup s)
    (resizeObserver s) (animationHandle s) (presets s) (currentYaw s)
    (currentPitch s) (distance s) (zoomEnabled s) (currentVariant s) v
    (pinchDistance s) (pointers s) (snap s) (variantMaterialsKHR s)
    (variantMaterialsByName s) (originalMaterials s) (listeners s)
    (hint_hidden s) (container_dragging s) (frames s) (next_frame s).

Definition set_pinchDistance (v : R) (s : State) : State :=
  mkState (renderer s) (scene s) (camera s) (camera_z s) (modelGroup s)
    (resizeObserver s) (animationHandle s) (presets s) (currentYaw s)
    (currentPitch s) (distance s) (zoomEnabled s) (currentVariant s)
    (dragging s) v (pointers s) (snap s) (variantMaterialsKHR s)
    (variantMaterialsByName s) (originalMaterials s) (listeners s)
    (hint_hidden s) (container_dragging s) (frames s) (next_frame s).

Definition set_pointers (v : list (Z * Point.t)) (s : State) : State :=
  mkState (renderer s) (scene s) (camera s) (camera_z s) (modelGroup s)
    (resizeObserver s) (animationHandle s) (presets s) (currentYaw s)
    (currentPitch s) (distance s) (zoomEnabled s) (currentVariant s)
    (dragging s) (pinchDistance s) v (snap s) (variantMaterialsKHR s)
    (variantMaterialsByName s) (originalMaterials s) (listeners s)
    (hint_hidden s) (container_dragging s) (frames s) (next_frame s).

Definition set_snap (v : Snap) (s : State) : State :=
  mkState (renderer s) (scene s) (camera s) (camera_z s) (modelGroup s)
    (resizeObserver s) (animationHandle s) (presets s) (currentYaw s)
    (currentPitch s) (distance s) (zoomEnabled s) (currentVariant s)
    (dragging s) (pinchDistance s) (pointers s) v (variantMaterialsKHR s)
    (variantMaterialsByName s) (originalMaterials s) (listeners s)
    (hint_hidden s) (container_dragging s) (frames s) (next_frame s).

Definition set_variantMaterialsKHR (v : gmap string (gmap string Material)) (s : State) : State :=
  mkState (renderer s) (scene s) (camera s) (camera_z s) (modelGroup s)
    (resizeObserver s) (animationHandle s) (presets s) (currentYaw s)
    (currentPitch s) (distance s) (zoomEnabled s) (currentVariant s)
    (dragging s) (pinchDistance s) (pointers s) (snap s) v
    (variantMaterialsByName s) (originalMaterials s) (listeners s)
    (hint_hidden s) (container_dragging s) (frames s) (next_frame s).

Definition set_variantMaterialsByName (v : gmap string (gmap string Material)) (s : State) : State :=
  mkState (renderer s) (scene s) (camera s) (camera_z s) (modelGroup s)
    (resizeObserver s) (animationHandle s) (presets s) (currentYaw s)
    (currentPitch s) (distance s) (zoomEnabled s) (currentVariant s)
    (dragging s) (pinchDistance s) (pointers s) (snap s)
    (variantMaterialsKHR s) v (originalMaterials s) (listeners s)
    (hint_hidden s) (container_dragging s) (frames s) (next_frame s).

Definition set_originalMaterials (v : gmap string MaterialSlot) (s : State) : State :=
  mkState (renderer s) (scene s) (camera s) (camera_z s) (modelGroup s)
    (resizeObserver s) (animationHandle s) (presets s) (currentYaw s)
    (currentPitch s) (distance s) (zoomEnabled s) (currentVariant s)
    (dragging s) (pinchDistance s) (pointers s) (snap s)
    (variantMaterialsKHR s) (variantMaterialsByName s) v (listeners s)
    (hint_hidden s) (container_dragging s) (frames s) (next_frame s).

Definition set_listeners (v : bool) (s : State) : State :=
  mkState (renderer s) (scene s) (camera s) (camera_z s) (modelGroup s)
    (resizeObserver s) (animationHandle s) (presets s) (currentYaw s)
    (currentPitch s) (distance s) (zoomEnabled s) (currentVariant s)
    (dragging s) (pinchDistance s) (pointers s) (snap s)
    (variantMaterialsKHR s) (variantMaterialsByName s) (originalMaterials s)
    v (hint_hidden s) (container_dragging s) (frames s) (next_frame s).

Definition set_hint_hidden (v : bool) (s : State) : State :=
  mkState (renderer s) (scene s) (camera s) (camera_z s) (modelGroup s)
    (resizeObserver s) (animationHandle s) (presets s) (currentYaw s)
    (currentPitch s) (distance s) (zoomEnabled s) (currentVariant s)
    (dragging s) (pinchDistance s) (pointers s) (snap s)
    (variantMaterialsKHR s) (variantMaterialsByName s) (originalMaterials s)
    (listeners s) v (container_dragging s) (frames s) (next_frame s).

Definition set_container_dragging (v : bool) (s : State) : State :=
  mkState (renderer s) (scene s) (camera s) (camera_z s) (modelGroup s)
    (resizeObserver s) (animationHandle s) (presets s) (currentYaw s)
    (currentPitch s) (distance s) (zoomEnabled s) (currentVariant s)
    (dragging s) (pinchDistance s) (pointers s) (snap s)
    (variantMaterialsKHR s) (variantMaterialsByName s) (originalMaterials s)
    (listeners s) (hint_hidden s) v (frames s) (next_frame s).

Definition set_frames (v : list nat) (s : State) : State :=
  mkState (renderer s) (scene s) (camera s) (camera_z s) (modelGroup s)
    (resizeObserver s) (animationHandle s) (presets s) (currentYaw s)
    (currentPitch s) (distance s) (zoomEnabled s) (currentVariant s)
    (dragging s) (pinchDistance s) (pointers s) (snap s)
    (variantMaterialsKHR s) (variantMaterialsByName s) (originalMaterials s)
    (listeners s) (hint_hidden s) (container_dragging s) v (next_frame s).

Definition set_next_frame (v : nat) (s : State) : State :=
  mkState (renderer s) (scene s) (camera s) (camera_z s) (modelGroup s)
    (resizeObserver s) (animationHandle s) (presets s) (currentYaw s)
    (currentPitch s) (distance s) (zoomEnabled s) (currentVariant s)
    (dragging s) (pinchDistance s) (pointers s) (snap s)
    (variantMaterialsKHR s) (variantMaterialsByName s) (originalMaterials s)
    (listeners s) (hint_hidden s) (container_dragging s) (frames s) v.

Definition map_has {V : Type} (m : gmap string V) (k : string) : bool :=
  match m !! k with Some _ => true | None => false end.

(** *** Orbit state *)

Definition wrapAngle (angle : R) : R :=
  let twoPi := PI * 2 in
  let wrapped := Rrem angle twoPi in
  let wrapped := if Rgt_dec wrapped PI then wrapped - twoPi else wrapped in
  let wrapped := if Rlt_dec wrapped (- PI) then wrapped + twoPi else wrapped in
  wrapped.

Definition updateModelRotation (s : State) : State :=
  match modelGroup s with
  | None => s
  | Some g =>
      set_modelGroup (Some (mkGroup (currentPitch s) (currentYaw s) (nodes g))) s
  end.

Definition updateDistance (next : R) (s : State) : State :=
  let s := set_distance (clamp next MIN_DISTANCE MAX_DISTANCE) s in
  if camera s then set_camera_z (distance s) s else s.

Definition distanceBetween (a b : Point.t) : R :=
  let dx := Point.x a - Point.x b in
  let dy := Point.y a - Point.y b in
  hypot dx dy.

(** The distance [findNearestPreset] computes for one preset. *)
Definition presetDist (s : State) (preset : Preset.t) : R :=
  let dyaw := wrapAngle (currentYaw s - Preset.yaw preset) in
  let dpitch := currentPitch s - Preset.pitch preset in
  hypot dyaw dpitch.

(** One turn of the loop, on the pair [(nearest, minDist)]. *)
Definition nearestStep (s : State) (acc : Preset.t * ExtR) (preset : Preset.t)
  : Preset.t * ExtR :=
  let dist := presetDist s preset in
  if ext_lt dist (snd acc) then (preset, Finite dist) else acc.

Definition findNearestPreset (s : State) : option Preset.t :=
  match presets s with
  | [] => None
  | first :: _ => Some (fst (fold_left (nearestStep s) (presets s) (first, PosInf)))
  end.

(** *** Snap animation; [now] is the reading of [performance.now()] *)

Definition startSnapTo (yaw pitch now : R) (s : State) : State :=
  set_snap (mkSnap true (currentYaw s) (currentPitch s) yaw pitch now 450) s.

Definition ease (t : R) : R := t * (2 - t).

Definition updateSnap (now : R) (s : State) : State :=
  if negb (active (snap s)) then s
  else
    let t := clamp ((now - startTime (snap s)) / duration (snap s)) 0 1 in
    let s1 := set_currentYaw (lerp (startYaw (snap s)) (targetYaw (snap s)) (ease t)) s in
    let s2 := set_currentPitch (lerp (startPitch (snap s)) (targetPitch (snap s)) (ease t)) s1 in
    let s3 := updateModelRotation s2 in
    if Rge_dec t 1 then set_snap (set_active false (snap s3)) s3 else s3.

(** *** Gestures *)

(** [setPointerCapture] only concerns the host and is not represented. *)
Definition onPointerDown (event : PointerEvent) (s : State) : State :=
  if negb (renderer s) then s
  else
    let s1 :=
      set_pointers
        (JsMap.set (pointerId event) (Point.mk (clientX event) (clientY event))
                   (pointers s)) s in
    let s2 :=
      if Nat.eqb (JsMap.size (pointers s1)) 1
      then set_container_dragging true
             (set_hint_hidden true
                (set_snap (set_active false (snap s1)) (set_dragging true s1)))
      else s1 in
    if Nat.eqb (JsMap.size (pointers s2)) 2
    then match JsMap.values (pointers s2) with
         | p0 :: p1 :: _ => set_pinchDistance (distanceBetween p0 p1) s2
         | _ => s2
         end
    else s2.

(** [has] followed by [get] is one lookup here. *)
Definition onPointerMove (event : PointerEvent) (s : State) : State :=
  if negb (renderer s) then s
  else
    match JsMap.get (pointerId event) (pointers s) with
    | None => s
    | Some prev =>
        let s1 :=
          set_pointers
            (JsMap.set (pointerId event) (Point.mk (clientX event) (clientY event))
                       (pointers s)) s in
        let s2 :=
          if Nat.eqb (JsMap.size (pointers s1)) 1 && dragging s1
          then
            let dx := clientX event - Point.x prev in
            let dy := clientY event - Point.y prev in
            let sensitivity := 0.005 in
            let a := set_currentYaw (currentYaw s1 + dx * sensitivity) s1 in
            let b := set_currentPitch (wrapAngle (currentPitch a + dy * sensitivity)) a in
            updateModelRotation b
          else s1 in
        if Nat.eqb (JsMap.size (pointers s2)) 2 && zoomEnabled s2
        then match JsMap.values (pointers s2) with
             | p0 :: p1 :: _ =>
                 let nextDistance := distanceBetween p0 p1 in
                 let delta := nextDistance - pinchDistance s2 in
                 if Rgt_dec (Rabs delta) 0.5
                 then set_pinchDistance nextDistance
                        (updateDistance (distance s2 - delta * 0.01) s2)
                 else s2
             | _ => s2
             end
        else s2
    end.

Definition onPointerUp (event : PointerEvent) (now : R) (s : State) : State :=
  if negb (renderer s) then s
  else
    let s1 := set_pointers (JsMap.delete (pointerId event) (pointers s)) s in
    if Nat.eqb (JsMap.size (pointers s1)) 0 && dragging s1
    then
      let s2 := set_container_dragging false (set_dragging false s1) in
      match findNearestPreset s2 with
      | Some preset => startSnapTo (Preset.yaw preset) (Preset.pitch preset) now s2
      | None => s2
      end
    else s1.

Definition onWheel (event : WheelEvent) (s : State) : State :=
  if negb (zoomEnabled s) then s
  else updateDistance (distance s + deltaY event * 0.003) s.

(** *** Variants *)

Definition applyVariantFromKHR (name : string) (s : State) : State :=
  match modelGroup s with
  | None => s
  | Some g =>
      match variantMaterialsKHR s !! name with
      | None => s
      | Some variantMap =>
          let visit (node : Object3D) : Object3D :=
            match material node with
            | None => node
            | Some _ =>
                match variantMap !! uuid node with
                | Some m => set_material (Single m) node
                | None =>
                    match originalMaterials s !! uuid node with
                    | Some original => set_material original node
                    | None => node
                    end
                end
            end in
          set_modelGroup (Some (traverse visit g)) s
      end
  end.

Definition applyVariantFromName (name : string) (s : State) : State :=
  match modelGroup s with
  | None => s
  | Some g =>
      match variantMaterialsByName s !! name with
      | None => s
      | Some variantMap =>
          let visit (node : Object3D) : Object3D :=
            match material node with
            | None => node
            | Some _ =>
                match variantMap !! uuid node with
                | Some m => set_material (Single m) node
                | None => node
                end
            end in
          set_modelGroup (Some (traverse visit g)) s
      end
  end.

Definition restoreOriginalMaterials (s : State) : State :=
  match modelGroup s with
  | None => s
  | Some g =>
      let visit (node : Object3D) : Object3D :=
        match material node with
        | None => node
        | Some _ =>
            match originalMaterials s !! uuid node with
            | Some original => set_material original node
            | None => node
            end
        end in
      set_modelGroup (Some (traverse visit g)) s
  end.

Definition setVariant (name : string) (s : State) : State :=
  match modelGroup s with
  | None => s
  | Some _ =>
      let variant := trim name in
      if Nat.eqb (String.length variant) 0
      then restoreOriginalMaterials (set_currentVariant None s)
      else if map_has (variantMaterialsKHR s) variant
      then set_currentVariant (Some variant) (applyVariantFromKHR variant s)
      else if map_has (variantMaterialsByName s) variant
      then set_currentVariant (Some variant) (applyVariantFromName variant s)
      else restoreOriginalMaterials (set_currentVariant None s)
  end.

(** *** The rest of the public interface *)

Definition setZoomEnabled (enabled : bool) (s : State) : State :=
  set_zoomEnabled enabled s.

Definition setPresets (ps : list Preset.t) (s : State) : State :=
  set_presets (if Nat.ltb 0 (length ps) then ps else Presets.DEFAULT_PRESETS) s.

Definition setPreset (name : string) (now : R) (s : State) : State :=
  match List.find (fun p => String.eqb (Preset.name p) name) (presets s) with
  | None => s
  | Some preset => startSnapTo (Preset.yaw preset) (Preset.pitch preset) now s
  end.

Record ViewerState : Type := mkViewerState {
  state_preset : option string;
  state_variant : option string;
  state_yaw : R;
  state_pitch : R;
  state_distance : R
}.

Definition getState (s : State) : ViewerState :=
  mkViewerState
    (option_map Preset.name (findNearestPreset s))
    (currentVariant s) (currentYaw s) (currentPitch s) (distance s).

(** *** Render loop and disposal *)

Definition requestAnimationFrame (s : State) : nat * State :=
  (next_frame s,
   set_next_frame (S (next_frame s)) (set_frames (frames s ++ [next_frame s]) s)).

Definition cancelAnimationFrame (handle : nat) (s : State) : State :=
  set_frames (List.filter (fun h => negb (Nat.eqb h handle)) (frames s)) s.

(** The frame callback [render] of [startRenderLoop]. *)
Definition render (now : R) (s : State) : State :=
  let s1 := updateSnap now s in
  let '(handle, s2) := requestAnimationFrame s1 in
  set_animationHandle (Some handle) s2.

Definition startRenderLoop (s : State) : State :=
  let '(handle, s1) := requestAnimationFrame s in
  set_animationHandle (Some handle) s1.

(** The browser runs a frame it still holds; a cancelled one never runs. *)
Definition runFrame (handle : nat) (now : R) (s : State) : State :=
  if existsb (Nat.eqb handle) (frames s)
  then render now (cancelAnimationFrame handle s)
  else s.

Definition stopRenderLoop (s : State) : State :=
  match animationHandle s with
  | Some handle => set_animationHandle None (cancelAnimationFrame handle s)
  | None => s
  end.

Definition dispose (s : State) : State :=
  let s1 := stopRenderLoop s in
  let s2 := set_resizeObserver false s1 in
  let s3 := set_listeners false s2 in
  let s4 := set_renderer false s3 in
  let s5 := set_scene false s4 in
  let s6 := set_camera false s5 in
  set_modelGroup None s6.

Definition clearModel (s : State) : State :=
  if negb (scene s) then s
  else
    match modelGroup s with
    | None => s
    | Some _ =>
        set_currentVariant None
          (set_originalMaterials ∅
             (set_variantMaterialsByName ∅
                (set_variantMaterialsKHR ∅ (set_modelGroup None s))))
    end.

(** [mesh_uuid] is the identifier the library gives the new cube. *)
Definition loadDefaultCube (mesh_uuid : string) (s : State) : State :=
  if negb (scene s) then s
  else
    let s1 := clearModel s in
    let cube := mkObject3D mesh_uuid (Some (Single (mkMaterial mesh_uuid ""))) in
    set_modelGroup (Some (mkGroup 0 0 [cube])) s1.

(** The field initialisers. *)
Definition fields : State :=
  mkState false false false 0 None false None Presets.DEFAULT_PRESETS
    0 0 DEFAULT_DISTANCE true None false 0 []
    (mkSnap false 0 0 0 0 0 450) ∅ ∅ ∅ false false false [] 0.

Definition initThree (s : State) : State :=
  set_resizeObserver true
    (set_renderer true (set_camera_z (distance s) (set_camera true (set_scene true s)))).

Definition initEvents (s : State) : State := set_listeners true s.

Definition showFallback (s : State) : State := set_hint_hidden true s.

(** [new Viewer(elements)]; [webgl] is the answer of [isWebGLAvailable]. *)
Definition constructor (webgl : bool) (mesh_uuid : string) : State :=
  if negb webgl then showFallback fields
  else loadDefaultCube mesh_uuid (startRenderLoop (initEvents (initThree fields))).

End Viewer.

Import JsNumber JsString Utils Three Viewer.

(** ** What the statements below speak about *)

(** The render loop is consistent when the browser holds exactly the frame
    request whose handle the viewer remembers, and none when it remembers
    none. *)
Definition loop_consistent (s : State) : Prop :=
  frames s = match animationHandle s with Some handle => [handle] | None => [] end.

(** How one node may change under [setVariant]: a node that is not a mesh
    stays as it is; a mesh keeps its identifier and gets the material
    [choose current], where [current] is the material it had. *)
Definition node_updated
  (choose : Object3D -> MaterialSlot -> MaterialSlot) (before after : Object3D) : Prop :=
  uuid after = uuid before
  /\ match material before with
     | None => after = before
     | Some current => material after = Some (choose before current)
     end.

(** Substitute if the table has one, else the captured original, else (no
    original captured) the current material. *)
Definition substitute_or_original
  (variantMap : gmap string Material) (originals : gmap string MaterialSlot)
  (node : Object3D) (current : MaterialSlot) : MaterialSlot :=
  match variantMap !! uuid node with
  | Some m => Single m
  | None =>
      match originals !! uuid node with
      | Some original => original
      | None => current
      end
  end.

(** Substitute if the table has one, else the current material. *)
Definition substitute_or_current
  (variantMap : gmap string Material)
  (node : Object3D) (current : MaterialSlot) : MaterialSlot :=
  match variantMap !! uuid node with
  | Some m => Single m
  | None => current
  end.

(** The captured original, else (none captured) the current material. *)
Definition original_or_current
  (originals : gmap string MaterialSlot)
  (node : Object3D) (current : MaterialSlot) : MaterialSlot :=
  match originals !! uuid node with
  | Some original => original
  | None => current
  end.

(** ** Sample states *)

(** The state right after [new Viewer] and a press of pointer 1 at (0, 0). *)
Definition pressed_once : State :=
  onPointerDown (mkPointerEvent 1 0 0) (constructor true "cube").

Definition M0 : Material := mkMaterial "m0" "Body".
Definition M1 : Material := mkMaterial "m1" "BodyGold".

(** A loaded model with a single mesh "node" whose original material is
    [M0], and the structured table entry "Gold" that maps it to [M1]. *)
Definition gold_model : State :=
  set_originalMaterials {[ "node"%string := Single M0 ]}
    (set_variantMaterialsKHR {[ "Gold"%string := {[ "node"%string := M1 ]} ]}
       (set_modelGroup (Some (mkGroup 0 0 [mkObject3D "node" (Some (Single M0))]))
          (constructor true "cube"))).

(** ** viewer.ts: building the variant tables when an asset has loaded *)

Module Loading.

(** [name.split("__")]: the text is cut at every "__" met from the left, so
    three underscores in a row leave one at the head of the next part. *)
Fixpoint split_underscores (s : string) : list string :=
  match s with
  | EmptyString => [EmptyString]
  | String c rest =>
      let keep :=
        match split_underscores rest with
        | part :: parts => String c part :: parts
        | [] => [String c EmptyString]
        end in
      if Ascii.eqb c "_"
      then match rest with
           | String c' rest' =>
               if Ascii.eqb c' "_"
               then EmptyString :: split_underscores rest'
               else keep
           | EmptyString => keep
           end
      else keep
  end.

Definition extractVariantName (name : string) : option string :=
  if Nat.eqb (String.length name) 0 then None
  else
    let parts := split_underscores name in
    if Nat.ltb (length parts) 2 then None
    else Some (trim (List.last parts EmptyString)).

(** One entry of [KHR_materials_variants.mappings] on a mesh:
    [mapping_variants] is [None] when [variants] is not an array. *)
Record Mapping : Type := mkMapping {
  mapping_material : nat;
  mapping_variants : option (list Z)
}.

(** A node of [gltf.scene] as [traverse] meets it; [mappings] is [None]
    when the extension is absent or its [mappings] is not an array. *)
Record SceneNode : Type := mkSceneNode {
  object : Object3D;
  mappings : option (list Mapping)
}.

(** The loaded asset: the nodes of its scene in visiting order, and the
    [name] of each entry of the root extension's [variants] ([None] for a
    missing name; an absent list is the empty one). *)
Record Gltf : Type := mkGltf {
  gltf_scene : list SceneNode;
  gltf_variants : list (option string)
}.

(** A pending [getDependency("material", index).then(...)]. *)
Record Task : Type := mkTask {
  task_variant : string;
  task_node : string;
  task_material : nat
}.

(** [variantNames[variantIndex]], [None] where the code goes on to the next
    index ([!name]). *)
Definition variantName (names : list (option string)) (index : Z) : option string :=
  if Z.ltb index 0 then None
  else
    match nth_error names (Z.to_nat index) with
    | Some (Some name) => if Nat.eqb (String.length name) 0 then None else Some name
    | _ => None
    end.

Definition mappingTasks (names : list (option string)) (node_uuid : string)
           (mapping : Mapping) : list Task :=
  match mapping_variants mapping with
  | None => []
  | Some indices =>
      flat_map
        (fun index =>
           match variantName names index with
           | Some name => [mkTask name node_uuid (mapping_material mapping)]
           | None => []
           end)
        indices
  end.

(** The promises one visited node pushes. *)
Definition nodeTasks (names : list (option string)) (node : SceneNode) : list Task :=
  match material (object node) with
  | None => []
  | Some _ =>
      match mappings node with
      | None => []
      | Some ms => flat_map (mappingTasks names (uuid (object node))) ms
      end
  end.

(** [table.get(key)?.set(node, m)] after creating the inner map if needed. *)
Definition register (key node : string) (m : Material)
           (table : gmap string (gmap string Material))
  : gmap string (gmap string Material) :=
  <[key := <[node := m]> (default ∅ (table !! key))]> table.

(** What the traversal callback writes for one node, promises aside. *)
Definition visitNode (s : State) (node : SceneNode) : State :=
  match material (object node) with
  | None => s
  | Some slot =>
      let s1 :=
        set_originalMaterials (<[uuid (object node) := slot]> (originalMaterials s)) s in
      match slot with
      | Multi _ => s1
      | Single m =>
          match extractVariantName (material_name m) with
          | None => s1
          | Some variant =>
              if Nat.eqb (String.length variant) 0 then s1
              else set_variantMaterialsByName
                     (register variant (uuid (object node)) m (variantMaterialsByName s1))
                     s1
          end
      end
  end.

(** [prepareVariants] up to its [await]: the state after the traversal and
    the promises still to settle, in the order they were pushed. *)
Definition prepareVariants (gltf : Gltf) (s : State) : State * list Task :=
  let cleared :=
    set_originalMaterials ∅
      (set_variantMaterialsByName ∅ (set_variantMaterialsKHR ∅ s)) in
  (fold_left visitNode (gltf_scene gltf) cleared,
   flat_map (nodeTasks (gltf_variants gltf)) (gltf_scene gltf)).

(** The [then] callback of one promise, run with the material it resolved
    to. *)
Definition resolved (task : Task) (m : Material) (s : State) : State :=
  set_variantMaterialsKHR
    (register (task_variant task) (task_node task) m (variantMaterialsKHR s)) s.

(** [setSrc] before its first [await]: [None] is a null source;
    the answer tells whether a load was started. *)
Definition setSrc_begin (src : option string) (mesh_uuid : string) (s : State)
  : State * bool :=
  if negb (scene s) || negb (camera s) || negb (renderer s) then (s, false)
  else
    match src with
    | None => (loadDefaultCube mesh_uuid s, false)
    | Some url =>
        if Nat.eqb (String.length (trim url)) 0
        then (loadDefaultCube mesh_uuid s, false)
        else (s, true)
    end.

(** [setSrc] from the moment [loadAsync] has resolved up to the [await] of
    [prepareVariants].  With the scene gone (the viewer was disposed while
    loading) [this.scene.add] throws after the new group was stored, and
    the [catch] block runs [showFallback]. *)
Definition setSrc_loaded (gltf : Gltf) (s : State) : State * list Task :=
  let s1 := clearModel s in
  let s2 := set_modelGroup (Some (mkGroup 0 0 [])) s1 in
  if negb (scene s2) then (showFallback s2, [])
  else
    prepareVariants gltf
      (set_modelGroup (Some (mkGroup 0 0 (map object (gltf_scene gltf)))) s2).

End Loading.

(** ** A viewer in use: what can happen to it, one step at a time *)

Module Session.
Import Loading.

(** The public methods, the events the browser delivers, the frames it
    runs, and what a load can end in: [Loaded] when the asset arrives,
    [Resolved] when one of its materials does, [Failed] when the asset or a
    material cannot be had (the [catch] block of [setSrc]).  These three
    may come at any time and in any order. *)
Inductive Action : Type :=
| SetZoomEnabled (enabled : bool)
| SetPresets (ps : list Preset.t)
| SetPreset (name : string) (now : R)
| SetVariant (name : string)
| SetSrc (src : option string) (mesh_uuid : string)
| Loaded (gltf : Gltf)
| Resolved (task : Task) (m : Material)
| Failed
| PointerDown (event : PointerEvent)
| PointerMove (event : PointerEvent)
| PointerUp (event : PointerEvent) (now : R)
| Wheel (event : WheelEvent)
| Frame (handle : nat) (now : R)
| Dispose.

(** Events reach a handler only while the listeners are attached. *)
Definition perform (a : Action) (s : State) : State :=
  match a with
  | SetZoomEnabled enabled => setZoomEnabled enabled s
  | SetPresets ps => setPresets ps s
  | SetPreset name now => setPreset name now s
  | SetVariant name => setVariant name s
  | SetSrc src mesh_uuid => fst (setSrc_begin src mesh_uuid s)
  | Loaded gltf => fst (setSrc_loaded gltf s)
  | Resolved task m => resolved task m s
  | Failed => showFallback s
  | PointerDown event => if listeners s then onPointerDown event s else s
  | PointerMove event => if listeners s then onPointerMove event s else s
  | PointerUp event now => if listeners s then onPointerUp event now s else s
  | Wheel event => if listeners s then onWheel event s else s
  | Frame handle now => runFrame handle now s
  | Dispose => dispose s
  end.

Definition run (actions : list Action) (s : State) : State :=
  fold_left (fun acc a => perform a acc) actions s.

(** What every step keeps. *)
Record Invariant (s : State) : Prop := mkInvariant {
  inv_distance : MIN_DISTANCE <= distance s <= MAX_DISTANCE;
  inv_camera : camera s = true -> camera_z s = distance s;
  inv_duration : duration (snap s) = 450;
  inv_presets : presets s <> [];
  inv_dragging : dragging s = true <-> pointers s <> [];
  inv_class : container_dragging s = dragging s;
  inv_pointer_ids : NoDup (map fst (pointers s));
  inv_loop : loop_consistent s;
  inv_handle : animationHandle s = None <-> renderer s = false;
  inv_fresh : forall handle, In handle (frames s) -> (handle < next_frame s)%nat;
  inv_scene : scene s = renderer s;
  inv_camera_present : camera s = renderer s;
  inv_listeners : listeners s = renderer s;
  inv_observer : resizeObserver s = renderer s
}.

End Session.

Import Loading Session.

(** ** What the statements about sessions and loads speak about *)

(** The part of the state that the variant and loading code never writes. *)
Definition core (s : State) :=
  (renderer s, scene s, camera s, camera_z s, resizeObserver s, animationHandle s,
   presets s, distance s, dragging s, pointers s, duration (snap s), listeners s,
   container_dragging s, frames s, next_frame s).

(** The only action that turns zooming on. *)
Definition enables_zoom (a : Action) : bool :=
  match a with
  | SetZoomEnabled true => true
  | _ => false
  end.

Definition zoom_part (s : State) := (distance s, camera_z s, zoomEnabled s).

(** The material a variant table holds for a variant and a node. *)
Definition entry (table : gmap string (gmap string Material)) (key node : string)
  : option Material :=
  match table !! key with
  | Some inner => inner !! node
  | None => None
  end.

(** The identifiers of the nodes of an asset, in visiting order. *)
Definition scene_uuids (gltf : Gltf) : list string :=
  map (fun node => uuid (object node)) (gltf_scene gltf).

(** Actions that leave the loaded model in place: everything but a change of
    source, the arrival of another asset, and disposal. *)
Definition keeps_model (a : Action) : bool :=
  match a with
  | SetSrc _ _ | Loaded _ | Dispose => false
  | _ => true
  end.

(** Actions that, besides, select no variant. *)
Definition keeps_materials (a : Action) : bool :=
  match a with
  | SetVariant _ => false
  | _ => keeps_model a
  end.

(** Two node lists of the same shape: the same identifiers in the same
    order, meshes at the same places. *)
Definition same_shape (l l' : list Object3D) : Prop :=
  Forall2 (fun a b => uuid a = uuid b /\ (material a = None <-> material b = None)) l l'.

Definition model_view (s : State) :=
  (option_map nodes (modelGroup s), originalMaterials s, variantMaterialsByName s).

(** [c] put in front of the first of [parts]. *)
Definition cons_head (c : ascii) (parts : list string) : list string :=
  match parts with
  | part :: rest => String c part :: rest
  | [] => [String c ""]
  end.





(** ** Sample assets and sessions *)

(** An asset with a root node, a body whose material is named after the
    variant "Red" and which the variants extension maps to material 3 for
    the variants 0 and 1, and a wheel without variants. *)
Definition showroom : Gltf :=
  mkGltf
    [ mkSceneNode (mkObject3D "root" None) None;
      mkSceneNode (mkObject3D "body" (Some (Single (mkMaterial "paint" "Paint__Red"))))
        (Some [mkMapping 3 (Some [0%Z; 1%Z])]);
      mkSceneNode (mkObject3D "wheel" (Some (Single (mkMaterial "rubber" "Rubber"))))
        None ]
    [Some "Red"%string; Some "Blue"%string].

(** An asset whose only variant is named "Gold " with a space at the end:
    one mesh "node" with material [M0], which the variants extension maps
    to material 0 for that variant. *)
Definition spaced_asset : Gltf :=
  mkGltf
    [ mkSceneNode (mkObject3D "node" (Some (Single M0)))
        (Some [mkMapping 0 (Some [0%Z])]) ]
    [Some "Gold "%string].

(** A fresh viewer in which [spaced_asset] has arrived and the promised
    material has resolved to [M1]. *)
Definition spaced_model : State :=
  run [Loaded spaced_asset; Resolved (mkTask "Gold " "node" 0) M1]
    (constructor true "cube").

(** A fresh viewer given the single preset "top", of pitch 5, and told at
    time 0 to go there. *)
Definition tilted_start : State :=
  run [SetPresets [Preset.mk "top" 0 5]; SetPreset "top" 0] (constructor true "cube").

(** A fresh viewer in which [showroom] has just arrived. *)
Definition showroom_loaded : State :=
  fst (setSrc_loaded showroom (constructor true "cube")).

(** A fresh viewer on its way to the preset "back". *)
Definition turning_back : State := setPreset "back" 100 (constructor true "cube").

(** * Properties *)

(** ** Truncation and remainder *)

Lemma Rtrunc_nonneg (x : R) :
  0 <= x -> IZR (Rtrunc x) <= x < IZR (Rtrunc x) + 1.
Proof.
  intros Hx. unfold Rtrunc.
  destruct (Rle_dec 0 x) as [_ | Hn]; [apply Zfloor_bound | contradiction].
Qed.

Lemma Rtrunc_neg (x : R) :
  x < 0 -> IZR (Rtrunc x) - 1 < x <= IZR (Rtrunc x).
Proof.
  intros Hx. unfold Rtrunc.
  destruct (Rle_dec 0 x) as [Hp | _]; [lra | apply Zceil_bound].
Qed.

Lemma Rtrunc_zero (x : R) : -1 < x < 1 -> Rtrunc x = 0%Z.
Proof.
  intros [Hl Hu].
  destruct (Rle_dec 0 x) as [Hp | Hn].
  - pose proof (Rtrunc_nonneg x Hp) as [H1 H2].
    assert (Hlo : (-1 < Rtrunc x)%Z) by (apply lt_IZR; lra).
    assert (Hhi : (Rtrunc x < 1)%Z) by (apply lt_IZR; lra).
    lia.
  - assert (Hx : x < 0) by lra.
    pose proof (Rtrunc_neg x Hx) as [H1 H2].
    assert (Hlo : (-1 < Rtrunc x)%Z) by (apply lt_IZR; lra).
    assert (Hhi : (Rtrunc x < 1)%Z) by (apply lt_IZR; lra).
    lia.
Qed.

(** The remainder by a positive divisor is strictly inside [(-b, b)]. *)
Lemma Rrem_range (a b : R) : 0 < b -> - b < Rrem a b < b.
Proof.
  intros Hb. unfold Rrem.
  set (q := a / b).
  assert (Ha : a = b * q) by (unfold q; field; lra).
  rewrite Ha at 1 2.
  destruct (Rle_dec 0 q) as [Hq | Hq].
  - pose proof (Rtrunc_nonneg q Hq). nra.
  - assert (Hq' : q < 0) by lra.
    pose proof (Rtrunc_neg q Hq'). nra.
Qed.

Lemma Rrem_small (a b : R) : 0 < b -> - b < a < b -> Rrem a b = a.
Proof.
  intros Hb Ha. unfold Rrem.
  rewrite Rtrunc_zero; [simpl; ring |].
  assert (Hinv : 0 < / b) by (apply Rinv_0_lt_compat; exact Hb).
  unfold Rdiv. split.
  - apply Rmult_lt_reg_r with b; [exact Hb |].
    rewrite Rmult_assoc, Rinv_l by lra. lra.
  - apply Rmult_lt_reg_r with b; [exact Hb |].
    rewrite Rmult_assoc, Rinv_l by lra. lra.
Qed.

(** ** [wrapAngle] *)

Lemma two_pi_pos : 0 < PI * 2.
Proof. pose proof PI_RGT_0. lra. Qed.

Lemma wrapAngle_range (a : R) : - PI <= wrapAngle a <= PI.
Proof.
  pose proof PI_RGT_0 as Hpi.
  pose proof (Rrem_range a (PI * 2) two_pi_pos) as Hr.
  unfold wrapAngle.
  destruct (Rgt_dec (Rrem a (PI * 2)) PI) as [H1 | H1].
  - destruct (Rlt_dec (Rrem a (PI * 2) - PI * 2) (- PI)); lra.
  - destruct (Rlt_dec (Rrem a (PI * 2)) (- PI)); lra.
Qed.

Lemma wrapAngle_small (a : R) : - PI <= a <= PI -> wrapAngle a = a.
Proof.
  intros Ha. pose proof PI_RGT_0 as Hpi.
  unfold wrapAngle.
  rewrite (Rrem_small a (PI * 2)) by lra.
  destruct (Rgt_dec a PI); [lra |].
  destruct (Rlt_dec a (- PI)); lra.
Qed.

Lemma wrapAngle_congruent (a : R) :
  exists k : Z, wrapAngle a = a + IZR k * (PI * 2).
Proof.
  unfold wrapAngle, Rrem.
  set (n := Rtrunc (a / (PI * 2))).
  destruct (Rgt_dec (a - PI * 2 * IZR n) PI) as [H1 | H1].
  - destruct (Rlt_dec (a - PI * 2 * IZR n - PI * 2) (- PI)).
    + exists (- n)%Z. rewrite opp_IZR. ring.
    + exists (- n - 1)%Z. rewrite minus_IZR, opp_IZR. ring.
  - destruct (Rlt_dec (a - PI * 2 * IZR n) (- PI)).
    + exists (- n + 1)%Z. rewrite plus_IZR, opp_IZR. ring.
    + exists (- n)%Z. rewrite opp_IZR. ring.
Qed.

Lemma wrapAngle_neg_pi : wrapAngle (- PI) = - PI.
Proof. apply wrapAngle_small. pose proof PI_RGT_0. lra. Qed.

(** C3 (as the code has it): for every real [a], [wrapAngle a] lies in the
    closed interval from [-PI] to [PI], differs from [a] by a whole number
    of turns, and wrapping a wrapped angle changes nothing. *)
Theorem wrapAngle_closed_range_idempotent (a : R) :
  - PI <= wrapAngle a <= PI
  /\ (exists k : Z, wrapAngle a = a + IZR k * (PI * 2))
  /\ wrapAngle (wrapAngle a) = wrapAngle a.
Proof.
  split; [apply wrapAngle_range |].
  split; [apply wrapAngle_congruent |].
  apply wrapAngle_small, wrapAngle_range.
Qed.

(** C3 fails at the lower end: [-PI] is returned as it is, so the result is
    not in the interval that excludes [-PI]. *)
Lemma wrapAngle_lower_end_attained :
  ~ (- PI < wrapAngle (- PI) <= PI).
Proof. rewrite wrapAngle_neg_pi. lra. Qed.

(** ** [clamp], [lerp] and the easing curve *)

Lemma clamp_range (value lo hi : R) : lo <= hi -> lo <= clamp value lo hi <= hi.
Proof.
  intros Hle. unfold clamp, Rmin, Rmax.
  destruct (Rle_dec lo value); destruct (Rle_dec hi _); lra.
Qed.

Lemma clamp_below (value lo hi : R) : lo <= hi -> value <= lo -> clamp value lo hi = lo.
Proof.
  intros Hle Hv. unfold clamp, Rmin, Rmax.
  destruct (Rle_dec lo value); destruct (Rle_dec hi _); lra.
Qed.

Lemma clamp_above (value lo hi : R) : lo <= hi -> hi <= value -> clamp value lo hi = hi.
Proof.
  intros Hle Hv. unfold clamp, Rmin, Rmax.
  destruct (Rle_dec lo value); destruct (Rle_dec hi _); lra.
Qed.




Lemma ease_one : ease 1 = 1.
Proof. unfold ease. ring. Qed.

Lemma ease_monotone (t1 t2 : R) :
  0 <= t1 -> t1 <= t2 -> t2 <= 1 -> ease t1 <= ease t2.
Proof. intros H0 H12 H1. unfold ease. nra. Qed.

Lemma ease_unit (t : R) : 0 <= t <= 1 -> 0 <= ease t <= 1.
Proof. intros Ht. unfold ease. nra. Qed.

(** ** [updateDistance] *)

Lemma updateDistance_distance (next : R) (s : State) :
  distance (updateDistance next s) = clamp next MIN_DISTANCE MAX_DISTANCE.
Proof. unfold updateDistance. simpl. destruct (camera s); reflexivity. Qed.

Lemma updateDistance_orientation (next : R) (s : State) :
  currentYaw (updateDistance next s) = currentYaw s
  /\ currentPitch (updateDistance next s) = currentPitch s.
Proof. unfold updateDistance. simpl. destruct (camera s); split; reflexivity. Qed.

(** C8: [updateDistance next] stores [clamp next 1.8 4.5], which lies between
    1.8 and 4.5 whatever [next] is; 1.0 gives 1.8 and 10 gives 4.5.  The value
    is also pushed to the camera when there is one. *)
Theorem updateDistance_clamps (next : R) (s : State) :
  distance (updateDistance next s) = clamp next 1.8 4.5
  /\ 1.8 <= distance (updateDistance next s) <= 4.5
  /\ distance (updateDistance 1.0 s) = 1.8
  /\ distance (updateDistance 10 s) = 4.5
  /\ camera_z (updateDistance next s)
     = (if camera s then clamp next 1.8 4.5 else camera_z s).
Proof.
  rewrite !updateDistance_distance. unfold MIN_DISTANCE, MAX_DISTANCE.
  split; [reflexivity |].
  split; [apply clamp_range; lra |].
  split; [apply clamp_below; lra |].
  split; [apply clamp_above; lra |].
  unfold updateDistance. simpl. destruct (camera s); reflexivity.
Qed.

(** ** Snap animation *)

Lemma updateSnap_idle (now : R) (s : State) :
  active (snap s) = false -> updateSnap now s = s.
Proof. intros Hidle. unfold updateSnap. rewrite Hidle. reflexivity. Qed.

Lemma updateSnap_active (now : R) (s : State) :
  active (snap s) = true ->
  let t := clamp ((now - startTime (snap s)) / duration (snap s)) 0 1 in
  currentYaw (updateSnap now s) = lerp (startYaw (snap s)) (targetYaw (snap s)) (ease t)
  /\ currentPitch (updateSnap now s)
     = lerp (startPitch (snap s)) (targetPitch (snap s)) (ease t)
  /\ active (snap (updateSnap now s)) = (if Rge_dec t 1 then false else true).
Proof.
  intros Hact t. unfold updateSnap. rewrite Hact. simpl. fold t.
  unfold updateModelRotation. simpl.
  destruct (modelGroup s); simpl; destruct (Rge_dec t 1); simpl; auto.
Qed.


Lemma snap_progress_end (now start dur : R) :
  0 < dur -> start + dur <= now -> clamp ((now - start) / dur) 0 1 = 1.
Proof.
  intros Hd Hn. apply clamp_above; [lra |].
  apply Rmult_le_reg_r with dur; [exact Hd |].
  unfold Rdiv. rewrite Rmult_assoc, Rinv_l by lra. lra.
Qed.




(** ** Nearest preset *)

Lemma hypot_nonneg (x y : R) : 0 <= hypot x y.
Proof. unfold hypot. apply sqrt_pos. Qed.

Lemma hypot_level (x y : R) : y = 0 -> hypot x y = Rabs x.
Proof.
  intros ->. unfold hypot.
  replace (x * x + 0 * 0) with (Rsqr x) by (unfold Rsqr; ring).
  apply sqrt_Rsqr_abs.
Qed.

Lemma ext_lt_true (x : R) (m : ExtR) :
  ext_lt x m = true <-> match m with Finite r => x < r | PosInf => True end.
Proof.
  destruct m as [r |]; simpl; [| tauto].
  destruct (Rlt_dec x r); split; intros; congruence || tauto.
Qed.

Lemma ext_lt_false (x : R) (m : ExtR) :
  ext_lt x m = false <-> match m with Finite r => r <= x | PosInf => False end.
Proof.
  destruct m as [r |]; simpl; [| split; [discriminate | tauto]].
  destruct (Rlt_dec x r); split; intros; try congruence; lra.
Qed.

(** What the loop leaves in [(nearest, minDist)]: either no preset of the
    list was strictly closer than the starting bound, or the winner is the
    first preset of least distance, and it beat the bound. *)
Lemma nearest_fold (s : State) (l : list Preset.t) (acc : Preset.t * ExtR) :
  (fold_left (nearestStep s) l acc = acc
   /\ Forall (fun q => ext_lt (presetDist s q) (snd acc) = false) l)
  \/ (exists l1 p l2,
        l = l1 ++ p :: l2
        /\ fold_left (nearestStep s) l acc = (p, Finite (presetDist s p))
        /\ ext_lt (presetDist s p) (snd acc) = true
        /\ Forall (fun q => presetDist s p < presetDist s q) l1
        /\ Forall (fun q => presetDist s p <= presetDist s q) l2).
Proof.
  revert acc. induction l as [| a l IH]; intros acc.
  - left. split; [reflexivity | constructor].
  - simpl fold_left.
    destruct (ext_lt (presetDist s a) (snd acc)) eqn:Hlt.
    + assert (Hstep : nearestStep s acc a = (a, Finite (presetDist s a)))
        by (unfold nearestStep; rewrite Hlt; reflexivity).
      rewrite Hstep. right.
      destruct (IH (a, Finite (presetDist s a)))
        as [[Hsame Hall] | (l1 & p & l2 & Hl & Hres & Hp & H1 & H2)].
      * exists [], a, l. simpl.
        split; [reflexivity |]. split; [exact Hsame |]. split; [exact Hlt |].
        split; [constructor |].
        eapply List.Forall_impl; [| exact Hall]. intros q Hq.
        apply (ext_lt_false _ (Finite _)) in Hq. exact Hq.
      * exists (a :: l1), p, l2. apply (ext_lt_true _ (Finite _)) in Hp.
        split; [simpl; now rewrite Hl |]. split; [exact Hres |].
        split.
        { apply ext_lt_true. apply ext_lt_true in Hlt.
          destruct (snd acc); [lra | exact I]. }
        split; [constructor; [exact Hp | exact H1] | exact H2].
    + assert (Hstep : nearestStep s acc a = acc)
        by (unfold nearestStep; rewrite Hlt; reflexivity).
      rewrite Hstep.
      destruct (IH acc)
        as [[Hsame Hall] | (l1 & p & l2 & Hl & Hres & Hp & H1 & H2)].
      * left. split; [exact Hsame | constructor; assumption].
      * right. exists (a :: l1), p, l2.
        split; [simpl; now rewrite Hl |]. split; [exact Hres |].
        split; [exact Hp |].
        split; [| exact H2].
        constructor; [| exact H1].
        apply ext_lt_true in Hp. apply ext_lt_false in Hlt.
        destruct (snd acc); [lra | contradiction].
Qed.

Lemma findNearestPreset_spec (s : State) :
  match findNearestPreset s with
  | None => presets s = []
  | Some p =>
      exists l1 l2,
        presets s = l1 ++ p :: l2
        /\ Forall (fun q => presetDist s p < presetDist s q) l1
        /\ Forall (fun q => presetDist s p <= presetDist s q) l2
  end.
Proof.
  unfold findNearestPreset.
  destruct (presets s) as [| first rest] eqn:Hps; [reflexivity |].
  destruct (nearest_fold s (first :: rest) (first, PosInf))
    as [[_ Hall] | (l1 & p & l2 & Hl & Hres & _ & H1 & H2)].
  - inversion Hall as [| ? ? Hfirst _]. simpl in Hfirst. discriminate.
  - rewrite Hres. simpl. exists l1, l2. auto.
Qed.

Lemma wrapAngle_above (a : R) : PI < a < PI * 2 -> wrapAngle a = a - PI * 2.
Proof.
  intros Ha. pose proof PI_RGT_0 as Hpi.
  unfold wrapAngle.
  rewrite (Rrem_small a (PI * 2)) by lra.
  destruct (Rgt_dec a PI); [| lra].
  destruct (Rlt_dec (a - PI * 2) (- PI)); lra.
Qed.

Lemma presetDist_level (s : State) (p : Preset.t) :
  currentPitch s = Preset.pitch p ->
  presetDist s p = Rabs (wrapAngle (currentYaw s - Preset.yaw p)).
Proof. intros Hp. unfold presetDist. apply hypot_level. lra. Qed.

Lemma PI_bounds : 3 < PI <= 4.
Proof. pose proof PI2_3_2. pose proof PI_4. lra. Qed.

Ltac level_dist :=
  rewrite presetDist_level by (simpl; lra); simpl.

Lemma nearest_right (s : State) :
  presets s = Presets.DEFAULT_PRESETS ->
  currentYaw s = PI / 2 + 0.01 ->
  currentPitch s = 0 ->
  option_map Preset.name (findNearestPreset s) = Some "right"%string.
Proof.
  intros Hps Hyaw Hpitch. pose proof PI_bounds as Hpi.
  assert (Hfront : presetDist s (Preset.mk "front" 0 0) = PI / 2 + 0.01).
  { level_dist. rewrite Hyaw, wrapAngle_small by lra.
    rewrite Rabs_right by lra. lra. }
  assert (Hback : presetDist s (Preset.mk "back" PI 0) = PI / 2 - 0.01).
  { level_dist. rewrite Hyaw, wrapAngle_small by lra.
    rewrite Rabs_left by lra. lra. }
  assert (Hleft : presetDist s (Preset.mk "left" (- PI / 2) 0) = PI - 0.01).
  { level_dist. rewrite Hyaw, wrapAngle_above by lra.
    rewrite Rabs_left by lra. lra. }
  assert (Hright : presetDist s (Preset.mk "right" (PI / 2) 0) = 0.01).
  { level_dist. rewrite Hyaw, wrapAngle_small by lra.
    rewrite Rabs_right by lra. lra. }
  unfold findNearestPreset. rewrite Hps. unfold Presets.DEFAULT_PRESETS.
  simpl fold_left. unfold nearestStep at 4. rewrite Hfront. simpl.
  unfold nearestStep at 3. rewrite Hback. simpl.
  destruct (Rlt_dec (PI / 2 - 0.01) (PI / 2 + 0.01)); [| lra].
  unfold nearestStep at 2. rewrite Hleft. simpl.
  destruct (Rlt_dec (PI - 0.01) (PI / 2 - 0.01)); [lra |].
  unfold nearestStep. rewrite Hright. simpl.
  destruct (Rlt_dec 0.01 (PI / 2 - 0.01)); [reflexivity | lra].
Qed.

Lemma nearest_back (s : State) :
  presets s = Presets.DEFAULT_PRESETS ->
  currentYaw s = PI ->
  currentPitch s = 0 ->
  option_map Preset.name (findNearestPreset s) = Some "back"%string
  /\ presetDist s (Preset.mk "back" PI 0) = 0.
Proof.
  intros Hps Hyaw Hpitch. pose proof PI_bounds as Hpi.
  assert (Hfront : presetDist s (Preset.mk "front" 0 0) = PI).
  { level_dist. rewrite Hyaw, wrapAngle_small by lra.
    rewrite Rabs_right by lra. lra. }
  assert (Hback : presetDist s (Preset.mk "back" PI 0) = 0).
  { level_dist. rewrite Hyaw, wrapAngle_small by lra.
    rewrite Rabs_right by lra. lra. }
  assert (Hleft : presetDist s (Preset.mk "left" (- PI / 2) 0) = PI / 2).
  { level_dist. rewrite Hyaw, wrapAngle_above by lra.
    rewrite Rabs_left by lra. lra. }
  assert (Hright : presetDist s (Preset.mk "right" (PI / 2) 0) = PI / 2).
  { level_dist. rewrite Hyaw, wrapAngle_small by lra.
    rewrite Rabs_right by lra. lra. }
  split; [| exact Hback].
  unfold findNearestPreset. rewrite Hps. unfold Presets.DEFAULT_PRESETS.
  simpl fold_left. unfold nearestStep at 4. rewrite Hfront. simpl.
  unfold nearestStep at 3. rewrite Hback. simpl.
  destruct (Rlt_dec 0 PI); [| lra].
  unfold nearestStep at 2. rewrite Hleft. simpl.
  destruct (Rlt_dec (PI / 2) 0); [lra |].
  unfold nearestStep. rewrite Hright. simpl.
  destruct (Rlt_dec (PI / 2) 0); [lra | reflexivity].
Qed.

Lemma turns_far (w : R) (m : Z) :
  - PI <= w <= PI -> m <> 0%Z -> Rabs w <= Rabs (w + IZR m * (PI * 2)).
Proof.
  intros Hw Hm. pose proof PI_RGT_0 as Hpi.
  assert (Habs : Rabs w <= PI) by (apply Rabs_le; lra).
  destruct (Z_lt_le_dec m 0) as [Hneg | Hpos].
  - assert (Hle : IZR m <= -1) by (apply IZR_le; lia).
    rewrite (Rabs_left (w + IZR m * (PI * 2))) by nra. nra.
  - assert (Hge : 1 <= IZR m) by (apply IZR_le; lia).
    rewrite (Rabs_right (w + IZR m * (PI * 2))) by nra. nra.
Qed.

Lemma wrapAngle_abs_least (a : R) (k : Z) :
  Rabs (wrapAngle a) <= Rabs (a + IZR k * (PI * 2)).
Proof.
  destruct (wrapAngle_congruent a) as [k0 Hk0].
  pose proof (wrapAngle_range a) as Hrange.
  replace (a + IZR k * (PI * 2)) with (wrapAngle a + IZR (k - k0)%Z * (PI * 2))
    by (rewrite Hk0, minus_IZR; ring).
  destruct (Z.eq_dec (k - k0)%Z 0%Z) as [Hz | Hnz].
  - rewrite Hz. simpl. rewrite Rmult_0_l, Rplus_0_r. lra.
  - apply turns_far; assumption.
Qed.

Lemma wrapAngle_abs_turn (a : R) (k : Z) :
  Rabs (wrapAngle (a + IZR k * (PI * 2))) = Rabs (wrapAngle a).
Proof.
  apply Rle_antisym.
  - destruct (wrapAngle_congruent a) as [k0 Hk0].
    rewrite Hk0.
    replace (a + IZR k0 * (PI * 2))
      with (a + IZR k * (PI * 2) + IZR (k0 - k)%Z * (PI * 2))
      by (rewrite minus_IZR; ring).
    apply wrapAngle_abs_least.
  - destruct (wrapAngle_congruent (a + IZR k * (PI * 2))) as [k1 Hk1].
    rewrite Hk1.
    replace (a + IZR k * (PI * 2) + IZR k1 * (PI * 2))
      with (a + IZR (k + k1)%Z * (PI * 2))
      by (rewrite plus_IZR; ring).
    apply wrapAngle_abs_least.
Qed.

Lemma hypot_abs (x y : R) : hypot x y = hypot (Rabs x) y.
Proof.
  unfold hypot. f_equal. f_equal.
  unfold Rabs. destruct (Rcase_abs x); ring.
Qed.

Lemma findNearestPreset_dist_ext (s s' : State) :
  presets s = presets s' ->
  (forall p, presetDist s p = presetDist s' p) ->
  findNearestPreset s = findNearestPreset s'.
Proof.
  intros Hps Hdist.
  assert (Hstep : forall acc p, nearestStep s acc p = nearestStep s' acc p).
  { intros acc p. unfold nearestStep. now rewrite Hdist. }
  assert (Hfold : forall l acc,
             fold_left (nearestStep s) l acc = fold_left (nearestStep s') l acc).
  { induction l as [| a l IH]; intros acc; simpl; [reflexivity |].
    now rewrite Hstep, IH. }
  unfold findNearestPreset. rewrite <- Hps.
  destruct (presets s); [reflexivity |]. now rewrite Hfold.
Qed.

Lemma hypot_monotone (x x' y : R) : Rabs x <= Rabs x' -> hypot x y <= hypot x' y.
Proof.
  intros Hx. unfold hypot. apply sqrt_le_1_alt.
  assert (Hsq : x * x <= x' * x').
  { replace (x * x) with (Rabs x * Rabs x)
      by (unfold Rabs; destruct (Rcase_abs x); ring).
    replace (x' * x') with (Rabs x' * Rabs x')
      by (unfold Rabs; destruct (Rcase_abs x'); ring).
    pose proof (Rabs_pos x). nra. }
  lra.
Qed.

Lemma hypot_ge_components (x y : R) : Rabs x <= hypot x y /\ Rabs y <= hypot x y.
Proof.
  unfold hypot. split.
  - rewrite <- sqrt_Rsqr_abs. apply sqrt_le_1_alt. unfold Rsqr. nra.
  - rewrite <- sqrt_Rsqr_abs. apply sqrt_le_1_alt. unfold Rsqr. nra.
Qed.

Lemma presetDist_least_turn (s : State) (p : Preset.t) (k : Z) :
  presetDist s p
  <= hypot (currentYaw s - Preset.yaw p + IZR k * (PI * 2))
           (currentPitch s - Preset.pitch p).
Proof. unfold presetDist. apply hypot_monotone, wrapAngle_abs_least. Qed.

Lemma presetDist_turn (s : State) (k : Z) (p : Preset.t) :
  presetDist (set_currentYaw (currentYaw s + IZR k * (PI * 2)) s) p = presetDist s p.
Proof.
  unfold presetDist. simpl.
  rewrite hypot_abs, (hypot_abs (wrapAngle (currentYaw s - Preset.yaw p))).
  f_equal.
  replace (currentYaw s + IZR k * (PI * 2) - Preset.yaw p)
    with (currentYaw s - Preset.yaw p + IZR k * (PI * 2)) by ring.
  apply wrapAngle_abs_turn.
Qed.

Lemma nearest_right_turned (s : State) :
  presets s = Presets.DEFAULT_PRESETS ->
  currentYaw s = PI / 2 + 0.01 + PI * 2 ->
  currentPitch s = 0 ->
  option_map Preset.name (findNearestPreset s) = Some "right"%string.
Proof.
  intros Hps Hyaw Hpitch.
  rewrite <- (nearest_right (set_currentYaw (PI / 2 + 0.01) s) Hps eq_refl Hpitch).
  f_equal. apply findNearestPreset_dist_ext; [reflexivity |].
  intros p.
  rewrite <- (presetDist_turn (set_currentYaw (PI / 2 + 0.01) s) 1 p).
  unfold presetDist. simpl. rewrite Hyaw. do 2 f_equal. lra.
Qed.

(** C4: the distance [findNearestPreset] computes for a preset is
    [hypot (wrapAngle (yaw - preset.yaw)) (pitch - preset.pitch)].  The yaw
    delta is taken up to whole turns: the distance is at most what any
    whole-turn shift of the yaw delta would give.  The pitch delta is taken
    as it is: the distance is at least its absolute value.
    [findNearestPreset] answers [None] exactly for an empty preset list;
    otherwise it answers a preset of the list whose distance is strictly
    below that of every preset before it and at most that of every preset
    after it (least distance, first occurrence on ties).  With the four
    built-in presets it names "right" at yaw PI/2 + 0.01, pitch 0, and "back"
    (at distance 0) at yaw PI, pitch 0; one whole turn further, at yaw
    PI/2 + 0.01 + 2 PI, it still names "right". *)
Theorem findNearestPreset_first_minimum (s : State) :
  (forall p : Preset.t,
      presetDist s p
      = hypot (wrapAngle (currentYaw s - Preset.yaw p))
              (currentPitch s - Preset.pitch p))
  /\ (forall (p : Preset.t) (k : Z),
         presetDist s p
         <= hypot (currentYaw s - Preset.yaw p + IZR k * (PI * 2))
                  (currentPitch s - Preset.pitch p))
  /\ (forall p : Preset.t,
         Rabs (currentPitch s - Preset.pitch p) <= presetDist s p
         /\ Rabs (wrapAngle (currentYaw s - Preset.yaw p)) <= presetDist s p)
  /\ match findNearestPreset s with
     | None => presets s = []
     | Some p =>
         exists l1 l2,
           presets s = l1 ++ p :: l2
           /\ Forall (fun q => presetDist s p < presetDist s q) l1
           /\ Forall (fun q => presetDist s p <= presetDist s q) l2
     end
  /\ findNearestPreset (set_presets [] s) = None
  /\ state_preset
       (getState (set_currentPitch 0 (set_currentYaw (PI / 2 + 0.01) (setPresets [] s))))
     = Some "right"%string
  /\ state_preset (getState (set_currentPitch 0 (set_currentYaw PI (setPresets [] s))))
     = Some "back"%string
  /\ presetDist (set_currentPitch 0 (set_currentYaw PI (setPresets [] s)))
       (Preset.mk "back" PI 0) = 0
  /\ state_preset
       (getState
          (set_currentPitch 0 (set_currentYaw (PI / 2 + 0.01 + PI * 2) (setPresets [] s))))
     = Some "right"%string.
Proof.
  split; [reflexivity |].
  split; [apply presetDist_least_turn |].
  split.
  { intros p. unfold presetDist.
    destruct (hypot_ge_components (wrapAngle (currentYaw s - Preset.yaw p))
                (currentPitch s - Preset.pitch p)) as [Hx Hy].
    split; assumption. }
  split; [apply findNearestPreset_spec |].
  split; [reflexivity |].
  split; [apply nearest_right; reflexivity |].
  split; [apply nearest_back; reflexivity |].
  split; [apply nearest_back; reflexivity |].
  apply nearest_right_turned; reflexivity.
Qed.

(** ** Pointer bookkeeping *)


Lemma findNearestPreset_ext (s s' : State) :
  presets s = presets s' ->
  currentYaw s = currentYaw s' ->
  currentPitch s = currentPitch s' ->
  findNearestPreset s = findNearestPreset s'.
Proof.
  intros Hps Hyaw Hpitch.
  assert (Hstep : forall acc p, nearestStep s acc p = nearestStep s' acc p).
  { intros acc p. unfold nearestStep, presetDist. now rewrite Hyaw, Hpitch. }
  assert (Hfold : forall l acc,
             fold_left (nearestStep s) l acc = fold_left (nearestStep s') l acc).
  { induction l as [| a l IH]; intros acc; simpl; [reflexivity |].
    now rewrite Hstep, IH. }
  unfold findNearestPreset. rewrite <- Hps.
  destruct (presets s); [reflexivity |]. now rewrite Hfold.
Qed.

Lemma onPointerDown_fields (event : PointerEvent) (s : State) :
  renderer s = true ->
  let tracked :=
    JsMap.set (pointerId event) (Point.mk (clientX event) (clientY event)) (pointers s) in
  let first := Nat.eqb (JsMap.size tracked) 1 in
  pointers (onPointerDown event s) = tracked
  /\ renderer (onPointerDown event s) = true
  /\ dragging (onPointerDown event s) = (if first then true else dragging s)
  /\ snap (onPointerDown event s) = (if first then set_active false (snap s) else snap s)
  /\ hint_hidden (onPointerDown event s) = (if first then true else hint_hidden s)
  /\ container_dragging (onPointerDown event s)
     = (if first then true else container_dragging s).
Proof.
  intros Hr tracked first. unfold onPointerDown. rewrite Hr. simpl.
  fold tracked. fold first.
  destruct first; simpl; fold tracked;
    destruct (Nat.eqb (JsMap.size tracked) 2); simpl;
    try destruct (JsMap.values tracked) as [| p0 [| p1 rest]]; simpl;
    rewrite ?Hr; repeat split; reflexivity.
Qed.

Lemma onPointerUp_fields (event : PointerEvent) (now : R) (s : State) :
  renderer s = true ->
  let tracked := JsMap.delete (pointerId event) (pointers s) in
  let released := Nat.eqb (JsMap.size tracked) 0 && dragging s in
  pointers (onPointerUp event now s) = tracked
  /\ renderer (onPointerUp event now s) = true
  /\ dragging (onPointerUp event now s) = (if released then false else dragging s)
  /\ container_dragging (onPointerUp event now s)
     = (if released then false else container_dragging s)
  /\ snap (onPointerUp event now s)
     = (if released
        then match findNearestPreset s with
             | Some preset =>
                 mkSnap true (currentYaw s) (currentPitch s)
                   (Preset.yaw preset) (Preset.pitch preset) now 450
             | None => snap s
             end
        else snap s).
Proof.
  intros Hr tracked released. unfold onPointerUp. rewrite Hr. simpl.
  fold tracked. fold released.
  destruct released; simpl; [| rewrite ?Hr; repeat split; reflexivity].
  rewrite (findNearestPreset_ext _ s) by reflexivity.
  destruct (findNearestPreset s); simpl; rewrite ?Hr; repeat split; reflexivity.
Qed.

Lemma onPointerUp_no_renderer (event : PointerEvent) (now : R) (s : State) :
  renderer s = false -> onPointerUp event now s = s.
Proof. intros Hr. unfold onPointerUp. now rewrite Hr. Qed.

Lemma two_down_tracked (s : State) (down1 down2 : PointerEvent) :
  renderer s = true ->
  pointers s = [] ->
  pointerId down1 <> pointerId down2 ->
  let pressed := onPointerDown down2 (onPointerDown down1 s) in
  renderer pressed = true
  /\ pointers pressed
     = [ (pointerId down1, Point.mk (clientX down1) (clientY down1));
         (pointerId down2, Point.mk (clientX down2) (clientY down2)) ]
  /\ dragging pressed = true
  /\ active (snap pressed) = false.
Proof.
  intros Hr Hempty Hne pressed.
  destruct (onPointerDown_fields down1 s Hr) as (Hp1 & Hr1 & Hd1 & Hs1 & _).
  rewrite Hempty in Hp1, Hd1, Hs1. simpl in Hp1, Hd1, Hs1.
  destruct (onPointerDown_fields down2 _ Hr1) as (Hp2 & Hr2 & Hd2 & Hs2 & _).
  rewrite Hp1 in Hp2, Hd2, Hs2. simpl in Hp2, Hd2, Hs2.
  assert (Hneq : Z.eqb (pointerId down2) (pointerId down1) = false)
    by (apply Z.eqb_neq; congruence).
  rewrite Hneq in Hp2, Hd2, Hs2. simpl in Hd2, Hs2.
  unfold pressed. rewrite Hr2, Hp2, Hd2, Hs2, Hd1, Hs1. auto.
Qed.

Lemma findNearestPreset_least (s : State) (preset : Preset.t) :
  findNearestPreset s = Some preset ->
  exists l1 l2,
    presets s = l1 ++ preset :: l2
    /\ Forall (fun q => presetDist s preset < presetDist s q) l1
    /\ Forall (fun q => presetDist s preset <= presetDist s q) l2
    /\ (forall (q : Preset.t) (k : Z),
           In q (presets s) ->
           hypot (wrapAngle (currentYaw s - Preset.yaw preset))
                 (currentPitch s - Preset.pitch preset)
           <= hypot (currentYaw s - Preset.yaw q + IZR k * (PI * 2))
                    (currentPitch s - Preset.pitch q)).
Proof.
  intros Hnear. pose proof (findNearestPreset_spec s) as Hspec.
  rewrite Hnear in Hspec. destruct Hspec as (l1 & l2 & Hl & Hbefore & Hafter).
  exists l1, l2. repeat split; try assumption.
  intros q k Hq.
  apply Rle_trans with (presetDist s q); [| apply presetDist_least_turn].
  rewrite Hl in Hq. apply in_app_or in Hq as [Hq | [<- | Hq]].
  - left. exact (proj1 (List.Forall_forall _ _) Hbefore q Hq).
  - unfold presetDist. lra.
  - exact (proj1 (List.Forall_forall _ _) Hafter q Hq).
Qed.

(** C7: from a state without tracked pointers, after two distinct pointers
    go down and one of them is released, exactly one pointer is tracked, drag
    mode is still on and the snap transition is the idle one left by the
    presses.  In general a release leaves the transition alone unless it
    empties the pointer map while drag mode is on; when it does, drag mode
    and the dragging class are cleared and, unless the preset list is empty,
    a transition starts from the current orientation to the nearest preset:
    the first preset of the list whose distance [presetDist] from the
    current orientation is the least, a distance that no whole-turn shift of
    the yaw delta to any preset of the list undercuts. *)
Theorem pointer_release_snap
  (s : State) (down1 down2 up : PointerEvent) (now : R) :
  renderer s = true ->
  pointers s = [] ->
  pointerId down1 <> pointerId down2 ->
  pointerId up = pointerId down1 \/ pointerId up = pointerId down2 ->
  let pressed := onPointerDown down2 (onPointerDown down1 s) in
  let released := onPointerUp up now pressed in
  (JsMap.size (pointers pressed) = 2%nat
   /\ JsMap.size (pointers released) = 1%nat
   /\ dragging released = true
   /\ snap released = snap pressed
   /\ active (snap released) = false)
  /\ (forall (s0 : State) (event : PointerEvent) (now0 : R),
         JsMap.size (JsMap.delete (pointerId event) (pointers s0)) <> 0%nat
         \/ dragging s0 = false ->
         snap (onPointerUp event now0 s0) = snap s0)
  /\ (forall (s0 : State) (event : PointerEvent) (now0 : R),
         renderer s0 = true ->
         JsMap.size (JsMap.delete (pointerId event) (pointers s0)) = 0%nat ->
         dragging s0 = true ->
         let s1 := onPointerUp event now0 s0 in
         pointers s1 = []
         /\ dragging s1 = false
         /\ container_dragging s1 = false
         /\ match presets s0 with
            | [] => snap s1 = snap s0
            | _ :: _ =>
                exists preset l1 l2,
                  presets s0 = l1 ++ preset :: l2
                  /\ Forall (fun q => presetDist s0 preset < presetDist s0 q) l1
                  /\ Forall (fun q => presetDist s0 preset <= presetDist s0 q) l2
                  /\ (forall (q : Preset.t) (k : Z),
                         In q (presets s0) ->
                         hypot (wrapAngle (currentYaw s0 - Preset.yaw preset))
                               (currentPitch s0 - Preset.pitch preset)
                         <= hypot (currentYaw s0 - Preset.yaw q + IZR k * (PI * 2))
                                  (currentPitch s0 - Preset.pitch q))
                  /\ findNearestPreset s0 = Some preset
                  /\ snap s1
                     = mkSnap true (currentYaw s0) (currentPitch s0)
                         (Preset.yaw preset) (Preset.pitch preset) now0 450
            end).
Proof.
  intros Hr Hempty Hne Hup pressed released.
  split; [| split].
  - destruct (two_down_tracked s down1 down2 Hr Hempty Hne)
      as (Hrp & Hpp & Hdp & Hap).
    fold pressed in Hrp, Hpp, Hdp, Hap.
    destruct (onPointerUp_fields up now pressed Hrp) as (Hp & _ & Hd & _ & Hs).
    fold released in Hp, Hd, Hs.
    assert (Hsize : JsMap.size (JsMap.delete (pointerId up) (pointers pressed)) = 1%nat).
    { rewrite Hpp. simpl. destruct Hup as [-> | ->].
      - rewrite Z.eqb_refl. reflexivity.
      - assert (Hneq : Z.eqb (pointerId down2) (pointerId down1) = false)
          by (apply Z.eqb_neq; congruence).
        rewrite Hneq, Z.eqb_refl. reflexivity. }
    rewrite Hsize in Hd, Hs. simpl in Hd, Hs.
    rewrite Hp, Hd, Hs, Hsize, Hpp, Hdp, Hap. auto.
  - intros s0 event now0 Hkeep.
    destruct (renderer s0) eqn:Hr0;
      [| now rewrite onPointerUp_no_renderer].
    destruct (onPointerUp_fields event now0 s0 Hr0) as (_ & _ & _ & _ & Hs).
    rewrite Hs. destruct Hkeep as [Hsize | Hdrag].
    + destruct (JsMap.size (JsMap.delete (pointerId event) (pointers s0)));
        [congruence | reflexivity].
    + rewrite Hdrag, andb_false_r. reflexivity.
  - intros s0 event now0 Hr0 Hsize Hdrag s1.
    destruct (onPointerUp_fields event now0 s0 Hr0) as (Hp & _ & Hd & Hc & Hs).
    fold s1 in Hp, Hd, Hc, Hs.
    rewrite Hsize, Hdrag in Hd, Hc, Hs. simpl in Hd, Hc, Hs.
    split.
    { rewrite Hp. destruct (JsMap.delete (pointerId event) (pointers s0));
        [reflexivity | discriminate]. }
    split; [exact Hd |]. split; [exact Hc |].
    pose proof (findNearestPreset_spec s0) as Hspec.
    destruct (findNearestPreset s0) as [preset |].
    + destruct Hspec as (l1 & l2 & Hl & Hbefore & Hafter).
      assert (Hleast : forall q, In q (presets s0) -> presetDist s0 preset <= presetDist s0 q).
      { intros q Hq. rewrite Hl in Hq. apply in_app_or in Hq as [Hq | [<- | Hq]].
        - left. exact (proj1 (List.Forall_forall _ _) Hbefore q Hq).
        - lra.
        - exact (proj1 (List.Forall_forall _ _) Hafter q Hq). }
      destruct (presets s0) eqn:Hps; [destruct l1; discriminate |].
      exists preset, l1, l2.
      repeat split; try assumption.
      intros q k Hq.
      apply Rle_trans with (presetDist s0 q);
        [apply Hleast; exact Hq | apply presetDist_least_turn].
    + rewrite Hspec. exact Hs.
Qed.

Lemma pointer_release_snap_witness :
  JsMap.size
    (pointers
       (onPointerUp (mkPointerEvent 1 0 0) 0
          (onPointerDown (mkPointerEvent 2 10 0)
             (onPointerDown (mkPointerEvent 1 0 0) (constructor true "cube")))))
  = 1%nat.
Proof.
  assert (Hr : renderer (constructor true "cube") = true) by (vm_compute; reflexivity).
  assert (Hempty : pointers (constructor true "cube") = []) by (vm_compute; reflexivity).
  assert (Hne : pointerId (mkPointerEvent 1 0 0) <> pointerId (mkPointerEvent 2 10 0))
    by (simpl; lia).
  pose proof (pointer_release_snap (constructor true "cube")
                (mkPointerEvent 1 0 0) (mkPointerEvent 2 10 0) (mkPointerEvent 1 0 0) 0
                Hr Hempty Hne (or_introl eq_refl)) as [(_ & Hone & _) _].
  exact Hone.
Defined.

(** ** Orientation under each mutation *)

Lemma updateModelRotation_orientation (s : State) :
  currentYaw (updateModelRotation s) = currentYaw s
  /\ currentPitch (updateModelRotation s) = currentPitch s.
Proof. unfold updateModelRotation. destruct (modelGroup s); simpl; auto. Qed.



Lemma onWheel_orientation (event : WheelEvent) (s : State) :
  currentYaw (onWheel event s) = currentYaw s
  /\ currentPitch (onWheel event s) = currentPitch s.
Proof.
  unfold onWheel. destruct (zoomEnabled s); simpl; [| auto].
  apply updateDistance_orientation.
Qed.


(** ** Variants *)

Lemma Forall2_map_self {A : Type} (P : A -> A -> Prop) (f : A -> A) (l : list A) :
  (forall a, P a (f a)) -> Forall2 P l (map f l).
Proof. intros Hf. induction l; simpl; constructor; auto. Qed.

Lemma map_has_true {V : Type} (m : gmap string V) (k : string) (v : V) :
  m !! k = Some v -> map_has m k = true.
Proof. intros Hk. unfold map_has. now rewrite Hk. Qed.

Lemma map_has_false {V : Type} (m : gmap string V) (k : string) :
  m !! k = None -> map_has m k = false.
Proof. intros Hk. unfold map_has. now rewrite Hk. Qed.

Lemma length_zero_empty (v : string) : Nat.eqb (String.length v) 0 = true <-> v = ""%string.
Proof. destruct v; simpl; split; intros; congruence. Qed.

Lemma nonblank_length (v : string) : v <> ""%string -> Nat.eqb (String.length v) 0 = false.
Proof. destruct v; simpl; intros; congruence. Qed.

Lemma restoreOriginalMaterials_nodes (s : State) (g : Group) :
  modelGroup s = Some g ->
  exists g',
    modelGroup (restoreOriginalMaterials s) = Some g'
    /\ Forall2 (node_updated (original_or_current (originalMaterials s)))
         (nodes g) (nodes g').
Proof.
  intros Hg. unfold restoreOriginalMaterials. rewrite Hg. simpl.
  eexists. split; [reflexivity |]. simpl.
  apply Forall2_map_self. intros node.
  unfold node_updated, original_or_current.
  destruct (material node) eqn:Hm; [| auto].
  destruct (originalMaterials s !! uuid node); simpl; auto.
Qed.

Lemma applyVariantFromKHR_nodes (s : State) (g : Group) (v : string)
      (variantMap : gmap string Material) :
  modelGroup s = Some g ->
  variantMaterialsKHR s !! v = Some variantMap ->
  exists g',
    modelGroup (applyVariantFromKHR v s) = Some g'
    /\ Forall2 (node_updated (substitute_or_original variantMap (originalMaterials s)))
         (nodes g) (nodes g').
Proof.
  intros Hg Hv. unfold applyVariantFromKHR. rewrite Hg, Hv. simpl.
  eexists. split; [reflexivity |]. simpl.
  apply Forall2_map_self. intros node.
  unfold node_updated, substitute_or_original.
  destruct (material node) eqn:Hm; [| auto].
  destruct (variantMap !! uuid node); simpl; [auto |].
  destruct (originalMaterials s !! uuid node); simpl; auto.
Qed.

Lemma applyVariantFromName_nodes (s : State) (g : Group) (v : string)
      (variantMap : gmap string Material) :
  modelGroup s = Some g ->
  variantMaterialsByName s !! v = Some variantMap ->
  exists g',
    modelGroup (applyVariantFromName v s) = Some g'
    /\ Forall2 (node_updated (substitute_or_current variantMap)) (nodes g) (nodes g').
Proof.
  intros Hg Hv. unfold applyVariantFromName. rewrite Hg, Hv. simpl.
  eexists. split; [reflexivity |]. simpl.
  apply Forall2_map_self. intros node.
  unfold node_updated, substitute_or_current.
  destruct (material node) eqn:Hm; [| auto].
  destruct (variantMap !! uuid node); simpl; auto.
Qed.

(** C2 (as the code has it): [setVariant] looks the tables up under the
    trimmed name.  With a model present and a non-blank trimmed name, a
    trimmed name that is a key of the structured table gives every mesh node
    the table's substitute when there is one for the node and the node's
    captured original otherwise; a trimmed name found only in the
    naming-convention table gives the substitute when there is one and
    leaves the node's current material otherwise.  Nodes that are not meshes
    are untouched, and the trimmed name becomes the current variant in both
    cases. *)
Theorem setVariant_asymmetric_fallback (s : State) (name : string) (g : Group) :
  modelGroup s = Some g ->
  trim name <> ""%string ->
  (forall variantMap : gmap string Material,
      variantMaterialsKHR s !! trim name = Some variantMap ->
      currentVariant (setVariant name s) = Some (trim name)
      /\ exists g',
          modelGroup (setVariant name s) = Some g'
          /\ Forall2
               (node_updated (substitute_or_original variantMap (originalMaterials s)))
               (nodes g) (nodes g'))
  /\ (forall variantMap : gmap string Material,
         variantMaterialsKHR s !! trim name = None ->
         variantMaterialsByName s !! trim name = Some variantMap ->
         currentVariant (setVariant name s) = Some (trim name)
         /\ exists g',
             modelGroup (setVariant name s) = Some g'
             /\ Forall2 (node_updated (substitute_or_current variantMap))
                  (nodes g) (nodes g')).
Proof.
  intros Hg Hname. unfold setVariant. rewrite Hg.
  rewrite (nonblank_length _ Hname).
  split.
  - intros variantMap Hkhr. rewrite (map_has_true _ _ _ Hkhr).
    split; [reflexivity |]. simpl.
    apply applyVariantFromKHR_nodes; assumption.
  - intros variantMap Hkhr Hbyname.
    rewrite (map_has_false _ _ Hkhr), (map_has_true _ _ _ Hbyname).
    split; [reflexivity |]. simpl.
    apply applyVariantFromName_nodes; assumption.
Qed.

Lemma setVariant_asymmetric_fallback_witness :
  currentVariant (setVariant " Gold " gold_model) = Some "Gold"%string
  /\ option_map nodes (modelGroup (setVariant " Gold " gold_model))
     = Some [mkObject3D "node" (Some (Single M1))].
Proof.
  assert (Hname : trim " Gold " <> ""%string) by (vm_compute; discriminate).
  destruct (setVariant_asymmetric_fallback gold_model " Gold "
              (mkGroup 0 0 [mkObject3D "node" (Some (Single M0))]) eq_refl Hname)
    as [Hkhr _].
  destruct (Hkhr {[ "node"%string := M1 ]} eq_refl) as [Hcur _].
  split; [exact Hcur | reflexivity].
Defined.

(** C2 fails for a name that is in the structured table as it stands: the
    asset's variant "Gold " is registered under that very name, with [M1]
    for the mesh, but [setVariant "Gold "] looks up "Gold", finds nothing,
    leaves the mesh with [M0] and no variant current. *)
Lemma setVariant_misses_untrimmed_key :
  In (mkTask "Gold " "node" 0) (snd (setSrc_loaded spaced_asset (constructor true "cube")))
  /\ entry (variantMaterialsKHR spaced_model) "Gold " "node" = Some M1
  /\ currentVariant (setVariant "Gold " spaced_model) = None
  /\ option_map nodes (modelGroup (setVariant "Gold " spaced_model))
     = Some [mkObject3D "node" (Some (Single M0))].
Proof.
  split; [vm_compute; left; reflexivity |].
  repeat split; vm_compute; reflexivity.
Qed.

(** C6 (with the guard the code has): when a model group is present,
    [setVariant] with a name that is blank after trimming, or whose trimmed
    form is in neither table, clears the current variant (so [getState]
    reports none) and gives every mesh node its captured original material;
    being a total function it raises nothing.  In the one-node model with
    original [M0] and the structured entry "Gold" to [M1], "Gold" assigns
    [M1], and both the empty name and "Unknown" bring [M0] back.  A name
    made of a no-break space and a space is blank; a no-break space in front
    of "Gold" is trimmed away and "Gold" is selected. *)
Theorem setVariant_unset_restores (s : State) (name : string) (g : Group) :
  modelGroup s = Some g ->
  trim name = ""%string
  \/ (variantMaterialsKHR s !! trim name = None
      /\ variantMaterialsByName s !! trim name = None) ->
  (currentVariant (setVariant name s) = None
   /\ state_variant (getState (setVariant name s)) = None
   /\ exists g',
       modelGroup (setVariant name s) = Some g'
       /\ Forall2 (node_updated (original_or_current (originalMaterials s)))
            (nodes g) (nodes g'))
  /\ option_map nodes (modelGroup (setVariant "Gold" gold_model))
     = Some [mkObject3D "node" (Some (Single M1))]
  /\ option_map nodes (modelGroup (setVariant "" (setVariant "Gold" gold_model)))
     = Some [mkObject3D "node" (Some (Single M0))]
  /\ option_map nodes (modelGroup (setVariant "Unknown" (setVariant "Gold" gold_model)))
     = Some [mkObject3D "node" (Some (Single M0))]
  /\ currentVariant (setVariant "Gold" gold_model) = Some "Gold"%string
  /\ currentVariant (setVariant "" (setVariant "Gold" gold_model)) = None
  /\ currentVariant (setVariant "Unknown" (setVariant "Gold" gold_model)) = None
  /\ currentVariant (setVariant (String NBSP " ") (setVariant "Gold" gold_model)) = None
  /\ currentVariant (setVariant (String NBSP "Gold") gold_model) = Some "Gold"%string.
Proof.
  intros Hg Hunset.
  split; [| repeat split; vm_compute; reflexivity].
  assert (Hrestore :
            setVariant name s = restoreOriginalMaterials (set_currentVariant None s)).
  { unfold setVariant. rewrite Hg. destruct Hunset as [Hblank | [Hkhr Hbyname]].
    - rewrite Hblank. reflexivity.
    - rewrite (map_has_false _ _ Hkhr), (map_has_false _ _ Hbyname).
      destruct (Nat.eqb (String.length (trim name)) 0); reflexivity. }
  rewrite Hrestore.
  destruct (restoreOriginalMaterials_nodes (set_currentVariant None s) g Hg)
    as (g' & Hg' & Hnodes).
  assert (Hcur : currentVariant (restoreOriginalMaterials (set_currentVariant None s)) = None).
  { unfold restoreOriginalMaterials. simpl. rewrite Hg. reflexivity. }
  split; [exact Hcur |]. split; [exact Hcur |].
  exists g'. split; [exact Hg' | exact Hnodes].
Qed.

Lemma setVariant_unset_restores_witness :
  currentVariant (setVariant "  " (setVariant "Gold" gold_model)) = None.
Proof.
  assert (Hg : modelGroup (setVariant "Gold" gold_model)
               = Some (mkGroup 0 0 [mkObject3D "node" (Some (Single M1))]))
    by reflexivity.
  assert (Hblank : trim "  " = ""%string) by reflexivity.
  pose proof (setVariant_unset_restores (setVariant "Gold" gold_model) "  " _
                Hg (or_introl Hblank)) as [[Hcur _] _].
  exact Hcur.
Defined.

(** C6 fails once the model group is gone: after "Gold" was selected and
    the viewer disposed, [setVariant ""] returns at its first line and
    [getState] still reports "Gold". *)
Lemma setVariant_blank_after_dispose_keeps_marker :
  state_variant (getState (setVariant "" (dispose (setVariant "Gold" gold_model))))
  = Some "Gold"%string.
Proof. reflexivity. Qed.

(** C10: without a model group [setVariant] returns the state it was given,
    whatever the name, the blank one included; so the variant reported by
    [getState] and both variant tables are the same as before. *)
Theorem setVariant_without_model (s : State) (name : string) :
  modelGroup s = None ->
  setVariant name s = s
  /\ setVariant "" s = s
  /\ state_variant (getState (setVariant name s)) = state_variant (getState s)
  /\ variantMaterialsKHR (setVariant name s) = variantMaterialsKHR s
  /\ variantMaterialsByName (setVariant name s) = variantMaterialsByName s.
Proof.
  intros Hnone.
  assert (Hsame : forall n, setVariant n s = s)
    by (intros n; unfold setVariant; now rewrite Hnone).
  rewrite !Hsame. auto.
Qed.

Lemma setVariant_without_model_witness :
  setVariant "Gold" (dispose (setVariant "Gold" gold_model))
  = dispose (setVariant "Gold" gold_model).
Proof.
  assert (Hnone : modelGroup (dispose (setVariant "Gold" gold_model)) = None)
    by (vm_compute; reflexivity).
  pose proof (setVariant_without_model _ "Gold" Hnone) as [Hsame _].
  exact Hsame.
Defined.

(** ** Disposal *)

Lemma constructor_loop_consistent (webgl : bool) (mesh_uuid : string) :
  loop_consistent (constructor webgl mesh_uuid).
Proof. destruct webgl; vm_compute; reflexivity. Qed.

Lemma updateSnap_loop (now : R) (s : State) :
  frames (updateSnap now s) = frames s
  /\ next_frame (updateSnap now s) = next_frame s
  /\ animationHandle (updateSnap now s) = animationHandle s.
Proof.
  unfold updateSnap. destruct (active (snap s)); simpl; [| auto].
  unfold updateModelRotation. simpl.
  destruct (modelGroup s); simpl; destruct (Rge_dec _ 1); simpl; auto.
Qed.

(** Running a frame keeps the loop consistent: the callback re-schedules
    itself once. *)
Lemma runFrame_loop_consistent (handle : nat) (now : R) (s : State) :
  loop_consistent s -> loop_consistent (runFrame handle now s).
Proof.
  unfold loop_consistent, runFrame. intros Hs.
  destruct (existsb (Nat.eqb handle) (frames s)) eqn:Hin; [| exact Hs].
  unfold render, requestAnimationFrame. simpl.
  destruct (updateSnap_loop now (cancelAnimationFrame handle s)) as (Hf & Hn & _).
  rewrite Hf, Hn. simpl. rewrite Hs in *.
  destruct (animationHandle s) as [h |]; simpl in *; [| discriminate].
  rewrite orb_false_r in Hin. apply Nat.eqb_eq in Hin. subst h.
  rewrite Nat.eqb_refl. reflexivity.
Qed.

Lemma dispose_twice (s : State) : dispose (dispose s) = dispose s.
Proof.
  destruct s as [? ? ? ? ? ? handle]. destruct handle; vm_compute; reflexivity.
Qed.

Lemma dispose_frames (s : State) :
  loop_consistent s -> frames (dispose s) = [].
Proof.
  unfold loop_consistent, dispose, stopRenderLoop. intros Hs.
  destruct (animationHandle s) as [h |]; simpl; rewrite Hs; simpl;
    [rewrite Nat.eqb_refl |]; reflexivity.
Qed.

(** C9: disposing twice is the same as disposing once, in every state.
    After either call the viewer remembers no frame handle, and listeners,
    renderer, scene, camera and model group are detached.  For a consistent
    render loop the browser holds no frame request after either call, so no
    frame can run.  [dispose] is a total function, so neither call fails. *)
Theorem dispose_idempotent (s : State) :
  dispose (dispose s) = dispose s
  /\ animationHandle (dispose s) = None
  /\ animationHandle (dispose (dispose s)) = None
  /\ listeners (dispose s) = false
  /\ resizeObserver (dispose s) = false
  /\ renderer (dispose s) = false
  /\ scene (dispose s) = false
  /\ camera (dispose s) = false
  /\ modelGroup (dispose s) = None
  /\ (loop_consistent s ->
      frames (dispose s) = []
      /\ frames (dispose (dispose s)) = []
      /\ forall (handle : nat) (now : R),
          runFrame handle now (dispose s) = dispose s
          /\ runFrame handle now (dispose (dispose s)) = dispose (dispose s)).
Proof.
  rewrite !dispose_twice.
  assert (Hhandle : animationHandle (dispose s) = None).
  { unfold dispose, stopRenderLoop.
    destruct (animationHandle s) eqn:Hh; simpl; [reflexivity | exact Hh]. }
  split; [reflexivity |]. split; [exact Hhandle |]. split; [exact Hhandle |].
  do 6 (split; [reflexivity |]).
  intros Hs. pose proof (dispose_frames s Hs) as Hframes.
  split; [exact Hframes |]. split; [exact Hframes |].
  intros handle now. unfold runFrame. rewrite Hframes. split; reflexivity.
Qed.

Lemma dispose_idempotent_witness :
  frames (dispose (constructor true "cube")) = []
  /\ dispose (dispose (constructor true "cube")) = dispose (constructor true "cube").
Proof.
  assert (Hloop : loop_consistent (constructor true "cube"))
    by (vm_compute; reflexivity).
  pose proof (dispose_idempotent (constructor true "cube"))
    as (Htwice & _ & _ & _ & _ & _ & _ & _ & _ & Hstopped).
  destruct (Hstopped Hloop) as (Hframes & _).
  split; [exact Hframes | exact Htwice].
Defined.

(** ** What every step of a session keeps *)

Lemma Invariant_core (s s' : State) : core s = core s' -> Invariant s -> Invariant s'.
Proof.
  unfold core. intros Hcore Hinv. injection Hcore as Hr Hs Hc Hz Ho Hh Hp Hd Hg Hpt Hdu Hl Hcd Hf Hn.
  destruct Hinv. unfold loop_consistent in *.
  constructor; unfold loop_consistent;
    rewrite <- ?Hr, <- ?Hs, <- ?Hc, <- ?Hz, <- ?Ho, <- ?Hh, <- ?Hp, <- ?Hd, <- ?Hg,
      <- ?Hpt, <- ?Hdu, <- ?Hl, <- ?Hcd, <- ?Hf, <- ?Hn; assumption.
Qed.

Lemma constructor_core (webgl : bool) (mesh_uuid : string) :
  core (constructor webgl mesh_uuid)
  = (webgl, webgl, webgl, (if webgl then DEFAULT_DISTANCE else 0), webgl,
     (if webgl then Some 0%nat else None), Presets.DEFAULT_PRESETS, DEFAULT_DISTANCE,
     false, [], 450, webgl, false, (if webgl then [0%nat] else []),
     (if webgl then 1%nat else 0%nat)).
Proof. destruct webgl; vm_compute; reflexivity. Qed.

Lemma constructor_invariant (webgl : bool) (mesh_uuid : string) :
  Invariant (constructor webgl mesh_uuid).
Proof.
  pose proof (constructor_core webgl mesh_uuid) as Hcore. unfold core in Hcore.
  injection Hcore as Hr Hs Hc Hz Ho Hh Hp Hd Hg Hpt Hdu Hl Hcd Hf Hn.
  constructor; unfold loop_consistent;
    rewrite ?Hr, ?Hs, ?Hc, ?Hz, ?Ho, ?Hh, ?Hp, ?Hd, ?Hg, ?Hpt, ?Hdu, ?Hl, ?Hcd, ?Hf, ?Hn.
  - unfold MIN_DISTANCE, DEFAULT_DISTANCE, MAX_DISTANCE. lra.
  - intros ->. reflexivity.
  - reflexivity.
  - discriminate.
  - split; [discriminate | congruence].
  - reflexivity.
  - constructor.
  - destruct webgl; reflexivity.
  - destruct webgl; split; congruence.
  - intros handle. destruct webgl; simpl; [intros [<- | []]; lia | tauto].
  - reflexivity.
  - reflexivity.
  - reflexivity.
  - reflexivity.
Qed.

(** JsMap facts *)
Lemma set_keys {V : Type} (k : Z) (v : V) (m : list (Z * V)) :
  map fst (JsMap.set k v m)
  = match JsMap.get k m with
    | Some _ => map fst m
    | None => map fst m ++ [k]
    end.
Proof.
  induction m as [| [k0 v0] m IH]; simpl; [reflexivity |].
  destruct (Z.eqb k k0) eqn:Hk; simpl.
  - apply Z.eqb_eq in Hk. now subst.
  - rewrite IH. destruct (JsMap.get k m); reflexivity.
Qed.

Lemma get_none_keys {V : Type} (k : Z) (m : list (Z * V)) :
  JsMap.get k m = None <-> ~ In k (map fst m).
Proof.
  induction m as [| [k0 v0] m IH]; simpl; [tauto |].
  destruct (Z.eqb k k0) eqn:Hk.
  - apply Z.eqb_eq in Hk. subst. split; [discriminate | tauto].
  - apply Z.eqb_neq in Hk. rewrite IH. split; [intros H [E | I]; [congruence | tauto] | tauto].
Qed.

Lemma set_keys_nodup {V : Type} (k : Z) (v : V) (m : list (Z * V)) :
  NoDup (map fst m) -> NoDup (map fst (JsMap.set k v m)).
Proof.
  intros Hm. rewrite set_keys. destruct (JsMap.get k m) eqn:Hget; [exact Hm |].
  apply get_none_keys in Hget.
  apply NoDup_app; repeat split; try assumption.
  - intros x Hx Hk. apply list_elem_of_In in Hx. apply list_elem_of_In in Hk.
    destruct Hk as [<- | []]. contradiction.
  - apply NoDup_singleton.
Qed.

Lemma delete_keys_incl {V : Type} (k : Z) (m : list (Z * V)) (x : Z) :
  In x (map fst (JsMap.delete k m)) -> In x (map fst m).
Proof.
  induction m as [| [k0 v0] m IH]; simpl; [tauto |].
  destruct (Z.eqb k k0); simpl; tauto.
Qed.

Lemma delete_keys_nodup {V : Type} (k : Z) (m : list (Z * V)) :
  NoDup (map fst m) -> NoDup (map fst (JsMap.delete k m)).
Proof.
  induction m as [| [k0 v0] m IH]; simpl; [auto |].
  intros Hm. apply NoDup_cons in Hm as [Hin Hm].
  destruct (Z.eqb k k0); simpl; [exact Hm |].
  apply NoDup_cons. split; [| auto].
  intros Hx. apply Hin. apply list_elem_of_In. apply list_elem_of_In in Hx.
  eapply delete_keys_incl. exact Hx.
Qed.

Lemma set_nonempty {V : Type} (k : Z) (v : V) (m : list (Z * V)) : JsMap.set k v m <> [].
Proof. destruct m as [| [k0 v0] m]; simpl; [| destruct (Z.eqb k k0)]; discriminate. Qed.

Lemma set_size {V : Type} (k : Z) (v : V) (m : list (Z * V)) :
  JsMap.size (JsMap.set k v m)
  = match JsMap.get k m with Some _ => JsMap.size m | None => S (JsMap.size m) end.
Proof.
  unfold JsMap.size. induction m as [| [k0 v0] m IH]; simpl; [reflexivity |].
  destruct (Z.eqb k k0); simpl; [reflexivity |].
  rewrite IH. destruct (JsMap.get k m); reflexivity.
Qed.

(** Steps outside the core *)
Lemma setVariant_core (name : string) (s : State) : core (setVariant name s) = core s.
Proof.
  unfold setVariant, applyVariantFromKHR, applyVariantFromName, restoreOriginalMaterials.
  destruct (modelGroup s) eqn:Hg; [| reflexivity].
  destruct (Nat.eqb _ 0); simpl; rewrite ?Hg; [reflexivity |].
  destruct (map_has (variantMaterialsKHR s) (trim name)); simpl.
  { rewrite ?Hg. destruct (variantMaterialsKHR s !! trim name); reflexivity. }
  destruct (map_has (variantMaterialsByName s) (trim name)); simpl; rewrite ?Hg.
  { destruct (variantMaterialsByName s !! trim name); reflexivity. }
  reflexivity.
Qed.

Lemma clearModel_core (s : State) : core (clearModel s) = core s.
Proof.
  unfold clearModel. destruct (scene s); simpl; [| reflexivity].
  destruct (modelGroup s); reflexivity.
Qed.

Lemma loadDefaultCube_core (mesh_uuid : string) (s : State) :
  core (loadDefaultCube mesh_uuid s) = core s.
Proof.
  unfold loadDefaultCube. destruct (scene s) eqn:Hs; [| reflexivity].
  transitivity (core (clearModel s)); [reflexivity | apply clearModel_core].
Qed.

Lemma setSrc_begin_core (src : option string) (mesh_uuid : string) (s : State) :
  core (fst (setSrc_begin src mesh_uuid s)) = core s.
Proof.
  unfold setSrc_begin.
  destruct (negb (scene s) || negb (camera s) || negb (renderer s)); [reflexivity |].
  destruct src as [url |]; [destruct (Nat.eqb _ 0) |]; simpl;
    try apply loadDefaultCube_core; reflexivity.
Qed.

Lemma visitNode_core (s : State) (node : SceneNode) : core (visitNode s node) = core s.
Proof.
  unfold visitNode. destruct (material (object node)) as [[m | ms] |]; try reflexivity.
  destruct (extractVariantName (material_name m)) as [v |]; [| reflexivity].
  destruct (Nat.eqb (String.length v) 0); reflexivity.
Qed.

Lemma prepareVariants_core (gltf : Gltf) (s : State) :
  core (fst (prepareVariants gltf s)) = core s.
Proof.
  unfold prepareVariants. simpl.
  set (cleared := set_originalMaterials _ _).
  assert (Hc : core cleared = core s) by reflexivity.
  clearbody cleared. revert cleared Hc.
  induction (gltf_scene gltf) as [| node nodes IH]; intros cleared Hc; simpl; [exact Hc |].
  apply IH. now rewrite visitNode_core.
Qed.

Lemma setSrc_loaded_core (gltf : Gltf) (s : State) :
  core (fst (setSrc_loaded gltf s)) = core s.
Proof.
  unfold setSrc_loaded.
  set (s2 := set_modelGroup (Some (mkGroup 0 0 [])) (clearModel s)).
  assert (H2 : core s2 = core s) by (rewrite <- (clearModel_core s); reflexivity).
  destruct (scene s2); [| exact H2].
  etransitivity; [apply prepareVariants_core |].
  rewrite <- (clearModel_core s). reflexivity.
Qed.

Lemma resolved_core (task : Task) (m : Material) (s : State) :
  core (resolved task m s) = core s.
Proof. reflexivity. Qed.

Lemma setPresets_invariant (ps : list Preset.t) (s : State) :
  Invariant s -> Invariant (setPresets ps s).
Proof.
  intros [].
  constructor; try assumption.
  unfold setPresets. simpl. destruct ps; simpl; [discriminate | discriminate].
Qed.

Lemma setPreset_invariant (name : string) (now : R) (s : State) :
  Invariant s -> Invariant (setPreset name now s).
Proof.
  intros Hinv. unfold setPreset.
  destruct (List.find _ (presets s)); [| exact Hinv].
  destruct Hinv. constructor; try assumption. reflexivity.
Qed.

Lemma Invariant_zoom (s : State) (d z : R) :
  Invariant s ->
  MIN_DISTANCE <= d <= MAX_DISTANCE ->
  (camera s = true -> z = d) ->
  Invariant (set_camera_z z (set_distance d s)).
Proof. intros [] Hd Hz. constructor; assumption. Qed.

Lemma updateDistance_invariant (next : R) (s : State) :
  Invariant s -> Invariant (updateDistance next s).
Proof.
  intros Hinv.
  assert (Hrange : MIN_DISTANCE <= clamp next MIN_DISTANCE MAX_DISTANCE <= MAX_DISTANCE)
    by (apply clamp_range; unfold MIN_DISTANCE, MAX_DISTANCE; lra).
  unfold updateDistance. simpl. destruct (camera s) eqn:Hc.
  - apply (Invariant_core
             (set_camera_z (clamp next MIN_DISTANCE MAX_DISTANCE)
                (set_distance (clamp next MIN_DISTANCE MAX_DISTANCE) s)));
      [reflexivity | apply Invariant_zoom; auto].
  - apply (Invariant_core
             (set_camera_z (camera_z s)
                (set_distance (clamp next MIN_DISTANCE MAX_DISTANCE) s)));
      [reflexivity | apply Invariant_zoom; auto; congruence].
Qed.

Lemma onWheel_invariant (event : WheelEvent) (s : State) :
  Invariant s -> Invariant (onWheel event s).
Proof.
  intros Hinv. unfold onWheel. destruct (zoomEnabled s); simpl; [| exact Hinv].
  apply updateDistance_invariant, Hinv.
Qed.

Lemma Invariant_retrack (s : State) (k : Z) (v prev : Point.t) :
  Invariant s ->
  JsMap.get k (pointers s) = Some prev ->
  Invariant (set_pointers (JsMap.set k v (pointers s)) s).
Proof.
  intros [] Hget. constructor; try assumption; simpl.
  - rewrite inv_dragging0. split; intros _; [apply set_nonempty |].
    intros Hnil. rewrite Hnil in Hget. discriminate.
  - rewrite set_keys, Hget. assumption.
Qed.

Lemma updateModelRotation_core (s : State) : core (updateModelRotation s) = core s.
Proof. unfold updateModelRotation. destruct (modelGroup s); reflexivity. Qed.

Lemma pinch_step_invariant (s : State) :
  Invariant s ->
  Invariant
    (if Nat.eqb (JsMap.size (pointers s)) 2 && zoomEnabled s
     then match JsMap.values (pointers s) with
          | p0 :: p1 :: _ =>
              let nextDistance := distanceBetween p0 p1 in
              let delta := nextDistance - pinchDistance s in
              if Rgt_dec (Rabs delta) 0.5
              then set_pinchDistance nextDistance
                     (updateDistance (distance s - delta * 0.01) s)
              else s
          | _ => s
          end
     else s).
Proof.
  intros Hinv. destruct (_ && _); [| exact Hinv].
  destruct (JsMap.values (pointers s)) as [| p0 [| p1 rest]]; try exact Hinv.
  cbv zeta. destruct (Rgt_dec _ 0.5); [| exact Hinv].
  eapply Invariant_core;
    [| exact (updateDistance_invariant
                (distance s - (distanceBetween p0 p1 - pinchDistance s) * 0.01) s Hinv)].
  reflexivity.
Qed.

Lemma onPointerMove_invariant (event : PointerEvent) (s : State) :
  Invariant s -> Invariant (onPointerMove event s).
Proof.
  intros Hinv. unfold onPointerMove.
  destruct (renderer s); simpl negb; cbv iota; [| exact Hinv].
  destruct (JsMap.get (pointerId event) (pointers s)) as [prev |] eqn:Hget; [| exact Hinv].
  cbv zeta.
  pose proof (Invariant_retrack s (pointerId event)
                (Point.mk (clientX event) (clientY event)) prev Hinv Hget) as H1.
  apply pinch_step_invariant.
  destruct (_ && _); [| exact H1].
  eapply Invariant_core; [| exact H1].
  symmetry. etransitivity; [apply updateModelRotation_core | reflexivity].
Qed.

Lemma onPointerDown_invariant (event : PointerEvent) (s : State) :
  Invariant s -> Invariant (onPointerDown event s).
Proof.
  intros Hinv. unfold onPointerDown.
  destruct (renderer s) eqn:Hr; simpl negb; cbv iota; [| exact Hinv].
  cbv zeta.
  set (tracked := JsMap.set (pointerId event)
                    (Point.mk (clientX event) (clientY event)) (pointers s)).
  assert (Hstep : Invariant
            (if Nat.eqb (JsMap.size (pointers (set_pointers tracked s))) 1
             then set_container_dragging true
                    (set_hint_hidden true
                       (set_snap (set_active false (snap (set_pointers tracked s)))
                          (set_dragging true (set_pointers tracked s))))
             else set_pointers tracked s)).
  { destruct Hinv. simpl pointers.
    assert (Hkeys : NoDup (map fst tracked)) by (apply set_keys_nodup; assumption).
    assert (Hne : tracked <> []) by apply set_nonempty.
    destruct (Nat.eqb (JsMap.size tracked) 1) eqn:Hone.
    - constructor; simpl; try assumption; try reflexivity.
      split; [intros _; exact Hne | reflexivity].
    - constructor; simpl; try assumption; try reflexivity.
      rewrite inv_dragging0. split; [intros _; exact Hne |].
      intros _ Hnil. unfold tracked in Hone. rewrite set_size, Hnil in Hone.
      simpl in Hone. discriminate. }
  match goal with
  | Hstep : Invariant ?t |- _ => remember t as s2 eqn:Hs2; clear Hs2
  end.
  destruct (Nat.eqb (JsMap.size (pointers s2)) 2); [| exact Hstep].
  destruct (JsMap.values (pointers s2)) as [| p0 [| p1 rest]]; try exact Hstep.
  eapply Invariant_core; [| exact Hstep]. reflexivity.
Qed.

Lemma onPointerUp_invariant (event : PointerEvent) (now : R) (s : State) :
  Invariant s -> Invariant (onPointerUp event now s).
Proof.
  intros Hinv. unfold onPointerUp.
  destruct (renderer s) eqn:Hr; simpl negb; cbv iota; [| exact Hinv].
  cbv zeta. simpl pointers. simpl dragging.
  set (tracked := JsMap.delete (pointerId event) (pointers s)).
  destruct Hinv.
  assert (Hkeys : NoDup (map fst tracked)) by (apply delete_keys_nodup; assumption).
  destruct (Nat.eqb (JsMap.size tracked) 0) eqn:Hzero; simpl andb.
  - assert (Hnil : tracked = []) by (destruct tracked; [reflexivity | discriminate]).
    destruct (dragging s) eqn:Hdrag.
    + destruct (findNearestPreset _);
        constructor; simpl; rewrite ?Hnil; try assumption; try reflexivity;
        try (split; [discriminate | congruence]); constructor.
    + constructor; simpl; rewrite ?Hnil, ?Hdrag; try assumption; try reflexivity;
        try (split; [discriminate | congruence]). constructor.
  - constructor; simpl; try assumption; try reflexivity.
    rewrite inv_dragging0. split.
    + intros _ Hnil. rewrite Hnil in Hzero. discriminate.
    + intros _ Hnil. unfold tracked in Hzero. rewrite Hnil in Hzero. discriminate.
Qed.

Lemma updateSnap_core (now : R) (s : State) : core (updateSnap now s) = core s.
Proof.
  unfold updateSnap. destruct (active (snap s)); simpl negb; cbv iota; [| reflexivity].
  cbv zeta. unfold updateModelRotation. simpl modelGroup.
  destruct (modelGroup s); destruct (Rge_dec _ 1); reflexivity.
Qed.

Lemma runFrame_invariant (handle : nat) (now : R) (s : State) :
  Invariant s -> Invariant (runFrame handle now s).
Proof.
  intros Hinv. unfold runFrame.
  destruct (existsb (Nat.eqb handle) (frames s)) eqn:Hin; [| exact Hinv].
  assert (Hpending : frames s = [handle] /\ animationHandle s = Some handle).
  { destruct Hinv. unfold loop_consistent in inv_loop0.
    destruct (animationHandle s) as [h |]; rewrite inv_loop0 in Hin; simpl in Hin;
      [| discriminate].
    rewrite orb_false_r in Hin. apply Nat.eqb_eq in Hin. subst h. auto. }
  destruct Hpending as [Hframes Hhandle].
  unfold render, requestAnimationFrame.
  set (cancelled := cancelAnimationFrame handle s).
  pose proof (updateSnap_core now cancelled) as Hcore. unfold core in Hcore.
  injection Hcore as Hr Hs Hc Hz Ho Hh Hp Hd Hg Hpt Hdu Hl Hcd Hf Hn.
  rewrite Hframes in Hf. simpl in Hf. rewrite Nat.eqb_refl in Hf. simpl in Hf.
  destruct Hinv.
  constructor; simpl; unfold loop_consistent; simpl;
    rewrite ?Hr, ?Hs, ?Hc, ?Hz, ?Ho, ?Hh, ?Hp, ?Hd, ?Hg, ?Hpt, ?Hdu, ?Hl, ?Hcd, ?Hf, ?Hn;
    simpl; try assumption; try reflexivity.
  - split; [discriminate |]. intros Hrf.
    apply inv_handle0 in Hrf. congruence.
  - intros h [<- | []]. lia.
Qed.

Lemma dispose_invariant (s : State) : Invariant s -> Invariant (dispose s).
Proof.
  intros Hinv.
  assert (Hframes : frames (dispose s) = []) by (apply dispose_frames, Hinv).
  assert (Hhandle : animationHandle (dispose s) = None).
  { unfold dispose, stopRenderLoop.
    destruct (animationHandle s) eqn:Hh; simpl; [reflexivity | exact Hh]. }
  assert (Hrest : distance (dispose s) = distance s
                  /\ camera_z (dispose s) = camera_z s
                  /\ snap (dispose s) = snap s
                  /\ presets (dispose s) = presets s
                  /\ dragging (dispose s) = dragging s
                  /\ pointers (dispose s) = pointers s
                  /\ container_dragging (dispose s) = container_dragging s
                  /\ next_frame (dispose s) = next_frame s
                  /\ renderer (dispose s) = false /\ scene (dispose s) = false
                  /\ camera (dispose s) = false /\ listeners (dispose s) = false
                  /\ resizeObserver (dispose s) = false).
  { unfold dispose, stopRenderLoop. destruct (animationHandle s); simpl; repeat split. }
  destruct Hrest as (Hd & Hz & Hsn & Hp & Hg & Hpt & Hcd & Hn & Hr & Hs & Hc & Hl & Ho).
  destruct Hinv.
  constructor; unfold loop_consistent;
    rewrite ?Hframes, ?Hhandle, ?Hd, ?Hz, ?Hsn, ?Hp, ?Hg, ?Hpt, ?Hcd, ?Hn, ?Hr, ?Hs, ?Hc,
      ?Hl, ?Ho; try assumption; try reflexivity.
  - discriminate.
  - tauto.
  - intros h [].
Qed.

Lemma perform_invariant (a : Action) (s : State) : Invariant s -> Invariant (perform a s).
Proof.
  intros Hinv. destruct a; simpl.
  - eapply Invariant_core; [| exact Hinv]. reflexivity.
  - apply setPresets_invariant, Hinv.
  - apply setPreset_invariant, Hinv.
  - eapply Invariant_core; [| exact Hinv]. symmetry. apply setVariant_core.
  - eapply Invariant_core; [| exact Hinv]. symmetry. apply setSrc_begin_core.
  - eapply Invariant_core; [| exact Hinv]. symmetry. apply setSrc_loaded_core.
  - eapply Invariant_core; [| exact Hinv]. reflexivity.
  - eapply Invariant_core; [| exact Hinv]. reflexivity.
  - destruct (listeners s); [apply onPointerDown_invariant |]; exact Hinv.
  - destruct (listeners s); [apply onPointerMove_invariant |]; exact Hinv.
  - destruct (listeners s); [apply onPointerUp_invariant |]; exact Hinv.
  - destruct (listeners s); [apply onWheel_invariant |]; exact Hinv.
  - apply runFrame_invariant, Hinv.
  - apply dispose_invariant, Hinv.
Qed.

Lemma run_invariant (actions : list Action) (s : State) :
  Invariant s -> Invariant (run actions s).
Proof.
  revert s. induction actions as [| a actions IH]; intros s Hinv; simpl; [exact Hinv |].
  apply IH, perform_invariant, Hinv.
Qed.

(** ** Whole turns *)

(** X1: [wrapAngle a] is a representative of [a] of least absolute value
    among all angles that differ from [a] by whole turns.  In particular it
    is never larger in absolute value than [a] itself, and its absolute
    value does not change when whole turns are added to [a]. *)
Theorem wrapped_delta_is_shortest (a : R) (k : Z) :
  Rabs (wrapAngle a) <= Rabs (a + IZR k * (PI * 2))
  /\ Rabs (wrapAngle a) <= Rabs a
  /\ Rabs (wrapAngle (a + IZR k * (PI * 2))) = Rabs (wrapAngle a).
Proof.
  split; [apply wrapAngle_abs_least |].
  split; [| apply wrapAngle_abs_turn].
  pose proof (wrapAngle_abs_least a 0) as H. simpl in H.
  now rewrite Rmult_0_l, Rplus_0_r in H.
Qed.

(** ** Snap transitions over time *)

Lemma clamp_monotone (x y lo hi : R) :
  lo <= hi -> x <= y -> clamp x lo hi <= clamp y lo hi.
Proof.
  intros Hle Hxy. unfold clamp, Rmin, Rmax.
  destruct (Rle_dec lo x); destruct (Rle_dec lo y);
    repeat match goal with |- context [Rle_dec ?a ?b] => destruct (Rle_dec a b) end; lra.
Qed.

Lemma snap_progress_monotone (now1 now2 start dur : R) :
  0 < dur -> now1 <= now2 ->
  clamp ((now1 - start) / dur) 0 1 <= clamp ((now2 - start) / dur) 0 1.
Proof.
  intros Hd Hn. apply clamp_monotone; [lra |].
  unfold Rdiv. apply Rmult_le_compat_r; [| lra].
  left. apply Rinv_0_lt_compat, Hd.
Qed.

Lemma updateSnap_snap_fields (now : R) (s : State) :
  startYaw (snap (updateSnap now s)) = startYaw (snap s)
  /\ startPitch (snap (updateSnap now s)) = startPitch (snap s)
  /\ targetYaw (snap (updateSnap now s)) = targetYaw (snap s)
  /\ targetPitch (snap (updateSnap now s)) = targetPitch (snap s)
  /\ startTime (snap (updateSnap now s)) = startTime (snap s)
  /\ duration (snap (updateSnap now s)) = duration (snap s).
Proof.
  unfold updateSnap. destruct (active (snap s)); simpl negb; cbv iota; [| auto 10].
  cbv zeta. unfold updateModelRotation. simpl modelGroup.
  destruct (modelGroup s); destruct (Rge_dec _ 1); simpl; auto 10.
Qed.

(** X3: while a transition of positive duration is active, a later tick is
    never farther from the target than an earlier one, in yaw and in pitch.
    The outcome of a tick does not depend on the ticks before it: two ticks
    in a row leave yaw, pitch and the active flag as the later tick alone
    does. *)
Theorem snap_ticks_compose (s : State) (now1 now2 : R) :
  active (snap s) = true ->
  0 < duration (snap s) ->
  now1 <= now2 ->
  (Rabs (targetYaw (snap s) - currentYaw (updateSnap now2 s))
   <= Rabs (targetYaw (snap s) - currentYaw (updateSnap now1 s))
   /\ Rabs (targetPitch (snap s) - currentPitch (updateSnap now2 s))
      <= Rabs (targetPitch (snap s) - currentPitch (updateSnap now1 s)))
  /\ currentYaw (updateSnap now2 (updateSnap now1 s)) = currentYaw (updateSnap now2 s)
  /\ currentPitch (updateSnap now2 (updateSnap now1 s)) = currentPitch (updateSnap now2 s)
  /\ active (snap (updateSnap now2 (updateSnap now1 s))) = active (snap (updateSnap now2 s)).
Proof.
  intros Hact Hdur Hnow.
  destruct (updateSnap_active now1 s Hact) as (Hy1 & Hp1 & Ha1).
  destruct (updateSnap_active now2 s Hact) as (Hy2 & Hp2 & Ha2).
  set (t1 := clamp ((now1 - startTime (snap s)) / duration (snap s)) 0 1) in *.
  set (t2 := clamp ((now2 - startTime (snap s)) / duration (snap s)) 0 1) in *.
  assert (Ht1 : 0 <= t1 <= 1) by (apply clamp_range; lra).
  assert (Ht2 : 0 <= t2 <= 1) by (apply clamp_range; lra).
  assert (Ht : t1 <= t2) by (apply snap_progress_monotone; assumption).
  assert (He : ease t1 <= ease t2) by (apply ease_monotone; lra).
  pose proof (ease_unit t1 Ht1) as He1. pose proof (ease_unit t2 Ht2) as He2.
  split.
  { rewrite Hy1, Hy2, Hp1, Hp2. unfold lerp.
    split.
    - replace (targetYaw (snap s) - (startYaw (snap s) + (targetYaw (snap s) - startYaw (snap s)) * ease t2))
        with ((targetYaw (snap s) - startYaw (snap s)) * (1 - ease t2)) by ring.
      replace (targetYaw (snap s) - (startYaw (snap s) + (targetYaw (snap s) - startYaw (snap s)) * ease t1))
        with ((targetYaw (snap s) - startYaw (snap s)) * (1 - ease t1)) by ring.
      rewrite !Rabs_mult, (Rabs_right (1 - ease t2)), (Rabs_right (1 - ease t1)) by lra.
      apply Rmult_le_compat_l; [apply Rabs_pos | lra].
    - replace (targetPitch (snap s) - (startPitch (snap s) + (targetPitch (snap s) - startPitch (snap s)) * ease t2))
        with ((targetPitch (snap s) - startPitch (snap s)) * (1 - ease t2)) by ring.
      replace (targetPitch (snap s) - (startPitch (snap s) + (targetPitch (snap s) - startPitch (snap s)) * ease t1))
        with ((targetPitch (snap s) - startPitch (snap s)) * (1 - ease t1)) by ring.
      rewrite !Rabs_mult, (Rabs_right (1 - ease t2)), (Rabs_right (1 - ease t1)) by lra.
      apply Rmult_le_compat_l; [apply Rabs_pos | lra]. }
  destruct (updateSnap_snap_fields now1 s) as (Hsy & Hsp & Hty & Htp & Hst & Hdu).
  destruct (Rge_dec t1 1) as [Hdone | Hgoing].
  - (* the first tick ended the transition; the second does nothing *)
    rewrite (updateSnap_idle now2 (updateSnap now1 s) Ha1).
    assert (E1 : t1 = 1) by lra. assert (E2 : t2 = 1) by lra.
    rewrite Hy1, Hp1, Hy2, Hp2, Ha1, Ha2, E1, E2.
    destruct (Rge_dec 1 1); [repeat split; reflexivity | lra].
  - destruct (updateSnap_active now2 (updateSnap now1 s) Ha1) as (Hy & Hp & Ha).
    rewrite Hst, Hdu in Hy, Hp, Ha. fold t2 in Hy, Hp, Ha.
    rewrite Hsy, Hty in Hy. rewrite Hsp, Htp in Hp.
    rewrite Hy, Hp, Ha, Hy2, Hp2, Ha2. repeat split; reflexivity.
Qed.

Lemma snap_ticks_compose_witness :
  currentYaw (updateSnap 300 (updateSnap 200 turning_back))
  = currentYaw (updateSnap 300 turning_back).
Proof.
  assert (Hactive : active (snap turning_back) = true) by (vm_compute; reflexivity).
  assert (Hduration : 0 < duration (snap turning_back)).
  { assert (H : duration (snap turning_back) = 450) by (vm_compute; reflexivity).
    rewrite H. lra. }
  assert (Horder : 200 <= 300) by lra.
  pose proof (snap_ticks_compose turning_back 200 300 Hactive Hduration Horder)
    as (_ & Hyaw & _).
  exact Hyaw.
Defined.

Lemma find_first_named (name : string) (l1 l2 : list Preset.t) (p : Preset.t) :
  Preset.name p = name ->
  Forall (fun q => Preset.name q <> name) l1 ->
  List.find (fun q => String.eqb (Preset.name q) name) (l1 ++ p :: l2) = Some p.
Proof.
  intros Hp Hl1. induction Hl1 as [| q l1 Hq _ IH]; simpl.
  - apply String.eqb_eq in Hp. now rewrite Hp.
  - apply String.eqb_neq in Hq. now rewrite Hq.
Qed.

Lemma find_none_named (name : string) (l : list Preset.t) :
  Forall (fun q => Preset.name q <> name) l ->
  List.find (fun q => String.eqb (Preset.name q) name) l = None.
Proof.
  intros Hl. induction Hl as [| q l Hq _ IH]; simpl; [reflexivity |].
  apply String.eqb_neq in Hq. now rewrite Hq.
Qed.

(** X4: [setPreset] with the name of a preset starts a transition to the
    first preset of that name and moves nothing yet: yaw, pitch and distance
    are as before, and the transition runs from the current orientation to
    the preset's.  A tick 450 ms or more later ends the transition and
    leaves yaw and pitch at [start + (preset - start) * 1].  With a name that
    no preset has, [setPreset] changes nothing. *)
Theorem setPreset_reaches_preset
  (s : State) (name : string) (now later : R) (l1 l2 : list Preset.t) (p : Preset.t) :
  presets s = l1 ++ p :: l2 ->
  Preset.name p = name ->
  Forall (fun q => Preset.name q <> name) l1 ->
  later - now >= 450 ->
  let started := setPreset name now s in
  let landed := updateSnap later started in
  (currentYaw started = currentYaw s
   /\ currentPitch started = currentPitch s
   /\ distance started = distance s
   /\ snap started
      = mkSnap true (currentYaw s) (currentPitch s) (Preset.yaw p) (Preset.pitch p)
          now 450)
  /\ (currentYaw landed = currentYaw s + (Preset.yaw p - currentYaw s) * 1
      /\ currentPitch landed = currentPitch s + (Preset.pitch p - currentPitch s) * 1
      /\ active (snap landed) = false)
  /\ (forall (s0 : State) (unknown : string) (now0 : R),
         Forall (fun q => Preset.name q <> unknown) (presets s0) ->
         setPreset unknown now0 s0 = s0).
Proof.
  intros Hps Hname Hl1 Hlater started landed.
  assert (Hstarted : started
                     = startSnapTo (Preset.yaw p) (Preset.pitch p) now s).
  { unfold started, setPreset. rewrite Hps, (find_first_named name l1 l2 p Hname Hl1).
    reflexivity. }
  split; [rewrite Hstarted; repeat split; reflexivity |].
  split.
  - destruct (updateSnap_active later started) as (Hy & Hp & Ha);
      [rewrite Hstarted; reflexivity |].
    fold landed in Hy, Hp, Ha. rewrite Hstarted in Hy, Hp, Ha. simpl in Hy, Hp, Ha.
    rewrite snap_progress_end in Hy, Hp, Ha by lra.
    rewrite ease_one in Hy, Hp. unfold lerp in Hy, Hp.
    destruct (Rge_dec 1 1); [auto | lra].
  - intros s0 unknown now0 Hnone. unfold setPreset.
    now rewrite (find_none_named unknown _ Hnone).
Qed.

Lemma setPreset_reaches_preset_witness :
  active (snap (updateSnap 550 (setPreset "back" 100 (constructor true "cube")))) = false.
Proof.
  assert (Hpresets : presets (constructor true "cube")
                     = [Preset.mk "front" 0 0]
                         ++ Preset.mk "back" PI 0
                         :: [Preset.mk "left" (- PI / 2) 0; Preset.mk "right" (PI / 2) 0])
    by (vm_compute; reflexivity).
  assert (Hname : Preset.name (Preset.mk "back" PI 0) = "back"%string) by reflexivity.
  assert (Hfirst : Forall (fun q => Preset.name q <> "back"%string) [Preset.mk "front" 0 0])
    by (constructor; [discriminate | constructor]).
  assert (Hlate : 550 - 100 >= 450) by lra.
  pose proof (setPreset_reaches_preset (constructor true "cube") "back" 100 550
                [Preset.mk "front" 0 0]
                [Preset.mk "left" (- PI / 2) 0; Preset.mk "right" (PI / 2) 0]
                (Preset.mk "back" PI 0) Hpresets Hname Hfirst Hlate)
    as (_ & (_ & _ & Hidle) & _).
  exact Hidle.
Defined.

(** ** Reachable states *)

Lemma reachable_invariant (webgl : bool) (mesh_uuid : string) (actions : list Action) :
  Invariant (run actions (constructor webgl mesh_uuid)).
Proof. apply run_invariant, constructor_invariant. Qed.

(** X5: whatever is done with a viewer after its construction (method
    calls, events, frames, loads, disposal, in any order) the distance stays
    within 1.8 and 4.5, [getState] reports it so, and the camera, when there
    is one, sits at that distance. *)
Theorem distance_always_in_range
  (webgl : bool) (mesh_uuid : string) (actions : list Action) :
  let s := run actions (constructor webgl mesh_uuid) in
  1.8 <= distance s <= 4.5
  /\ 1.8 <= state_distance (getState s) <= 4.5
  /\ (if camera s then camera_z s = distance s else True).
Proof.
  intros s. pose proof (reachable_invariant webgl mesh_uuid actions) as Hinv. fold s in Hinv.
  pose proof (inv_distance s Hinv) as Hd. unfold MIN_DISTANCE, MAX_DISTANCE in Hd.
  split; [exact Hd |]. split; [exact Hd |].
  destruct (camera s) eqn:Hc; [apply (inv_camera s Hinv Hc) | exact I].
Qed.

(** X6: in every state a viewer can reach, drag mode is on exactly when
    some pointer is tracked, the container carries the dragging class
    exactly in drag mode, and no pointer identifier is tracked twice. *)
Theorem drag_mode_tracks_pointers
  (webgl : bool) (mesh_uuid : string) (actions : list Action) :
  let s := run actions (constructor webgl mesh_uuid) in
  (dragging s = true <-> pointers s <> [])
  /\ container_dragging s = dragging s
  /\ NoDup (map fst (pointers s)).
Proof.
  intros s. destruct (reachable_invariant webgl mesh_uuid actions). auto.
Qed.

(** X7: in every state a viewer can reach, scene, camera, event listeners
    and resize observer are present exactly when the renderer is.  The
    browser holds exactly the frame request the viewer remembers, a request
    is remembered exactly when there is a renderer, and every handle the
    browser holds was handed out before. *)
Theorem viewer_parts_live_together
  (webgl : bool) (mesh_uuid : string) (actions : list Action) :
  let s := run actions (constructor webgl mesh_uuid) in
  scene s = renderer s
  /\ camera s = renderer s
  /\ listeners s = renderer s
  /\ resizeObserver s = renderer s
  /\ frames s = (match animationHandle s with Some handle => [handle] | None => [] end)
  /\ (animationHandle s = None <-> renderer s = false)
  /\ (forall handle, In handle (frames s) -> (handle < next_frame s)%nat).
Proof.
  intros s. destruct (reachable_invariant webgl mesh_uuid actions). auto 10.
Qed.

(** X8: in every state a viewer can reach, the preset list is not empty and
    [getState] names a preset.  With the listeners attached, the release
    that empties the pointer map switches drag mode off and starts a
    transition of 450 ms from the current orientation to the nearest preset:
    the first preset of the list of least distance, a distance that no
    whole-turn shift of the yaw delta to any preset of the list
    undercuts. *)
Theorem release_always_snaps
  (webgl : bool) (mesh_uuid : string) (actions : list Action)
  (event : PointerEvent) (now : R) :
  let s := run actions (constructor webgl mesh_uuid) in
  (presets s <> [] /\ state_preset (getState s) <> None)
  /\ (listeners s = true ->
      pointers s <> [] ->
      JsMap.delete (pointerId event) (pointers s) = [] ->
      exists preset l1 l2,
        presets s = l1 ++ preset :: l2
        /\ Forall (fun q => presetDist s preset < presetDist s q) l1
        /\ Forall (fun q => presetDist s preset <= presetDist s q) l2
        /\ (forall (q : Preset.t) (k : Z),
               In q (presets s) ->
               hypot (wrapAngle (currentYaw s - Preset.yaw preset))
                     (currentPitch s - Preset.pitch preset)
               <= hypot (currentYaw s - Preset.yaw q + IZR k * (PI * 2))
                        (currentPitch s - Preset.pitch q))
        /\ snap (perform (PointerUp event now) s)
           = mkSnap true (currentYaw s) (currentPitch s)
               (Preset.yaw preset) (Preset.pitch preset) now 450
        /\ dragging (perform (PointerUp event now) s) = false).
Proof.
  intros s.
  pose proof (reachable_invariant webgl mesh_uuid actions) as Hinv. fold s in Hinv.
  pose proof (inv_presets s Hinv) as Hspec0.
  pose proof (findNearestPreset_spec s) as Hspec.
  destruct (findNearestPreset s) as [preset |] eqn:Hnear; [| contradiction].
  split.
  { split; [exact Hspec0 |]. unfold getState. simpl. rewrite Hnear. discriminate. }
  intros Hl Hp Hdel.
  assert (Hr : renderer s = true) by (rewrite <- (inv_listeners s Hinv); exact Hl).
  assert (Hdrag : dragging s = true) by (apply (inv_dragging s Hinv); exact Hp).
  destruct (findNearestPreset_least s preset Hnear) as (l1 & l2 & Hps & H1 & H2 & Hturn).
  exists preset, l1, l2.
  split; [exact Hps |]. split; [exact H1 |]. split; [exact H2 |].
  split; [exact Hturn |].
  simpl. rewrite Hl.
  destruct (onPointerUp_fields event now s Hr) as (_ & _ & Hd & _ & Hs).
  rewrite Hdel, Hdrag in Hd. rewrite Hdel, Hdrag, Hnear in Hs. simpl in Hs, Hd. auto.
Qed.

Lemma release_always_snaps_witness :
  dragging (perform (PointerUp (mkPointerEvent 1 0 0) 0)
              (run [PointerDown (mkPointerEvent 1 0 0)] (constructor true "cube")))
  = false.
Proof.
  assert (Hlisteners : listeners (run [PointerDown (mkPointerEvent 1 0 0)]
                                    (constructor true "cube")) = true)
    by (vm_compute; reflexivity).
  assert (Htracked : pointers (run [PointerDown (mkPointerEvent 1 0 0)]
                                 (constructor true "cube")) <> [])
    by (vm_compute; discriminate).
  assert (Hlast : JsMap.delete (pointerId (mkPointerEvent 1 0 0))
                    (pointers (run [PointerDown (mkPointerEvent 1 0 0)]
                                 (constructor true "cube"))) = [])
    by (vm_compute; reflexivity).
  pose proof (release_always_snaps true "cube" [PointerDown (mkPointerEvent 1 0 0)]
                (mkPointerEvent 1 0 0) 0) as (_ & Hrelease).
  destruct (Hrelease Hlisteners Htracked Hlast)
    as (preset & l1 & l2 & _ & _ & _ & _ & _ & Hreleased).
  exact Hreleased.
Defined.

(** X9: in every state a viewer can reach, a transition lasts 450 ms: a
    tick that comes 450 ms or more after the start time reaches progress 1,
    leaves yaw and pitch at [start + (target - start) * 1], and ends the
    transition. *)
Theorem snap_ends_within_duration
  (webgl : bool) (mesh_uuid : string) (actions : list Action) (now : R) :
  let s := run actions (constructor webgl mesh_uuid) in
  active (snap s) = true ->
  now - startTime (snap s) >= 450 ->
  duration (snap s) = 450
  /\ clamp ((now - startTime (snap s)) / duration (snap s)) 0 1 = 1
  /\ currentYaw (updateSnap now s)
     = startYaw (snap s) + (targetYaw (snap s) - startYaw (snap s)) * 1
  /\ currentPitch (updateSnap now s)
     = startPitch (snap s) + (targetPitch (snap s) - startPitch (snap s)) * 1
  /\ active (snap (updateSnap now s)) = false.
Proof.
  intros s Hact Hnow.
  pose proof (inv_duration s (reachable_invariant webgl mesh_uuid actions)) as inv_duration.
  destruct (updateSnap_active now s Hact) as (Hy & Hp & Ha).
  split; [exact inv_duration |].
  assert (Ht : clamp ((now - startTime (snap s)) / duration (snap s)) 0 1 = 1)
    by (apply snap_progress_end; rewrite ?inv_duration; lra).
  split; [exact Ht |].
  rewrite Ht in Hy, Hp, Ha.
  rewrite ease_one in Hy, Hp. unfold lerp in Hy, Hp.
  destruct (Rge_dec 1 1); [auto | lra].
Qed.

Lemma snap_ends_within_duration_witness :
  active (snap (updateSnap 600 (run [SetPreset "back" 100] (constructor true "cube"))))
  = false.
Proof.
  assert (Hactive : active (snap (run [SetPreset "back" 100] (constructor true "cube")))
                    = true) by (vm_compute; reflexivity).
  assert (Hlate : 600 - startTime (snap (run [SetPreset "back" 100]
                                            (constructor true "cube"))) >= 450).
  { assert (H : startTime (snap (run [SetPreset "back" 100] (constructor true "cube")))
                = 100) by (vm_compute; reflexivity).
    rewrite H. lra. }
  pose proof (snap_ends_within_duration true "cube" [SetPreset "back" 100] 600
                Hactive Hlate) as (_ & _ & _ & _ & Hidle).
  exact Hidle.
Defined.

(** ** Pitch over a session *)




























Lemma runFrame_tick (handle : nat) (now : R) (s : State) :
  existsb (Nat.eqb handle) (frames s) = true ->
  active (snap s) = true ->
  currentPitch (runFrame handle now s)
  = lerp (startPitch (snap s)) (targetPitch (snap s))
      (ease (clamp ((now - startTime (snap s)) / duration (snap s)) 0 1)).
Proof.
  intros Hin Hact. unfold runFrame. rewrite Hin.
  transitivity (currentPitch (updateSnap now (cancelAnimationFrame handle s)));
    [reflexivity |].
  destruct (updateSnap_active now (cancelAnimationFrame handle s)) as (_ & Hp & _);
    [exact Hact |].
  exact Hp.
Qed.

(** Why the presets have to be level: with the preset "top" of pitch 5
    installed and selected, the frame at the end of the transition leaves
    pitch at 5, which is above [PI]. *)
Lemma tilted_preset_pitch_exceeds_pi :
  ~ (- PI <= currentPitch (perform (Frame 0 450) tilted_start) <= PI).
Proof.
  assert (Hin : existsb (Nat.eqb 0) (frames tilted_start) = true)
    by (vm_compute; reflexivity).
  assert (Hsnap : snap tilted_start = mkSnap true 0 0 0 5 0 450)
    by (vm_compute; reflexivity).
  assert (Hact : active (snap tilted_start) = true) by (rewrite Hsnap; reflexivity).
  simpl perform. rewrite (runFrame_tick 0 450 tilted_start Hin Hact), Hsnap. simpl.
  rewrite snap_progress_end by lra. rewrite ease_one. unfold lerp.
  pose proof PI_4. lra.
Qed.

(** ** Zoom switched off *)

Lemma zoom_part_setVariant (name : string) (s : State) :
  zoom_part (setVariant name s) = zoom_part s.
Proof.
  unfold setVariant, applyVariantFromKHR, applyVariantFromName, restoreOriginalMaterials.
  destruct (modelGroup s) eqn:Hg; [| reflexivity].
  destruct (Nat.eqb _ 0); simpl; rewrite ?Hg; [reflexivity |].
  destruct (map_has (variantMaterialsKHR s) (trim name)); simpl.
  { rewrite ?Hg. destruct (variantMaterialsKHR s !! trim name); reflexivity. }
  destruct (map_has (variantMaterialsByName s) (trim name)); simpl; rewrite ?Hg.
  { destruct (variantMaterialsByName s !! trim name); reflexivity. }
  reflexivity.
Qed.

Lemma zoom_part_clearModel (s : State) : zoom_part (clearModel s) = zoom_part s.
Proof.
  unfold clearModel. destruct (scene s); simpl; [| reflexivity].
  destruct (modelGroup s); reflexivity.
Qed.

Lemma zoom_part_loadDefaultCube (u : string) (s : State) :
  zoom_part (loadDefaultCube u s) = zoom_part s.
Proof.
  unfold loadDefaultCube. destruct (scene s); [| reflexivity].
  transitivity (zoom_part (clearModel s)); [reflexivity | apply zoom_part_clearModel].
Qed.

Lemma zoom_part_visitNode (s : State) (node : SceneNode) :
  zoom_part (visitNode s node) = zoom_part s.
Proof.
  unfold visitNode. destruct (material (object node)) as [[m | ms] |]; try reflexivity.
  destruct (extractVariantName (material_name m)) as [v |]; [| reflexivity].
  destruct (Nat.eqb (String.length v) 0); reflexivity.
Qed.

Lemma zoom_part_prepareVariants (gltf : Gltf) (s : State) :
  zoom_part (fst (prepareVariants gltf s)) = zoom_part s.
Proof.
  unfold prepareVariants. simpl.
  set (cleared := set_originalMaterials _ _).
  assert (Hc : zoom_part cleared = zoom_part s) by reflexivity.
  clearbody cleared. revert cleared Hc.
  induction (gltf_scene gltf) as [| node nodes IH]; intros cleared Hc; simpl; [exact Hc |].
  apply IH. now rewrite zoom_part_visitNode.
Qed.

Lemma zoom_part_setSrc_loaded (gltf : Gltf) (s : State) :
  zoom_part (fst (setSrc_loaded gltf s)) = zoom_part s.
Proof.
  unfold setSrc_loaded.
  destruct (negb _).
  - transitivity (zoom_part (clearModel s)); [reflexivity | apply zoom_part_clearModel].
  - etransitivity; [apply zoom_part_prepareVariants |].
    transitivity (zoom_part (clearModel s)); [reflexivity | apply zoom_part_clearModel].
Qed.

Lemma zoom_part_updateSnap (now : R) (s : State) :
  zoom_part (updateSnap now s) = zoom_part s.
Proof.
  unfold updateSnap. destruct (active (snap s)); simpl negb; cbv iota; [| reflexivity].
  cbv zeta. unfold updateModelRotation. simpl modelGroup.
  destruct (modelGroup s); destruct (Rge_dec _ 1); reflexivity.
Qed.

Lemma zoom_part_dispose (s : State) : zoom_part (dispose s) = zoom_part s.
Proof. unfold dispose, stopRenderLoop. destruct (animationHandle s); reflexivity. Qed.

Lemma zoom_off_step (a : Action) (s : State) :
  zoomEnabled s = false -> enables_zoom a = false -> zoom_part (perform a s) = zoom_part s.
Proof.
  intros Hoff Ha. destruct a; simpl.
  - destruct enabled; [discriminate |]. unfold zoom_part. simpl. now rewrite Hoff.
  - reflexivity.
  - unfold setPreset. destruct (List.find _ _); reflexivity.
  - apply zoom_part_setVariant.
  - unfold setSrc_begin. destruct (_ || _); [reflexivity |].
    destruct src as [url |]; [destruct (Nat.eqb _ 0) |]; simpl;
      try apply zoom_part_loadDefaultCube; reflexivity.
  - apply zoom_part_setSrc_loaded.
  - reflexivity.
  - reflexivity.
  - destruct (listeners s); [| reflexivity].
    unfold onPointerDown. destruct (renderer s); simpl negb; cbv iota; [| reflexivity].
    cbv zeta. simpl pointers.
    destruct (Nat.eqb _ 1); simpl pointers; destruct (Nat.eqb _ 2);
      try destruct (JsMap.values _) as [| p0 [| p1 rest]]; reflexivity.
  - destruct (listeners s); [| reflexivity].
    unfold onPointerMove. destruct (renderer s); simpl negb; cbv iota; [| reflexivity].
    destruct (JsMap.get _ _); [| reflexivity]. cbv zeta. simpl pointers. simpl dragging.
    destruct (_ && dragging s); unfold updateModelRotation; simpl modelGroup;
      try destruct (modelGroup s); simpl pointers; simpl zoomEnabled;
      rewrite Hoff, andb_false_r; reflexivity.
  - destruct (listeners s); [| reflexivity].
    unfold onPointerUp. destruct (renderer s); simpl negb; cbv iota; [| reflexivity].
    cbv zeta. simpl pointers. simpl dragging.
    destruct (_ && _); [| reflexivity].
    destruct (findNearestPreset _); reflexivity.
  - destruct (listeners s); [| reflexivity].
    unfold onWheel. now rewrite Hoff.
  - unfold runFrame. destruct (existsb _ _); [| reflexivity].
    unfold render, requestAnimationFrame.
    transitivity (zoom_part (updateSnap now (cancelAnimationFrame handle s)));
      [reflexivity |].
    rewrite zoom_part_updateSnap. reflexivity.
  - apply zoom_part_dispose.
Qed.

(** X10: once zooming is disabled, no sequence of actions that does not
    enable it again changes the distance or the camera position: wheel and
    pinch are ignored, and nothing else writes them. *)
Theorem zoom_disabled_freezes_distance (s : State) (actions : list Action) :
  zoomEnabled s = false ->
  forallb (fun a => negb (enables_zoom a)) actions = true ->
  distance (run actions s) = distance s
  /\ camera_z (run actions s) = camera_z s
  /\ zoomEnabled (run actions s) = false.
Proof.
  revert s. induction actions as [| a actions IH]; intros s Hoff Hall; simpl.
  - auto.
  - simpl in Hall. apply andb_prop in Hall as [Ha Hall].
    apply negb_true_iff in Ha.
    pose proof (zoom_off_step a s Hoff Ha) as Hstep. unfold zoom_part in Hstep.
    injection Hstep as Hd Hz Hzoom.
    destruct (IH (perform a s)) as (Hd' & Hz' & Hoff'); [congruence | exact Hall |].
    rewrite Hd', Hz', Hoff'. auto.
Qed.

Lemma zoom_disabled_freezes_distance_witness :
  distance (run [Wheel (mkWheelEvent 100); PointerDown (mkPointerEvent 1 0 0)]
              (setZoomEnabled false (constructor true "cube")))
  = distance (setZoomEnabled false (constructor true "cube")).
Proof.
  assert (Hoff : zoomEnabled (setZoomEnabled false (constructor true "cube")) = false)
    by (vm_compute; reflexivity).
  assert (Hnone : forallb (fun a => negb (enables_zoom a))
                    [Wheel (mkWheelEvent 100); PointerDown (mkPointerEvent 1 0 0)] = true)
    by reflexivity.
  pose proof (zoom_disabled_freezes_distance
                (setZoomEnabled false (constructor true "cube"))
                [Wheel (mkWheelEvent 100); PointerDown (mkPointerEvent 1 0 0)]
                Hoff Hnone) as (Hdistance & _).
  exact Hdistance.
Defined.

(** ** Pinch *)

Lemma clamp_le_inside (x d lo hi : R) :
  lo <= d <= hi -> x <= d -> clamp x lo hi <= d.
Proof.
  intros Hd Hx. unfold clamp, Rmin, Rmax.
  destruct (Rle_dec lo x); destruct (Rle_dec hi _); lra.
Qed.

Lemma clamp_ge_inside (x d lo hi : R) :
  lo <= d <= hi -> d <= x -> d <= clamp x lo hi.
Proof.
  intros Hd Hx. unfold clamp, Rmin, Rmax.
  destruct (Rle_dec lo x); destruct (Rle_dec hi _); lra.
Qed.

(** X11: with zoom enabled and one pointer tracked, a second pointer going
    down records the distance between the two as the pinch baseline and
    leaves the zoom distance alone.  A move of that pointer updates its
    position and never turns the model.  If the spread changed by at most
    half a pixel, distance and baseline stay; otherwise the distance becomes
    [clamp (distance - delta * 0.01) 1.8 4.5] and the new spread becomes the
    baseline.  From a distance in range, spreading never moves the camera
    away and pinching never brings it closer. *)
Theorem pinch_changes_distance
  (s : State) (id1 : Z) (p1 : Point.t) (down move : PointerEvent) :
  renderer s = true ->
  zoomEnabled s = true ->
  pointers s = [(id1, p1)] ->
  pointerId down <> id1 ->
  pointerId move = pointerId down ->
  let p2 := Point.mk (clientX down) (clientY down) in
  let q2 := Point.mk (clientX move) (clientY move) in
  let delta := distanceBetween p1 q2 - distanceBetween p1 p2 in
  let s1 := onPointerDown down s in
  let s2 := onPointerMove move s1 in
  (pinchDistance s1 = distanceBetween p1 p2 /\ distance s1 = distance s)
  /\ pointers s2 = [(id1, p1); (pointerId down, q2)]
  /\ (currentYaw s2 = currentYaw s /\ currentPitch s2 = currentPitch s)
  /\ (Rabs delta <= 0.5 ->
      distance s2 = distance s /\ pinchDistance s2 = distanceBetween p1 p2)
  /\ (Rabs delta > 0.5 ->
      distance s2 = clamp (distance s - delta * 0.01) 1.8 4.5
      /\ pinchDistance s2 = distanceBetween p1 q2)
  /\ (1.8 <= distance s <= 4.5 ->
      (0 <= delta -> distance s2 <= distance s)
      /\ (delta <= 0 -> distance s <= distance s2)).
Proof.
  intros Hr Hzoom Hp Hne Hsame p2 q2 delta s1 s2.
  assert (Hneq : Z.eqb (pointerId down) id1 = false) by (apply Z.eqb_neq; exact Hne).
  assert (Hs1 : s1 = set_pinchDistance (distanceBetween p1 p2)
                       (set_pointers [(id1, p1); (pointerId down, p2)] s)).
  { unfold s1, onPointerDown. rewrite Hr. simpl. rewrite Hp. simpl. rewrite Hneq.
    reflexivity. }
  assert (Hcases :
            (Rabs delta <= 0.5 /\
             s2 = set_pointers [(id1, p1); (pointerId down, q2)] s1)
            \/ (Rabs delta > 0.5 /\
                s2 = set_pinchDistance (distanceBetween p1 q2)
                       (updateDistance (distance s - delta * 0.01)
                          (set_pointers [(id1, p1); (pointerId down, q2)] s1)))).
  { unfold s2, onPointerMove. rewrite Hs1. simpl. rewrite Hr, Hsame, Hneq, Z.eqb_refl.
    simpl. rewrite ?Hneq, ?Z.eqb_refl, ?Hzoom. simpl.
    fold p2 q2. fold delta.
    destruct (Rgt_dec (Rabs delta) 0.5); [right | left]; split; try lra; reflexivity. }
  split; [rewrite Hs1; split; reflexivity |].
  destruct Hcases as [[Hsmall ->] | [Hbig ->]]; rewrite Hs1.
  - split; [reflexivity |]. split; [split; reflexivity |].
    split; [intros _; split; reflexivity |].
    split; [intros Hgt; lra |].
    intros _. simpl. split; intros; lra.
  - assert (Hd : distance
                   (set_pinchDistance (distanceBetween p1 q2)
                      (updateDistance (distance s - delta * 0.01)
                         (set_pointers [(id1, p1); (pointerId down, q2)]
                            (set_pinchDistance (distanceBetween p1 p2)
                               (set_pointers [(id1, p1); (pointerId down, p2)] s)))))
                 = clamp (distance s - delta * 0.01) 1.8 4.5).
    { unfold updateDistance. simpl. destruct (camera s); reflexivity. }
    rewrite Hd. unfold updateDistance. simpl.
    split; [destruct (camera s); reflexivity |].
    split; [destruct (camera s); split; reflexivity |].
    split; [intros Hle; lra |].
    split; [intros _; split; [reflexivity | destruct (camera s); reflexivity] |].
    intros Hrange. split; intros Hdelta.
    + apply clamp_le_inside; [exact Hrange | nra].
    + apply clamp_ge_inside; [exact Hrange | nra].
Qed.

Lemma pinch_changes_distance_witness :
  pointers (onPointerMove (mkPointerEvent 2 20 0)
              (onPointerDown (mkPointerEvent 2 10 0) pressed_once))
  = [(1%Z, Point.mk 0 0); (2%Z, Point.mk 20 0)].
Proof.
  assert (Hrenderer : renderer pressed_once = true) by (vm_compute; reflexivity).
  assert (Hzoom : zoomEnabled pressed_once = true) by (vm_compute; reflexivity).
  assert (Hone : pointers pressed_once = [(1%Z, Point.mk 0 0)])
    by (vm_compute; reflexivity).
  assert (Hother : pointerId (mkPointerEvent 2 10 0) <> 1%Z) by (simpl; lia).
  assert (Hsame : pointerId (mkPointerEvent 2 20 0) = pointerId (mkPointerEvent 2 10 0))
    by reflexivity.
  pose proof (pinch_changes_distance pressed_once 1 (Point.mk 0 0)
                (mkPointerEvent 2 10 0) (mkPointerEvent 2 20 0)
                Hrenderer Hzoom Hone Hother Hsame) as (_ & Htracked & _).
  exact Htracked.
Defined.

(** ** A press during a transition *)

Lemma idle_frame (handle : nat) (now : R) (s : State) :
  active (snap s) = false ->
  currentYaw (runFrame handle now s) = currentYaw s
  /\ currentPitch (runFrame handle now s) = currentPitch s
  /\ active (snap (runFrame handle now s)) = false.
Proof.
  intros Hidle. unfold runFrame. destruct (existsb _ _); [| auto].
  unfold render, requestAnimationFrame.
  rewrite (updateSnap_idle now (cancelAnimationFrame handle s)) by exact Hidle.
  simpl. auto.
Qed.

(** X12: a press on a viewer with no pointer tracked cancels the transition
    under way and turns drag mode on; the frames that follow, however many
    and at whatever times, leave yaw and pitch where they were at the press
    and start no transition. *)
Theorem press_cancels_snap
  (s : State) (event : PointerEvent) (ticks : list (nat * R)) :
  renderer s = true ->
  pointers s = [] ->
  let pressed := onPointerDown event s in
  let later := run (map (fun tick => Frame (fst tick) (snd tick)) ticks) pressed in
  active (snap pressed) = false
  /\ dragging pressed = true
  /\ currentYaw later = currentYaw s
  /\ currentPitch later = currentPitch s
  /\ active (snap later) = false.
Proof.
  intros Hr Hempty pressed later.
  destruct (onPointerDown_fields event s Hr) as (_ & _ & Hd & Hs & _).
  rewrite Hempty in Hd, Hs. simpl in Hd, Hs. fold pressed in Hd, Hs.
  assert (Hidle : active (snap pressed) = false) by (rewrite Hs; reflexivity).
  assert (Horient : currentYaw pressed = currentYaw s
                    /\ currentPitch pressed = currentPitch s).
  { unfold pressed, onPointerDown. rewrite Hr, Hempty. simpl. auto. }
  split; [exact Hidle |]. split; [exact Hd |].
  destruct Horient as [Hy Hp]. rewrite <- Hy, <- Hp.
  unfold later. clear later Hy Hp Hd Hs.
  generalize dependent pressed. 
  induction ticks as [| [handle now] ticks IH]; intros pressed Hidle; simpl; [auto |].
  destruct (idle_frame handle now pressed Hidle) as (Hy & Hp & Hi).
  destruct (IH (runFrame handle now pressed) Hi) as (Hy' & Hp' & Hi').
  rewrite Hy', Hp', Hy, Hp. auto.
Qed.

Lemma press_cancels_snap_witness :
  currentYaw (run [Frame 1 200] (onPointerDown (mkPointerEvent 1 0 0) turning_back))
  = currentYaw turning_back.
Proof.
  assert (Hrenderer : renderer turning_back = true) by (vm_compute; reflexivity).
  assert (Hnone : pointers turning_back = []) by (vm_compute; reflexivity).
  pose proof (press_cancels_snap turning_back (mkPointerEvent 1 0 0) [(1%nat, 200)]
                Hrenderer Hnone) as (_ & _ & Hyaw & _).
  exact Hyaw.
Defined.

(** ** Selecting a variant twice *)

Lemma traverse_twice (f : Object3D -> Object3D) (g : Group) :
  (forall node, f (f node) = f node) -> traverse f (traverse f g) = traverse f g.
Proof.
  intros Hf. unfold traverse. simpl. f_equal.
  rewrite map_map. apply map_ext. exact Hf.
Qed.

Lemma set_material_twice (a b : MaterialSlot) (node : Object3D) :
  set_material a (set_material b node) = set_material a node.
Proof. reflexivity. Qed.

(** X13: selecting the same variant twice in a row is the same as selecting
    it once, in every state and for every name: blank, unknown, known to the
    structured table or known to the naming table only. *)
Theorem setVariant_idempotent (s : State) (name : string) :
  setVariant name (setVariant name s) = setVariant name s.
Proof.
  destruct s as [r sc cam cz g ro ah ps cy cp d ze cv dr pd pt sn khr byname orig l hh cd fr nf].
  unfold setVariant.
  generalize (Nat.eqb (String.length (trim name)) 0). generalize (trim name).
  intros v blank. unfold map_has. simpl.
  destruct g as [g |]; [| reflexivity].
  destruct blank.
  - unfold restoreOriginalMaterials. simpl.
    rewrite traverse_twice; [reflexivity |].
    intros node. destruct (material node) eqn:Hm; [| now rewrite Hm].
    destruct (orig !! uuid node) eqn:Ho; simpl; [now rewrite Ho | now rewrite Hm, Ho].
  - destruct (khr !! v) as [vm |] eqn:Hvm.
    + unfold applyVariantFromKHR. simpl. rewrite Hvm. simpl. rewrite Hvm.
      rewrite traverse_twice; [reflexivity |].
      intros node. destruct (material node) eqn:Hm; [| now rewrite Hm].
      destruct (vm !! uuid node) eqn:Hv; simpl; [now rewrite Hv |].
      destruct (orig !! uuid node) eqn:Ho; simpl; [now rewrite Hv, Ho |].
      now rewrite Hm, Hv, Ho.
    + destruct (byname !! v) as [vm |] eqn:Hb.
      * unfold applyVariantFromName. simpl. rewrite Hb. simpl. rewrite Hvm, Hb.
        rewrite traverse_twice; [reflexivity |].
        intros node. destruct (material node) eqn:Hm; [| now rewrite Hm].
        destruct (vm !! uuid node) eqn:Hv; simpl; [now rewrite Hv |].
        now rewrite Hm, Hv.
      * unfold restoreOriginalMaterials. simpl. rewrite Hvm, Hb.
        rewrite traverse_twice; [reflexivity |].
        intros node. destruct (material node) eqn:Hm; [| now rewrite Hm].
        destruct (orig !! uuid node) eqn:Ho; simpl; [now rewrite Ho | now rewrite Hm, Ho].
Qed.

(** ** A freshly loaded asset *)

Lemma entry_register (key node : string) (m : Material)
      (table : gmap string (gmap string Material)) (key' node' : string) :
  entry (register key node m table) key' node'
  = if decide (key = key' /\ node = node') then Some m else entry table key' node'.
Proof.
  unfold entry, register.
  destruct (decide (key = key')) as [<- | Hk].
  - rewrite lookup_insert_eq.
    destruct (decide (node = node')) as [<- | Hn].
    + rewrite lookup_insert_eq. rewrite decide_True by auto. reflexivity.
    + rewrite lookup_insert_ne by exact Hn.
      rewrite decide_False by tauto.
      destruct (table !! key); [reflexivity | apply lookup_empty].
  - rewrite lookup_insert_ne by exact Hk. rewrite decide_False by tauto. reflexivity.
Qed.

Lemma visitNode_originals (s : State) (node : SceneNode) :
  originalMaterials (visitNode s node)
  = match material (object node) with
    | Some slot => <[uuid (object node) := slot]> (originalMaterials s)
    | None => originalMaterials s
    end.
Proof.
  unfold visitNode. destruct (material (object node)) as [[m | ms] |]; try reflexivity.
  destruct (extractVariantName (material_name m)) as [v |]; [| reflexivity].
  destruct (Nat.eqb (String.length v) 0); reflexivity.
Qed.

Lemma visitNode_byName (s : State) (node : SceneNode) :
  variantMaterialsByName (visitNode s node)
  = match material (object node) with
    | Some (Single m) =>
        match extractVariantName (material_name m) with
        | Some v =>
            if Nat.eqb (String.length v) 0 then variantMaterialsByName s
            else register v (uuid (object node)) m (variantMaterialsByName s)
        | None => variantMaterialsByName s
        end
    | _ => variantMaterialsByName s
    end.
Proof.
  unfold visitNode. destruct (material (object node)) as [[m | ms] |]; try reflexivity.
  destruct (extractVariantName (material_name m)) as [v |]; [| reflexivity].
  destruct (Nat.eqb (String.length v) 0); reflexivity.
Qed.

Lemma visitNode_rest (s : State) (node : SceneNode) :
  modelGroup (visitNode s node) = modelGroup s
  /\ currentVariant (visitNode s node) = currentVariant s
  /\ variantMaterialsKHR (visitNode s node) = variantMaterialsKHR s.
Proof.
  unfold visitNode. destruct (material (object node)) as [[m | ms] |]; auto.
  destruct (extractVariantName (material_name m)) as [v |]; auto.
  destruct (Nat.eqb (String.length v) 0); auto.
Qed.

Lemma fold_visit_rest (l : list SceneNode) (s : State) :
  modelGroup (fold_left visitNode l s) = modelGroup s
  /\ currentVariant (fold_left visitNode l s) = currentVariant s
  /\ variantMaterialsKHR (fold_left visitNode l s) = variantMaterialsKHR s.
Proof.
  revert s. induction l as [| node l IH]; intros s; simpl; [auto |].
  destruct (IH (visitNode s node)) as (-> & -> & ->). apply visitNode_rest.
Qed.

Lemma fold_visit_originals (l : list SceneNode) (s : State) (u : string) (slot : MaterialSlot) :
  NoDup (map (fun node => uuid (object node)) l) ->
  (forall node, In node l -> originalMaterials s !! uuid (object node) = None) ->
  originalMaterials (fold_left visitNode l s) !! u = Some slot
  <-> originalMaterials s !! u = Some slot
      \/ exists node, In node l /\ uuid (object node) = u /\ material (object node) = Some slot.
Proof.
  revert s. induction l as [| node l IH]; intros s Hnd Hfresh; simpl.
  - split; [auto | intros [H | (n & [] & _)]; exact H].
  - simpl in Hnd. apply NoDup_cons in Hnd as [Hnotin Hnd].
    rewrite IH; [| exact Hnd |].
    + rewrite visitNode_originals.
      destruct (material (object node)) as [slot0 |] eqn:Hm.
      * destruct (decide (uuid (object node) = u)) as [Hu | Hu].
        -- subst u. rewrite lookup_insert_eq. split.
           ++ intros [H | (n & Hin & Hn & Hs)].
              ** injection H as <-. right. exists node. auto.
              ** exfalso. apply Hnotin. apply list_elem_of_In.
                 apply in_map_iff. exists n. auto.
           ++ intros [H | (n & [<- | Hin] & Hn & Hs)].
              ** rewrite Hfresh in H by (left; reflexivity). discriminate.
              ** left. congruence.
              ** exfalso. apply Hnotin. apply list_elem_of_In.
                 apply in_map_iff. exists n. auto.
        -- rewrite lookup_insert_ne by exact Hu. split.
           ++ intros [H | (n & Hin & Hn & Hs)]; [auto |]. right. exists n. auto.
           ++ intros [H | (n & [<- | Hin] & Hn & Hs)]; [auto | contradiction |].
              right. exists n. auto.
      * split.
        -- intros [H | (n & Hin & Hn & Hs)]; [auto |]. right. exists n. auto.
        -- intros [H | (n & [<- | Hin] & Hn & Hs)]; [auto | congruence |].
           right. exists n. auto.
    + intros n Hin. rewrite visitNode_originals.
      destruct (material (object node)); [| apply Hfresh; right; exact Hin].
      rewrite lookup_insert_ne; [apply Hfresh; right; exact Hin |].
      intros Heq. apply Hnotin. apply list_elem_of_In. apply in_map_iff.
      exists n. auto.
Qed.

Lemma visitNode_entry (s : State) (node : SceneNode) (v u : string) :
  entry (variantMaterialsByName (visitNode s node)) v u
  = match material (object node) with
    | Some (Single m) =>
        match extractVariantName (material_name m) with
        | Some v' =>
            if Nat.eqb (String.length v') 0 then entry (variantMaterialsByName s) v u
            else if decide (v' = v /\ uuid (object node) = u) then Some m
                 else entry (variantMaterialsByName s) v u
        | None => entry (variantMaterialsByName s) v u
        end
    | _ => entry (variantMaterialsByName s) v u
    end.
Proof.
  rewrite visitNode_byName.
  destruct (material (object node)) as [[m | ms] |]; try reflexivity.
  destruct (extractVariantName (material_name m)) as [v' |]; [| reflexivity].
  destruct (Nat.eqb (String.length v') 0); [reflexivity |].
  apply entry_register.
Qed.

Lemma fold_visit_byName (l : list SceneNode) (s : State) (v u : string) (m : Material) :
  NoDup (map (fun node => uuid (object node)) l) ->
  (forall node v', In node l -> entry (variantMaterialsByName s) v' (uuid (object node)) = None) ->
  entry (variantMaterialsByName (fold_left visitNode l s)) v u = Some m
  <-> entry (variantMaterialsByName s) v u = Some m
      \/ exists node,
          In node l /\ uuid (object node) = u
          /\ material (object node) = Some (Single m)
          /\ extractVariantName (material_name m) = Some v
          /\ v <> ""%string.
Proof.
  revert s. induction l as [| node l IH]; intros s Hnd Hfresh; simpl.
  - split; [auto | intros [H | (n & [] & _)]; exact H].
  - simpl in Hnd. apply NoDup_cons in Hnd as [Hnotin Hnd].
    assert (Hother : forall n, In n l -> uuid (object n) <> uuid (object node)).
    { intros n Hin Heq. apply Hnotin. apply list_elem_of_In. apply in_map_iff.
      exists n. auto. }
    rewrite IH; [| exact Hnd |].
    + rewrite visitNode_entry.
      destruct (material (object node)) as [[m0 | ms] |] eqn:Hm.
      * destruct (extractVariantName (material_name m0)) as [v0 |] eqn:Hv.
        -- destruct (Nat.eqb (String.length v0) 0) eqn:Hlen.
           ++ split.
              ** intros [H | (n & Hin & Hrest)]; [auto |]. right. exists n. auto.
              ** intros [H | (n & [<- | Hin] & Hn & Hs & He & Hne)]; [auto | |].
                 --- exfalso. rewrite Hm in Hs. injection Hs as <-.
                     rewrite Hv in He. injection He as <-.
                     apply Hne. destruct v0; [reflexivity | discriminate].
                 --- right. exists n. auto.
           ++ destruct (decide (v0 = v /\ uuid (object node) = u)) as [[-> <-] | Hno].
              ** split.
                 --- intros [H | (n & Hin & Hn & _)].
                     +++ injection H as <-. right. exists node.
                         repeat split; auto.
                         intros ->. discriminate.
                     +++ exfalso. apply (Hother n Hin Hn).
                 --- intros [H | (n & [<- | Hin] & Hn & Hs & He & Hne)].
                     +++ rewrite Hfresh in H by (left; reflexivity). discriminate.
                     +++ left. congruence.
                     +++ exfalso. apply (Hother n Hin Hn).
              ** split.
                 --- intros [H | (n & Hin & Hrest)]; [auto |]. right. exists n. auto.
                 --- intros [H | (n & [<- | Hin] & Hn & Hs & He & Hne)]; [auto | |].
                     +++ exfalso. apply Hno. rewrite Hm in Hs. injection Hs as <-.
                         rewrite Hv in He. injection He as <-. auto.
                     +++ right. exists n. auto.
        -- split.
           ++ intros [H | (n & Hin & Hrest)]; [auto |]. right. exists n. auto.
           ++ intros [H | (n & [<- | Hin] & Hn & Hs & He & Hne)]; [auto | |].
              ** exfalso. rewrite Hm in Hs. injection Hs as <-. congruence.
              ** right. exists n. auto.
      * split.
        -- intros [H | (n & Hin & Hrest)]; [auto |]. right. exists n. auto.
        -- intros [H | (n & [<- | Hin] & Hn & Hs & He & Hne)]; [auto | congruence |].
           right. exists n. auto.
      * split.
        -- intros [H | (n & Hin & Hrest)]; [auto |]. right. exists n. auto.
        -- intros [H | (n & [<- | Hin] & Hn & Hs & He & Hne)]; [auto | congruence |].
           right. exists n. auto.
    + intros n v' Hin. rewrite visitNode_entry.
      assert (Hold : entry (variantMaterialsByName s) v' (uuid (object n)) = None)
        by (apply Hfresh; right; exact Hin).
      destruct (material (object node)) as [[m0 | ms] |]; try exact Hold.
      destruct (extractVariantName (material_name m0)) as [v0 |]; [| exact Hold].
      destruct (Nat.eqb (String.length v0) 0); [exact Hold |].
      rewrite decide_False; [exact Hold |].
      intros [_ Heq]. apply (Hother n Hin). congruence.
Qed.

Lemma setSrc_loaded_with_scene (gltf : Gltf) (s : State) :
  scene s = true ->
  setSrc_loaded gltf s
  = prepareVariants gltf
      (set_modelGroup (Some (mkGroup 0 0 (map object (gltf_scene gltf))))
         (set_modelGroup (Some (mkGroup 0 0 [])) (clearModel s))).
Proof.
  intros Hs. unfold setSrc_loaded.
  assert (Hscene : scene (set_modelGroup (Some (mkGroup 0 0 [])) (clearModel s)) = true).
  { simpl. unfold clearModel. rewrite Hs. simpl. destruct (modelGroup s); exact Hs. }
  now rewrite Hscene.
Qed.

Lemma loaded_state (gltf : Gltf) (s : State) (g0 : Group) :
  scene s = true ->
  modelGroup s = Some g0 ->
  NoDup (scene_uuids gltf) ->
  let s' := fst (setSrc_loaded gltf s) in
  modelGroup s' = Some (mkGroup 0 0 (map object (gltf_scene gltf)))
  /\ currentVariant s' = None
  /\ variantMaterialsKHR s' = ∅
  /\ (forall u slot,
         originalMaterials s' !! u = Some slot
         <-> exists node,
             In node (gltf_scene gltf) /\ uuid (object node) = u
             /\ material (object node) = Some slot)
  /\ (forall v u m,
         entry (variantMaterialsByName s') v u = Some m
         <-> exists node,
             In node (gltf_scene gltf) /\ uuid (object node) = u
             /\ material (object node) = Some (Single m)
             /\ extractVariantName (material_name m) = Some v
             /\ v <> ""%string).
Proof.
  intros Hs Hg Hnd s'. unfold s'. rewrite setSrc_loaded_with_scene by exact Hs.
  unfold prepareVariants. simpl fst.
  set (cleared := set_originalMaterials ∅ _).
  destruct (fold_visit_rest (gltf_scene gltf) cleared) as (Hmg & Hcv & Hkhr).
  split; [rewrite Hmg; reflexivity |].
  split.
  { rewrite Hcv. unfold cleared, clearModel. simpl. rewrite Hs, Hg. reflexivity. }
  split; [rewrite Hkhr; reflexivity |].
  split.
  - intros u slot. rewrite fold_visit_originals; [| exact Hnd |].
    + split; [intros [H | H]; [| exact H] | auto].
      unfold cleared in H. simpl in H. rewrite lookup_empty in H. discriminate.
    + intros node _. unfold cleared. simpl. apply lookup_empty.
  - intros v u m. rewrite fold_visit_byName; [| exact Hnd |].
    + split; [intros [H | H]; [| exact H] | auto].
      unfold cleared, entry in H. simpl in H. rewrite lookup_empty in H. discriminate.
    + intros node v' _. unfold cleared, entry. simpl. now rewrite lookup_empty.
Qed.

Lemma fold_visit_view (l : list SceneNode) (s : State) :
  currentYaw (fold_left visitNode l s) = currentYaw s
  /\ currentPitch (fold_left visitNode l s) = currentPitch s
  /\ snap (fold_left visitNode l s) = snap s.
Proof.
  revert s. induction l as [| node l IH]; intros s; simpl; [auto |].
  destruct (IH (visitNode s node)) as (-> & -> & ->).
  unfold visitNode. destruct (material (object node)) as [[m | ms] |]; auto.
  destruct (extractVariantName (material_name m)) as [v |]; auto.
  destruct (Nat.eqb (String.length v) 0); auto.
Qed.

(** X14: when an asset with distinct node identifiers arrives in a viewer
    that has a scene and a model, the model group holds the asset's nodes,
    no variant is current, and the structured table is empty (it fills as
    materials resolve).  The originals table holds exactly the material of
    every mesh of the asset.  The naming table holds, for variant [v] and
    node [u], exactly the single material of mesh [u] when its name has the
    non-empty variant part [v].  The view is kept: yaw, pitch, distance and
    a transition under way are as before the load. *)
Theorem load_builds_tables (gltf : Gltf) (s : State) (g0 : Group) :
  scene s = true ->
  modelGroup s = Some g0 ->
  NoDup (scene_uuids gltf) ->
  let s' := fst (setSrc_loaded gltf s) in
  modelGroup s' = Some (mkGroup 0 0 (map object (gltf_scene gltf)))
  /\ currentVariant s' = None
  /\ variantMaterialsKHR s' = ∅
  /\ (forall u slot,
         originalMaterials s' !! u = Some slot
         <-> exists node,
             In node (gltf_scene gltf) /\ uuid (object node) = u
             /\ material (object node) = Some slot)
  /\ (forall v u m,
         entry (variantMaterialsByName s') v u = Some m
         <-> exists node,
             In node (gltf_scene gltf) /\ uuid (object node) = u
             /\ material (object node) = Some (Single m)
             /\ extractVariantName (material_name m) = Some v
             /\ v <> ""%string)
  /\ (currentYaw s' = currentYaw s /\ currentPitch s' = currentPitch s
      /\ distance s' = distance s /\ snap s' = snap s).
Proof.
  intros Hscene Hmodel Hunique s'.
  destruct (loaded_state gltf s g0 Hscene Hmodel Hunique)
    as (Hgroup & Hcurrent & Hkhr & Horiginals & Hnames).
  repeat split; try assumption; try apply Horiginals; try apply Hnames.
  - unfold s'. rewrite setSrc_loaded_with_scene by exact Hscene.
    unfold prepareVariants. cbv zeta.
    etransitivity; [apply fold_visit_view |].
    unfold clearModel. rewrite Hscene, Hmodel. reflexivity.
  - unfold s'. rewrite setSrc_loaded_with_scene by exact Hscene.
    unfold prepareVariants. cbv zeta.
    etransitivity; [apply fold_visit_view |].
    unfold clearModel. rewrite Hscene, Hmodel. reflexivity.
  - pose proof (setSrc_loaded_core gltf s) as Hcore.
    apply (f_equal (fun c => match c with
                             | (_, _, _, _, _, _, _, d, _, _, _, _, _, _, _) => d
                             end)) in Hcore.
    exact Hcore.
  - unfold s'. rewrite setSrc_loaded_with_scene by exact Hscene.
    unfold prepareVariants. cbv zeta.
    etransitivity; [apply fold_visit_view |].
    unfold clearModel. rewrite Hscene, Hmodel. reflexivity.
Qed.

Lemma load_builds_tables_witness :
  modelGroup showroom_loaded = Some (mkGroup 0 0 (map object (gltf_scene showroom))).
Proof.
  assert (Hscene : scene (constructor true "cube") = true) by (vm_compute; reflexivity).
  assert (Hmodel : modelGroup (constructor true "cube")
                   = Some (mkGroup 0 0
                             [mkObject3D "cube" (Some (Single (mkMaterial "cube" "")))]))
    by (vm_compute; reflexivity).
  assert (Hunique : NoDup (scene_uuids showroom))
    by (apply (bool_decide_unpack _); vm_compute; exact I).
  pose proof (load_builds_tables showroom (constructor true "cube") _
                Hscene Hmodel Hunique) as (Hgroup & _).
  exact Hgroup.
Defined.

Lemma model_view_updateModelRotation (s : State) :
  model_view (updateModelRotation s) = model_view s.
Proof. unfold updateModelRotation. destruct (modelGroup s) eqn:Hg; [| reflexivity].
  unfold model_view. simpl. now rewrite Hg. Qed.

Lemma model_view_updateSnap (now : R) (s : State) :
  model_view (updateSnap now s) = model_view s.
Proof.
  unfold updateSnap. destruct (active (snap s)); simpl negb; cbv iota; [| reflexivity].
  cbv zeta.
  match goal with
  | |- model_view (if _ then set_snap _ ?x else ?x) = _ =>
      transitivity (model_view x); [destruct (Rge_dec _ 1); reflexivity |]
  end.
  rewrite model_view_updateModelRotation. reflexivity.
Qed.

Lemma model_view_updateDistance (next : R) (s : State) :
  model_view (updateDistance next s) = model_view s.
Proof. unfold updateDistance. simpl. destruct (camera s); reflexivity. Qed.

Lemma model_view_onPointerDown (event : PointerEvent) (s : State) :
  model_view (onPointerDown event s) = model_view s.
Proof.
  unfold onPointerDown. destruct (renderer s); simpl negb; cbv iota; [| reflexivity].
  cbv zeta. simpl pointers.
  destruct (Nat.eqb _ 1); simpl pointers; destruct (Nat.eqb _ 2);
    try destruct (JsMap.values _) as [| p0 [| p1 rest]]; reflexivity.
Qed.

Lemma model_view_onPointerMove (event : PointerEvent) (s : State) :
  model_view (onPointerMove event s) = model_view s.
Proof.
  unfold onPointerMove. destruct (renderer s); simpl negb; cbv iota; [| reflexivity].
  destruct (JsMap.get _ _) as [prev |]; [| reflexivity]. cbv zeta.
  set (s1 := set_pointers _ s).
  assert (H1 : model_view s1 = model_view s) by reflexivity.
  match goal with
  | |- model_view (if _ then match JsMap.values (pointers ?x) with _ => _ end else _) = _ =>
      assert (H2 : model_view x = model_view s);
      [| remember x as s2 eqn:Hs2; clear Hs2 ]
  end.
  { destruct (_ && _); [| exact H1].
    rewrite model_view_updateModelRotation. reflexivity. }
  destruct (_ && _); [| exact H2].
  destruct (JsMap.values (pointers s2)) as [| p0 [| p1 rest]]; try exact H2.
  destruct (Rgt_dec _ 0.5); [| exact H2].
  transitivity (model_view (updateDistance
                  (distance s2 - (distanceBetween p0 p1 - pinchDistance s2) * 0.01) s2));
    [reflexivity |].
  now rewrite model_view_updateDistance.
Qed.

Lemma model_view_onPointerUp (event : PointerEvent) (now : R) (s : State) :
  model_view (onPointerUp event now s) = model_view s.
Proof.
  unfold onPointerUp. destruct (renderer s); simpl negb; cbv iota; [| reflexivity].
  cbv zeta. simpl pointers. simpl dragging.
  destruct (_ && _); [| reflexivity].
  destruct (findNearestPreset _); reflexivity.
Qed.

Lemma model_view_onWheel (event : WheelEvent) (s : State) :
  model_view (onWheel event s) = model_view s.
Proof.
  unfold onWheel. destruct (zoomEnabled s); simpl; [| reflexivity].
  apply model_view_updateDistance.
Qed.

Lemma model_view_runFrame (handle : nat) (now : R) (s : State) :
  model_view (runFrame handle now s) = model_view s.
Proof.
  unfold runFrame. destruct (existsb _ _); [| reflexivity].
  unfold render, requestAnimationFrame.
  transitivity (model_view (updateSnap now (cancelAnimationFrame handle s)));
    [reflexivity |].
  now rewrite model_view_updateSnap.
Qed.

Lemma keeps_materials_step (a : Action) (s : State) :
  keeps_materials a = true -> model_view (perform a s) = model_view s.
Proof.
  intros Ha. destruct a; simpl in *; try discriminate; try reflexivity.
  - unfold setPreset. destruct (List.find _ _); reflexivity.
  - destruct (listeners s); [apply model_view_onPointerDown | reflexivity].
  - destruct (listeners s); [apply model_view_onPointerMove | reflexivity].
  - destruct (listeners s); [apply model_view_onPointerUp | reflexivity].
  - destruct (listeners s); [apply model_view_onWheel | reflexivity].
  - apply model_view_runFrame.
Qed.

Lemma setVariant_model (name : string) (s : State) (g : Group) :
  modelGroup s = Some g ->
  originalMaterials (setVariant name s) = originalMaterials s
  /\ variantMaterialsByName (setVariant name s) = variantMaterialsByName s
  /\ exists g', modelGroup (setVariant name s) = Some g' /\ same_shape (nodes g) (nodes g').
Proof.
  intros Hg.
  assert (Hshape : forall f : Object3D -> Object3D,
             (forall node, uuid (f node) = uuid node
                           /\ (material (f node) = None <-> material node = None)) ->
             same_shape (nodes g) (nodes (traverse f g))).
  { intros f Hf. unfold same_shape, traverse. simpl.
    apply Forall2_map_self. intros node. destruct (Hf node) as [Hu Hm].
    split; [auto | tauto]. }
  unfold setVariant, applyVariantFromKHR, applyVariantFromName, restoreOriginalMaterials.
  rewrite Hg.
  destruct (Nat.eqb _ 0); simpl; rewrite ?Hg.
  { split; [reflexivity |]. split; [reflexivity |]. eexists. split; [reflexivity |].
    apply Hshape. intros node. destruct (material node) eqn:Hm; [| now rewrite Hm].
    destruct (originalMaterials s !! uuid node); simpl; [| now rewrite Hm].
    split; [reflexivity | split; congruence]. }
  destruct (map_has (variantMaterialsKHR s) (trim name)); simpl; rewrite ?Hg.
  { destruct (variantMaterialsKHR s !! trim name) as [vm |]; simpl; rewrite ?Hg.
    - split; [reflexivity |]. split; [reflexivity |]. eexists. split; [reflexivity |].
      apply Hshape. intros node. destruct (material node) eqn:Hm; [| now rewrite Hm].
      destruct (vm !! uuid node); simpl; [split; [reflexivity | split; congruence] |].
      destruct (originalMaterials s !! uuid node); simpl; [| now rewrite Hm].
      split; [reflexivity | split; congruence].
    - split; [reflexivity |]. split; [reflexivity |]. exists g. split; [reflexivity |].
      apply Forall2_same_length_lookup_2; [reflexivity |]. intros i a b Ha Hb.
      rewrite Ha in Hb. injection Hb as <-. tauto. }
  destruct (map_has (variantMaterialsByName s) (trim name)); simpl; rewrite ?Hg.
  { destruct (variantMaterialsByName s !! trim name) as [vm |]; simpl; rewrite ?Hg.
    - split; [reflexivity |]. split; [reflexivity |]. eexists. split; [reflexivity |].
      apply Hshape. intros node. destruct (material node) eqn:Hm; [| now rewrite Hm].
      destruct (vm !! uuid node); simpl; [split; [reflexivity | split; congruence] |].
      now rewrite Hm.
    - split; [reflexivity |]. split; [reflexivity |]. exists g. split; [reflexivity |].
      apply Forall2_same_length_lookup_2; [reflexivity |]. intros i a b Ha Hb.
      rewrite Ha in Hb. injection Hb as <-. tauto. }
  split; [reflexivity |]. split; [reflexivity |]. eexists. split; [reflexivity |].
  apply Hshape. intros node. destruct (material node) eqn:Hm; [| now rewrite Hm].
  destruct (originalMaterials s !! uuid node); simpl; [| now rewrite Hm].
  split; [reflexivity | split; congruence].
Qed.

Lemma NoDup_map_same {A B : Type} (f : A -> B) (l : list A) (a b : A) :
  NoDup (map f l) -> In a l -> In b l -> f a = f b -> a = b.
Proof.
  induction l as [| x l IH]; simpl; [tauto |].
  intros Hnd Ha Hb Hf. apply NoDup_cons in Hnd as [Hx Hnd].
  destruct Ha as [<- | Ha], Hb as [<- | Hb]; auto.
  - exfalso. apply Hx. apply list_elem_of_In. apply in_map_iff. exists b. auto.
  - exfalso. apply Hx. apply list_elem_of_In. apply in_map_iff. exists a. auto.
Qed.

Lemma same_shape_refl (l : list Object3D) : same_shape l l.
Proof. induction l; constructor; [tauto | assumption]. Qed.

Lemma same_shape_trans (l1 l2 l3 : list Object3D) :
  same_shape l1 l2 -> same_shape l2 l3 -> same_shape l1 l3.
Proof.
  unfold same_shape. intros H12. revert l3.
  induction H12 as [| a b l1 l2 [Hu Hm] _ IH]; intros l3 H23; inversion H23; subst.
  - constructor.
  - constructor; [| apply IH; assumption].
    match goal with H : _ /\ _ |- _ => destruct H as [Hu' Hm'] end.
    split; [congruence | tauto].
Qed.

(** Restoring puts back the objects the originals were captured from. *)
Lemma restore_gives_loaded (objs : list Object3D) (s : State) (g : Group) :
  modelGroup s = Some g ->
  same_shape objs (nodes g) ->
  (forall obj slot, In obj objs -> material obj = Some slot ->
                    originalMaterials s !! uuid obj = Some slot) ->
  option_map nodes (modelGroup (restoreOriginalMaterials s)) = Some objs.
Proof.
  intros Hg Hshape Horig. unfold restoreOriginalMaterials. rewrite Hg. simpl.
  f_equal. unfold same_shape in Hshape.
  induction Hshape as [| obj b objs' bs [Hu Hm] _ IH]; simpl; [reflexivity |].
  f_equal.
  - destruct (material b) as [cur |] eqn:Hb.
    + destruct (material obj) as [slot |] eqn:Ho; [| exfalso; destruct Hm as [Hm _];
        specialize (Hm eq_refl); discriminate].
      rewrite <- Hu, (Horig obj slot) by (auto; left; reflexivity).
      unfold set_material. rewrite <- Hu. destruct obj; simpl in *. congruence.
    + destruct Hm as [_ Hm]. specialize (Hm eq_refl).
      destruct obj, b; simpl in *. congruence.
  - apply IH. intros o slot Hin. apply Horig. right. exact Hin.
Qed.

Lemma keeps_model_step (a : Action) (s : State) (objs : list Object3D) (g : Group) :
  keeps_model a = true ->
  modelGroup s = Some g ->
  same_shape objs (nodes g) ->
  originalMaterials (perform a s) = originalMaterials s
  /\ variantMaterialsByName (perform a s) = variantMaterialsByName s
  /\ exists g', modelGroup (perform a s) = Some g' /\ same_shape objs (nodes g').
Proof.
  intros Ha Hg Hshape.
  destruct (keeps_materials a) eqn:Hk.
  - pose proof (keeps_materials_step a s Hk) as Hview. unfold model_view in Hview.
    injection Hview as Hn Ho Hb. rewrite Hg in Hn. simpl in Hn.
    split; [exact Ho |]. split; [exact Hb |].
    destruct (modelGroup (perform a s)) as [g' |]; [| discriminate].
    exists g'. split; [reflexivity |]. simpl in Hn. injection Hn as ->. exact Hshape.
  - destruct a; simpl in Ha, Hk; try discriminate. simpl.
    destruct (setVariant_model name s g Hg) as (Ho & Hb & g' & Hg' & Hs).
    split; [exact Ho |]. split; [exact Hb |].
    exists g'. split; [exact Hg' |]. eapply same_shape_trans; eassumption.
Qed.

Lemma keeps_model_run (actions : list Action) (s : State) (objs : list Object3D) (g : Group) :
  forallb keeps_model actions = true ->
  modelGroup s = Some g ->
  same_shape objs (nodes g) ->
  originalMaterials (run actions s) = originalMaterials s
  /\ variantMaterialsByName (run actions s) = variantMaterialsByName s
  /\ exists g', modelGroup (run actions s) = Some g' /\ same_shape objs (nodes g').
Proof.
  revert s g. induction actions as [| a actions IH]; intros s g Hall Hg Hshape; simpl.
  - split; [reflexivity |]. split; [reflexivity |]. exists g. auto.
  - simpl in Hall. apply andb_prop in Hall as [Ha Hall].
    destruct (keeps_model_step a s objs g Ha Hg Hshape) as (Ho & Hb & g1 & Hg1 & Hs1).
    destruct (IH (perform a s) g1 Hall Hg1 Hs1) as (Ho' & Hb' & g2 & Hg2 & Hs2).
    split; [congruence |]. split; [congruence |]. exists g2. auto.
Qed.

Lemma setVariant_blank (s : State) (g : Group) :
  modelGroup s = Some g ->
  setVariant "" s = restoreOriginalMaterials (set_currentVariant None s).
Proof. intros Hg. unfold setVariant. rewrite Hg. reflexivity. Qed.

(** X15: after a load, whatever variants were selected and whatever else
    happened in between, short of a new source, another load or disposal,
    [setVariant ""] brings every node back to exactly the object the asset
    came with, and leaves no variant current. *)
Theorem unset_restores_loaded_materials
  (gltf : Gltf) (s : State) (g0 : Group) (actions : list Action) :
  scene s = true ->
  modelGroup s = Some g0 ->
  NoDup (scene_uuids gltf) ->
  forallb keeps_model actions = true ->
  let later := run actions (fst (setSrc_loaded gltf s)) in
  option_map nodes (modelGroup (setVariant "" later))
  = Some (map object (gltf_scene gltf))
  /\ currentVariant (setVariant "" later) = None.
Proof.
  intros Hs Hg Hnd Hall later.
  destruct (loaded_state gltf s g0 Hs Hg Hnd) as (Hmg & _ & _ & Horig & _).
  set (loaded := fst (setSrc_loaded gltf s)) in *.
  destruct (keeps_model_run actions loaded (map object (gltf_scene gltf)) _ Hall Hmg
              (same_shape_refl _)) as (Ho & _ & g' & Hg' & Hshape).
  fold later in Ho, Hg'.
  rewrite (setVariant_blank later g' Hg').
  split.
  - apply (restore_gives_loaded _ (set_currentVariant None later) g');
      [exact Hg' | exact Hshape |].
    intros obj slot Hin Hm. simpl. rewrite Ho. apply Horig.
    apply in_map_iff in Hin as (node & <- & Hin). exists node. auto.
  - unfold restoreOriginalMaterials. simpl. rewrite Hg'. reflexivity.
Qed.

Lemma unset_restores_loaded_materials_witness :
  currentVariant
    (setVariant "" (run [SetVariant "Red"; Wheel (mkWheelEvent 100)] showroom_loaded))
  = None.
Proof.
  assert (Hscene : scene (constructor true "cube") = true) by (vm_compute; reflexivity).
  assert (Hmodel : modelGroup (constructor true "cube")
                   = Some (mkGroup 0 0
                             [mkObject3D "cube" (Some (Single (mkMaterial "cube" "")))]))
    by (vm_compute; reflexivity).
  assert (Hunique : NoDup (scene_uuids showroom))
    by (apply (bool_decide_unpack _); vm_compute; exact I).
  assert (Hkeeps : forallb keeps_model [SetVariant "Red"; Wheel (mkWheelEvent 100)] = true)
    by reflexivity.
  pose proof (unset_restores_loaded_materials showroom (constructor true "cube") _
                [SetVariant "Red"; Wheel (mkWheelEvent 100)]
                Hscene Hmodel Hunique Hkeeps) as (_ & Hmarker).
  exact Hmarker.
Defined.

Lemma keeps_materials_run (actions : list Action) (s : State) :
  forallb keeps_materials actions = true -> model_view (run actions s) = model_view s.
Proof.
  revert s. induction actions as [| a actions IH]; intros s Hall; simpl; [reflexivity |].
  simpl in Hall. apply andb_prop in Hall as [Ha Hall].
  rewrite IH by exact Hall. apply keeps_materials_step, Ha.
Qed.

Lemma map_id_on {A : Type} (f : A -> A) (l : list A) :
  (forall a, In a l -> f a = a) -> map f l = l.
Proof.
  induction l as [| a l IH]; simpl; intros Hf; [reflexivity |].
  rewrite Hf by (left; reflexivity). f_equal. apply IH. intros b Hb. apply Hf. right. exact Hb.
Qed.

(** X16: the naming table alone never changes what is displayed.  On a
    freshly loaded asset on which no variant has been selected yet,
    selecting a name the structured table does not know leaves every node as
    it was loaded, since the substitute registered for a mesh is the material
    it came with; the name still becomes current when the naming table knows
    it. *)
Theorem only_structured_variants_change_a_fresh_model
  (gltf : Gltf) (s : State) (g0 : Group) (actions : list Action) (name : string) :
  scene s = true ->
  modelGroup s = Some g0 ->
  NoDup (scene_uuids gltf) ->
  forallb keeps_materials actions = true ->
  let later := run actions (fst (setSrc_loaded gltf s)) in
  variantMaterialsKHR later !! trim name = None ->
  option_map nodes (modelGroup later) = Some (map object (gltf_scene gltf))
  /\ option_map nodes (modelGroup (setVariant name later))
     = Some (map object (gltf_scene gltf))
  /\ currentVariant (setVariant name later)
     = (if Nat.eqb (String.length (trim name)) 0 then None
        else if map_has (variantMaterialsByName later) (trim name)
             then Some (trim name) else None).
Proof.
  intros Hs Hg Hnd Hall later Hkhr.
  destruct (loaded_state gltf s g0 Hs Hg Hnd) as (Hmg & _ & _ & Horig & Hnames).
  set (loaded := fst (setSrc_loaded gltf s)) in *.
  pose proof (keeps_materials_run actions loaded Hall) as Hview.
  fold later in Hview. unfold model_view in Hview. injection Hview as Hn Ho Hb.
  rewrite Hmg in Hn. simpl in Hn.
  destruct (modelGroup later) as [g |] eqn:Hlater; [| discriminate].
  simpl in Hn. injection Hn as Hnodes.
  split; [simpl; now rewrite Hnodes |].
  assert (Hrestore : option_map nodes
                       (modelGroup (restoreOriginalMaterials (set_currentVariant None later)))
                     = Some (map object (gltf_scene gltf))).
  { apply (restore_gives_loaded _ _ g); [exact Hlater | |].
    - rewrite Hnodes. apply same_shape_refl.
    - intros obj slot Hin Hm. simpl. rewrite Ho. apply Horig.
      apply in_map_iff in Hin as (node & <- & Hin). exists node. auto. }
  assert (Hcur : currentVariant (restoreOriginalMaterials (set_currentVariant None later))
                 = None).
  { unfold restoreOriginalMaterials. simpl. rewrite Hlater. reflexivity. }
  unfold setVariant. rewrite Hlater.
  destruct (Nat.eqb (String.length (trim name)) 0); [split; assumption |].
  rewrite (map_has_false _ _ Hkhr).
  destruct (variantMaterialsByName later !! trim name) as [vm |] eqn:Hvm.
  - rewrite (map_has_true _ _ _ Hvm). split; [| reflexivity].
    unfold applyVariantFromName. simpl. rewrite Hlater, Hvm. simpl.
    f_equal. rewrite Hnodes. apply map_id_on. intros obj Hin.
    destruct (material obj) as [cur |] eqn:Hm; [| reflexivity].
    destruct (vm !! uuid obj) as [m |] eqn:Hentry; [| reflexivity].
    assert (He : entry (variantMaterialsByName loaded) (trim name) (uuid obj) = Some m).
    { unfold entry. rewrite <- Hb, Hvm. exact Hentry. }
    apply Hnames in He as (node & Hnode & Hu & Hmat & _).
    apply in_map_iff in Hin as (node' & <- & Hin').
    assert (node = node').
    { apply (NoDup_map_same (fun n => uuid (object n)) (gltf_scene gltf)); auto. }
    subst node'. unfold set_material. destruct (object node); simpl in *. congruence.
  - rewrite (map_has_false _ _ Hvm). split; assumption.
Qed.

Lemma only_structured_variants_change_a_fresh_model_witness :
  option_map nodes
    (modelGroup
       (setVariant "Red" (run [PointerDown (mkPointerEvent 1 0 0)] showroom_loaded)))
  = Some (map object (gltf_scene showroom)).
Proof.
  assert (Hscene : scene (constructor true "cube") = true) by (vm_compute; reflexivity).
  assert (Hmodel : modelGroup (constructor true "cube")
                   = Some (mkGroup 0 0
                             [mkObject3D "cube" (Some (Single (mkMaterial "cube" "")))]))
    by (vm_compute; reflexivity).
  assert (Hunique : NoDup (scene_uuids showroom))
    by (apply (bool_decide_unpack _); vm_compute; exact I).
  assert (Hkeeps : forallb keeps_materials [PointerDown (mkPointerEvent 1 0 0)] = true)
    by reflexivity.
  assert (Hnone : variantMaterialsKHR
                    (run [PointerDown (mkPointerEvent 1 0 0)]
                       (fst (setSrc_loaded showroom (constructor true "cube"))))
                    !! trim "Red" = None)
    by (vm_compute; reflexivity).
  pose proof (only_structured_variants_change_a_fresh_model showroom
                (constructor true "cube") _ [PointerDown (mkPointerEvent 1 0 0)] "Red"
                Hscene Hmodel Hunique Hkeeps Hnone) as (_ & Hsame & _).
  exact Hsame.
Defined.

(** ** Variant names in material names *)

Section VariantNames.
Local Close Scope R_scope.

Lemma trimEnd_idempotent (s : string) : trimEnd (trimEnd s) = trimEnd s.
Proof.
  induction s as [| c r IH]; simpl; [reflexivity |].
  destruct (trimEnd r) as [| c' r'] eqn:Hr.
  - destruct (is_space c) eqn:Hc; simpl; [reflexivity | now rewrite Hc].
  - simpl in *. rewrite IH. reflexivity.
Qed.

Lemma trimStart_head (s : string) :
  match trimStart s with
  | EmptyString => True
  | String c _ => is_space c = false
  end.
Proof.
  induction s as [| c r IH]; simpl; [exact I |].
  destruct (is_space c) eqn:Hc; [exact IH | exact Hc].
Qed.

Lemma trimStart_fixed (s : string) :
  match s with
  | EmptyString => True
  | String c _ => is_space c = false
  end ->
  trimStart s = s.
Proof. destruct s as [| c r]; simpl; [reflexivity |]. intros ->. reflexivity. Qed.

Lemma trimEnd_head (s : string) :
  match s with
  | EmptyString => True
  | String c _ => is_space c = false
  end ->
  match trimEnd s with
  | EmptyString => True
  | String c _ => is_space c = false
  end.
Proof.
  destruct s as [| c r]; simpl; [auto |]. intros Hc.
  destruct (trimEnd r); [rewrite Hc |]; exact Hc.
Qed.

Lemma trim_idempotent (s : string) : trim (trim s) = trim s.
Proof.
  unfold trim.
  rewrite (trimStart_fixed (trimEnd (trimStart s))).
  - apply trimEnd_idempotent.
  - apply trimEnd_head, trimStart_head.
Qed.

Lemma trim_empty : trim "" = ""%string.
Proof. reflexivity. Qed.

Local Open Scope string_scope.

Lemma split_cut (r : string) :
  split_underscores (String "_" (String "_" r)) = "" :: split_underscores r.
Proof. reflexivity. Qed.

Lemma split_keep (c : ascii) (r : string) :
  (c <> "_"%char \/ match r with String c' _ => c' <> "_"%char | EmptyString => True end) ->
  split_underscores (String c r) = cons_head c (split_underscores r).
Proof.
  intros Hkeep. simpl. unfold cons_head.
  destruct (Ascii.eqb c "_") eqn:Hc; [| reflexivity].
  apply Ascii.eqb_eq in Hc. subst c.
  destruct Hkeep as [Hc | Hr]; [congruence |].
  destruct r as [| c' r']; [reflexivity |].
  destruct (Ascii.eqb c' "_") eqn:Hc'; [| reflexivity].
  apply Ascii.eqb_eq in Hc'. congruence.
Qed.

Lemma split_nonempty (s : string) : split_underscores s <> [].
Proof.
  induction s as [| c r IH]; simpl; [discriminate |].
  destruct (split_underscores r) as [| p ps]; [contradiction |].
  destruct (Ascii.eqb c "_"); [| discriminate].
  destruct r as [| c' r']; [discriminate |].
  destruct (Ascii.eqb c' "_"); discriminate.
Qed.

Lemma cons_head_length (c : ascii) (parts : list string) :
  parts <> [] -> length (cons_head c parts) = length parts.
Proof. destruct parts; [contradiction | reflexivity]. Qed.

Lemma cons_head_last (c : ascii) (parts : list string) :
  (2 <= length parts)%nat -> List.last (cons_head c parts) "" = List.last parts "".
Proof. destruct parts as [| p [| q ps]]; simpl; try lia. reflexivity. Qed.

(** Either the text starts with "__" or its first character is kept. *)
Lemma split_cases (c : ascii) (r : string) :
  (exists r', c = "_"%char /\ r = String "_" r')
  \/ split_underscores (String c r) = cons_head c (split_underscores r).
Proof.
  destruct (Ascii.eqb c "_") eqn:Hc.
  - apply Ascii.eqb_eq in Hc. subst c.
    destruct r as [| c' r'].
    + right. apply split_keep. right. exact I.
    + destruct (Ascii.eqb c' "_") eqn:Hc'.
      * apply Ascii.eqb_eq in Hc'. subst c'. left. eauto.
      * right. apply split_keep. right. apply Ascii.eqb_neq. exact Hc'.
  - right. apply split_keep. left. apply Ascii.eqb_neq. exact Hc.
Qed.

Lemma split_single (s : string) :
  (forall a b, s <> a ++ "__" ++ b) -> split_underscores s = [s].
Proof.
  induction s as [| c r IH]; intros Hfree; [reflexivity |].
  destruct (split_cases c r) as [(r' & -> & ->) | Hkeep].
  - exfalso. apply (Hfree "" r'). reflexivity.
  - rewrite Hkeep, IH; [reflexivity |].
    intros a b ->. apply (Hfree (String c a) b). reflexivity.
Qed.

Lemma split_contains (s : string) :
  (2 <= length (split_underscores s))%nat -> exists a b, s = a ++ "__" ++ b.
Proof.
  induction s as [| c r IH]; intros Hlen; [simpl in Hlen; lia |].
  destruct (split_cases c r) as [(r' & -> & ->) | Hkeep].
  - exists "", r'. reflexivity.
  - rewrite Hkeep, cons_head_length in Hlen by apply split_nonempty.
    destruct (IH Hlen) as (a & b & ->). exists (String c a), b. reflexivity.
Qed.

Lemma split_several (a b : string) :
  (2 <= length (split_underscores (a ++ "__" ++ b)))%nat.
Proof.
  induction a as [| c a IH].
  - change ("" ++ "__" ++ b) with (String "_" (String "_" b)). rewrite split_cut.
    pose proof (split_nonempty b). destruct (split_underscores b); simpl; [contradiction | lia].
  - change (String c a ++ "__" ++ b) with (String c (a ++ "__" ++ b)).
    destruct (split_cases c (a ++ "__" ++ b)) as [(r' & -> & Hr) | Hkeep].
    + rewrite Hr, split_cut.
      pose proof (split_nonempty r'). destruct (split_underscores r'); simpl;
        [contradiction | lia].
    + rewrite Hkeep, cons_head_length by apply split_nonempty. exact IH.
Qed.

Lemma split_last (n : nat) (base suffix : string) :
  (String.length base <= n)%nat ->
  (forall r, base <> r ++ "_") ->
  (forall a b, suffix <> a ++ "__" ++ b) ->
  List.last (split_underscores (base ++ "__" ++ suffix)) "" = suffix.
Proof.
  revert base. induction n as [| n IH]; intros base Hlen Hend Hfree.
  - destruct base; [| simpl in Hlen; lia].
    change ("" ++ "__" ++ suffix) with (String "_" (String "_" suffix)).
    rewrite split_cut, (split_single suffix Hfree). reflexivity.
  - destruct base as [| c base'].
    + change ("" ++ "__" ++ suffix) with (String "_" (String "_" suffix)).
      rewrite split_cut, (split_single suffix Hfree). reflexivity.
    + change (String c base' ++ "__" ++ suffix) with (String c (base' ++ "__" ++ suffix)).
      destruct (split_cases c (base' ++ "__" ++ suffix)) as [(r' & -> & Hr) | Hkeep].
      * destruct base' as [| c' base''].
        { exfalso. apply (Hend ""). reflexivity. }
        simpl in Hr. injection Hr as -> Hr. subst r'.
        change (String "_" base'' ++ "__" ++ suffix)
          with (String "_" (base'' ++ "__" ++ suffix)).
        rewrite split_cut.
        assert (Hl : List.last (split_underscores (base'' ++ "__" ++ suffix)) "" = suffix).
        { apply IH; [simpl in Hlen; lia | | exact Hfree].
          intros r ->. apply (Hend (String "_" (String "_" r))). reflexivity. }
        pose proof (split_several base'' suffix) as Hmany.
        destruct (split_underscores (base'' ++ "__" ++ suffix)) as [| p ps];
          [simpl in Hmany; lia | exact Hl].
      * rewrite Hkeep, cons_head_last by apply split_several.
        apply IH; [simpl in Hlen; lia | | exact Hfree].
        intros r ->. apply (Hend (String c r)). reflexivity.
Qed.

(** X17: for a material name [base__suffix], where [base] does not end in
    an underscore and [suffix] contains no double underscore,
    [extractVariantName] answers the suffix, trimmed.  A name without a
    double underscore has no variant part.  Whatever is answered is trimmed,
    and the name then contains a double underscore. *)
Theorem extractVariantName_suffix (base suffix : string) :
  (forall r, base <> r ++ "_") ->
  (forall a b, suffix <> a ++ "__" ++ b) ->
  extractVariantName (base ++ "__" ++ suffix) = Some (trim suffix)
  /\ (forall name : string,
         (forall a b, name <> a ++ "__" ++ b) -> extractVariantName name = None)
  /\ (forall name v : string,
         extractVariantName name = Some v ->
         trim v = v /\ exists a b, name = a ++ "__" ++ b).
Proof.
  intros Hend Hfree. split; [| split].
  - unfold extractVariantName.
    assert (Hlen : Nat.eqb (String.length (base ++ "__" ++ suffix)) 0 = false).
    { destruct base; reflexivity. }
    rewrite Hlen.
    pose proof (split_several base suffix) as Hmany.
    apply Nat.ltb_ge in Hmany. rewrite Hmany.
    now rewrite (split_last (String.length base) base suffix (le_n _) Hend Hfree).
  - intros name Hname. unfold extractVariantName.
    destruct (Nat.eqb (String.length name) 0); [reflexivity |].
    now rewrite (split_single name Hname).
  - intros name v. unfold extractVariantName.
    destruct (Nat.eqb (String.length name) 0); [discriminate |].
    destruct (Nat.ltb (length (split_underscores name)) 2) eqn:Hlt; [discriminate |].
    intros Hv. injection Hv as <-. split; [apply trim_idempotent |].
    apply split_contains. apply Nat.ltb_ge. exact Hlt.
Qed.

Lemma extractVariantName_suffix_witness :
  extractVariantName ("Paint__ Red" ++ String NBSP "") = Some "Red".
Proof.
  assert (Hbase : forall r, "Paint" <> r ++ "_").
  { intros r H.
    repeat (destruct r as [| ? r]; simpl in H; [discriminate H |];
            try discriminate H; injection H as _ H). }
  assert (Hsuffix : forall a b, " Red" ++ String NBSP "" <> a ++ "__" ++ b).
  { intros a b H. vm_compute in H.
    repeat (destruct a as [| ? a]; simpl in H; [discriminate H |];
            try discriminate H; injection H as _ H). }
  pose proof (extractVariantName_suffix "Paint" (" Red" ++ String NBSP "") Hbase Hsuffix)
    as (Hname & _).
  exact Hname.
Defined.

End VariantNames.

(** ** Materials of the variants extension *)

(** X18: when a material promised for a variant and a mesh resolves,
    exactly that entry of the structured table is written; model, originals,
    naming table and current variant are left alone.  Selecting the variant
    (a non-empty trimmed name) while a model is present then makes it
    current and gives that mesh the resolved material. *)
Theorem resolved_material_is_selectable
  (s : State) (task : Task) (m : Material) (g : Group) :
  modelGroup s = Some g ->
  trim (task_variant task) = task_variant task ->
  task_variant task <> ""%string ->
  let s1 := resolved task m s in
  let s2 := setVariant (task_variant task) s1 in
  entry (variantMaterialsKHR s1) (task_variant task) (task_node task) = Some m
  /\ (forall key node : string,
         key <> task_variant task \/ node <> task_node task ->
         entry (variantMaterialsKHR s1) key node = entry (variantMaterialsKHR s) key node)
  /\ (modelGroup s1 = modelGroup s
      /\ originalMaterials s1 = originalMaterials s
      /\ variantMaterialsByName s1 = variantMaterialsByName s
      /\ currentVariant s1 = currentVariant s)
  /\ currentVariant s2 = Some (task_variant task)
  /\ exists g',
      modelGroup s2 = Some g'
      /\ Forall2
           (fun before after =>
              uuid after = uuid before
              /\ (uuid before = task_node task ->
                  material before <> None ->
                  material after = Some (Single m)))
           (nodes g) (nodes g').
Proof.
  intros Hg Htrim Hne s1 s2. subst s2 s1.
  set (s1 := resolved task m s).
  assert (Hg1 : modelGroup s1 = Some g) by exact Hg.
  assert (Ho1 : originalMaterials s1 = originalMaterials s) by reflexivity.
  assert (He : forall key node,
             entry (variantMaterialsKHR s1) key node
             = if decide (task_variant task = key /\ task_node task = node)
               then Some m else entry (variantMaterialsKHR s) key node)
    by (intros; apply entry_register).
  split; [rewrite He, decide_True by auto; reflexivity |].
  split.
  { intros key node Hother. rewrite He, decide_False; [reflexivity |].
    intros [<- <-]. destruct Hother; congruence. }
  split; [repeat split; reflexivity |].
  assert (Hsel : exists vm,
             variantMaterialsKHR s1 !! task_variant task = Some vm
             /\ vm !! task_node task = Some m).
  { pose proof (He (task_variant task) (task_node task)) as H.
    rewrite decide_True in H by auto. unfold entry in H.
    destruct (variantMaterialsKHR s1 !! task_variant task) as [vm |]; [| discriminate].
    exists vm. auto. }
  destruct Hsel as (vm & Hvm & Hnode).
  clearbody s1.
  unfold setVariant. rewrite Hg1, Htrim.
  rewrite (nonblank_length _ Hne), (map_has_true _ _ _ Hvm).
  split; [reflexivity |].
  unfold applyVariantFromKHR. simpl modelGroup. rewrite Hg1, Hvm, Ho1. simpl.
  eexists. split; [reflexivity |]. simpl.
  apply Forall2_map_self. intros node.
  destruct (material node) eqn:Hm.
  - destruct (decide (uuid node = task_node task)) as [Hu | Hu].
    + rewrite Hu, Hnode. simpl. split; [exact Hu | auto].
    + destruct (vm !! uuid node); [simpl; split; [reflexivity | tauto] |].
      destruct (originalMaterials s !! uuid node); simpl; split; try reflexivity; tauto.
  - split; [reflexivity |]. intros _ Hno. congruence.
Qed.

Lemma resolved_material_is_selectable_witness :
  currentVariant
    (setVariant "Blue"
       (resolved (mkTask "Blue" "body" 3) (mkMaterial "blue" "Blue paint") showroom_loaded))
  = Some "Blue"%string.
Proof.
  assert (Hmodel : modelGroup showroom_loaded
                   = Some (mkGroup 0 0 (map object (gltf_scene showroom))))
    by (vm_compute; reflexivity).
  assert (Htrimmed : trim (task_variant (mkTask "Blue" "body" 3))
                     = task_variant (mkTask "Blue" "body" 3)) by reflexivity.
  assert (Hnonempty : task_variant (mkTask "Blue" "body" 3) <> ""%string)
    by discriminate.
  pose proof (resolved_material_is_selectable showroom_loaded (mkTask "Blue" "body" 3)
                (mkMaterial "blue" "Blue paint") _ Hmodel Htrimmed Hnonempty)
    as (_ & _ & _ & Hmarker & _).
  exact Hmarker.
Defined.

(** ** Sources, late loads and promises *)

Lemma currentVariant_setVariant (name : string) (s : State) :
  currentVariant (setVariant name s) = currentVariant s
  \/ currentVariant (setVariant name s) = None
  \/ (currentVariant (setVariant name s) = Some (trim name) /\ trim name <> ""%string).
Proof.
  unfold setVariant. destruct (modelGroup s) eqn:Hg; [| auto].
  destruct (Nat.eqb (String.length (trim name)) 0) eqn:Hlen.
  - right. left. unfold restoreOriginalMaterials. simpl. now rewrite Hg.
  - assert (Hne : trim name <> ""%string) by (intros E; rewrite E in Hlen; discriminate).
    destruct (map_has (variantMaterialsKHR s) (trim name)); [right; right; auto |].
    destruct (map_has (variantMaterialsByName s) (trim name)); [right; right; auto |].
    right. left. unfold restoreOriginalMaterials. simpl. now rewrite Hg.
Qed.

Lemma currentVariant_clearModel (s : State) :
  currentVariant (clearModel s) = currentVariant s \/ currentVariant (clearModel s) = None.
Proof.
  unfold clearModel. destruct (scene s); simpl; [| auto]. destruct (modelGroup s); auto.
Qed.

Lemma currentVariant_prepareVariants (gltf : Gltf) (s : State) :
  currentVariant (fst (prepareVariants gltf s)) = currentVariant s.
Proof.
  unfold prepareVariants. simpl fst.
  destruct (fold_visit_rest (gltf_scene gltf)
              (set_originalMaterials ∅
                 (set_variantMaterialsByName ∅ (set_variantMaterialsKHR ∅ s))))
    as (_ & -> & _).
  reflexivity.
Qed.

Lemma currentVariant_step (a : Action) (s : State) :
  currentVariant (perform a s) = currentVariant s
  \/ currentVariant (perform a s) = None
  \/ exists name, currentVariant (perform a s) = Some (trim name) /\ trim name <> ""%string.
Proof.
  destruct a; simpl; try (left; reflexivity).
  - left. unfold setPreset. destruct (List.find _ _); reflexivity.
  - destruct (currentVariant_setVariant name s) as [H | [H | H]]; eauto.
  - unfold setSrc_begin. destruct (_ || _); [auto |].
    assert (Hcube : forall u, currentVariant (loadDefaultCube u s) = currentVariant s
                              \/ currentVariant (loadDefaultCube u s) = None).
    { intros u. unfold loadDefaultCube. destruct (scene s); [| auto].
      apply currentVariant_clearModel. }
    destruct src as [url |]; [destruct (Nat.eqb _ 0) |]; simpl; auto;
      destruct (Hcube mesh_uuid); auto.
  - unfold setSrc_loaded. destruct (negb _).
    + simpl. destruct (currentVariant_clearModel s); auto.
    + rewrite currentVariant_prepareVariants. simpl.
      destruct (currentVariant_clearModel s); auto.
  - destruct (listeners s); [| auto]. left.
    unfold onPointerDown. destruct (renderer s); simpl negb; cbv iota; [| reflexivity].
    cbv zeta. simpl pointers.
    destruct (Nat.eqb _ 1); simpl pointers; destruct (Nat.eqb _ 2);
      try destruct (JsMap.values _) as [| p0 [| p1 rest]]; reflexivity.
  - destruct (listeners s); [| auto]. left.
    unfold onPointerMove. destruct (renderer s); simpl negb; cbv iota; [| reflexivity].
    destruct (JsMap.get _ _) as [prev |]; [| reflexivity]. cbv zeta.
    simpl pointers. simpl dragging. simpl zoomEnabled.
    destruct (_ && dragging s); unfold updateModelRotation; simpl modelGroup;
      try destruct (modelGroup s); simpl pointers; simpl zoomEnabled;
      destruct (_ && zoomEnabled s); try reflexivity;
      destruct (JsMap.values _) as [| p0 [| p1 rest]]; try reflexivity;
      destruct (Rgt_dec _ 0.5); try reflexivity;
      unfold updateDistance; simpl; destruct (camera s); reflexivity.
  - destruct (listeners s); [| auto]. left.
    unfold onPointerUp. destruct (renderer s); simpl negb; cbv iota; [| reflexivity].
    cbv zeta. simpl pointers. simpl dragging.
    destruct (_ && _); [| reflexivity]. destruct (findNearestPreset _); reflexivity.
  - destruct (listeners s); [| auto]. left.
    unfold onWheel. destruct (zoomEnabled s); simpl; [| reflexivity].
    unfold updateDistance. simpl. destruct (camera s); reflexivity.
  - left. unfold runFrame. destruct (existsb _ _); [| reflexivity].
    unfold render, requestAnimationFrame. simpl.
    unfold updateSnap. simpl. destruct (active (snap s)); simpl; [| reflexivity].
    unfold updateModelRotation. simpl.
    destruct (modelGroup s); destruct (Rge_dec _ 1); reflexivity.
  - left. unfold dispose, stopRenderLoop. destruct (animationHandle s); reflexivity.
Qed.

(** X19: in every state a viewer can reach, the variant [getState]
    reports, if any, is a non-empty name without surrounding white space. *)
Theorem current_variant_is_a_trimmed_name
  (webgl : bool) (mesh_uuid : string) (actions : list Action) (v : string) :
  let s := run actions (constructor webgl mesh_uuid) in
  state_variant (getState s) = Some v ->
  trim v = v /\ v <> ""%string.
Proof.
  intros s. unfold getState. simpl. unfold s. clear s.
  assert (Hinit : forall w, currentVariant (constructor webgl mesh_uuid) = Some w ->
                            trim w = w /\ w <> ""%string).
  { intros w. destruct webgl; vm_compute; discriminate. }
  revert Hinit. generalize (constructor webgl mesh_uuid). intros s Hs. revert s Hs v.
  induction actions as [| a actions IH]; intros s Hs v; simpl; [apply Hs |].
  apply IH. intros w Hw.
  destruct (currentVariant_step a s) as [H | [H | (name & H & Hne)]].
  - apply Hs. congruence.
  - congruence.
  - rewrite H in Hw. injection Hw as <-. split; [apply trim_idempotent | exact Hne].
Qed.

Lemma current_variant_is_a_trimmed_name_witness :
  state_variant
    (getState (run [Loaded showroom; SetVariant " Red "] (constructor true "cube")))
  = Some "Red"%string
  /\ trim "Red" = "Red"%string.
Proof.
  assert (Hselected : state_variant
                        (getState (run [Loaded showroom; SetVariant " Red "]
                                     (constructor true "cube")))
                      = Some "Red"%string) by (vm_compute; reflexivity).
  pose proof (current_variant_is_a_trimmed_name true "cube"
                [Loaded showroom; SetVariant " Red "] "Red" Hselected) as (Htrimmed & _).
  split; [exact Hselected | exact Htrimmed].
Defined.

(** X20: [setSrc] with [null] or a blank source, on a live viewer with a
    model, replaces the model by the placeholder cube and starts no load.
    The three tables are empty and no variant is current; orientation and
    distance are kept; [setVariant] with any name then changes no node and
    leaves no variant current. *)
Theorem blank_source_shows_plain_cube
  (s : State) (g0 : Group) (src : option string) (mesh_uuid name : string) :
  scene s = true -> camera s = true -> renderer s = true ->
  modelGroup s = Some g0 ->
  src = None \/ (exists url, src = Some url /\ trim url = ""%string) ->
  let s' := fst (setSrc_begin src mesh_uuid s) in
  snd (setSrc_begin src mesh_uuid s) = false
  /\ option_map nodes (modelGroup s')
     = Some [mkObject3D mesh_uuid (Some (Single (mkMaterial mesh_uuid "")))]
  /\ (variantMaterialsKHR s' = ∅ /\ variantMaterialsByName s' = ∅
      /\ originalMaterials s' = ∅ /\ currentVariant s' = None)
  /\ (currentYaw s' = currentYaw s /\ currentPitch s' = currentPitch s
      /\ distance s' = distance s)
  /\ option_map nodes (modelGroup (setVariant name s')) = option_map nodes (modelGroup s')
  /\ currentVariant (setVariant name s') = None.
Proof.
  intros Hs Hc Hr Hg Hsrc s'.
  assert (Hbegin : setSrc_begin src mesh_uuid s = (loadDefaultCube mesh_uuid s, false)).
  { unfold setSrc_begin. rewrite Hs, Hc, Hr. simpl.
    destruct Hsrc as [-> | (url & -> & Hblank)]; [reflexivity |].
    now rewrite Hblank. }
  unfold s'. rewrite Hbegin. simpl fst. simpl snd.
  assert (Hcube : loadDefaultCube mesh_uuid s
                  = set_modelGroup
                      (Some (mkGroup 0 0
                               [mkObject3D mesh_uuid (Some (Single (mkMaterial mesh_uuid "")))]))
                      (set_currentVariant None
                         (set_originalMaterials ∅
                            (set_variantMaterialsByName ∅
                               (set_variantMaterialsKHR ∅ (set_modelGroup None s)))))).
  { unfold loadDefaultCube, clearModel. rewrite Hs. simpl. rewrite Hg. reflexivity. }
  rewrite Hcube.
  split; [reflexivity |]. split; [reflexivity |].
  split; [repeat split; reflexivity |]. split; [repeat split; reflexivity |].
  unfold setVariant. simpl modelGroup. cbv iota.
  destruct (Nat.eqb (String.length (trim name)) 0); [split; reflexivity |].
  unfold map_has. simpl variantMaterialsKHR. simpl variantMaterialsByName.
  rewrite !lookup_empty. split; reflexivity.
Qed.

Lemma blank_source_shows_plain_cube_witness :
  currentVariant (setVariant "Red" (fst (setSrc_begin (Some "  "%string) "box" showroom_loaded)))
  = None.
Proof.
  assert (Hscene : scene showroom_loaded = true) by (vm_compute; reflexivity).
  assert (Hcamera : camera showroom_loaded = true) by (vm_compute; reflexivity).
  assert (Hrenderer : renderer showroom_loaded = true) by (vm_compute; reflexivity).
  assert (Hmodel : modelGroup showroom_loaded
                   = Some (mkGroup 0 0 (map object (gltf_scene showroom))))
    by (vm_compute; reflexivity).
  assert (Hblank : Some "  "%string = None
                   \/ exists url, Some "  "%string = Some url /\ trim url = ""%string)
    by (right; exists "  "%string; split; reflexivity).
  pose proof (blank_source_shows_plain_cube showroom_loaded _ (Some "  "%string) "box" "Red"
                Hscene Hcamera Hrenderer Hmodel Hblank) as (_ & _ & _ & _ & _ & Hmarker).
  exact Hmarker.
Defined.

(** X21: on a disposed viewer [setVariant] does nothing.  If an asset still
    arrives after the disposal, the viewer stores an empty model group, takes
    the failure path ([showFallback]) and registers no promise.  From then on
    [setVariant] is no longer without effect: it records as current any
    non-blank name found in the tables left over from before the
    disposal. *)
Theorem load_after_dispose (gltf : Gltf) (s : State) (name : string) :
  let disposed := dispose s in
  let late := fst (setSrc_loaded gltf disposed) in
  setVariant name disposed = disposed
  /\ snd (setSrc_loaded gltf disposed) = []
  /\ late = showFallback (set_modelGroup (Some (mkGroup 0 0 [])) disposed)
  /\ modelGroup late = Some (mkGroup 0 0 [])
  /\ currentVariant (setVariant name late)
     = (if Nat.eqb (String.length (trim name)) 0 then None
        else if map_has (variantMaterialsKHR s) (trim name) then Some (trim name)
        else if map_has (variantMaterialsByName s) (trim name) then Some (trim name)
        else None).
Proof.
  intros disposed late. subst late.
  assert (Hd : scene disposed = false /\ modelGroup disposed = None
               /\ variantMaterialsKHR disposed = variantMaterialsKHR s
               /\ variantMaterialsByName disposed = variantMaterialsByName s).
  { unfold disposed, dispose, stopRenderLoop. destruct (animationHandle s); auto. }
  destruct Hd as (Hs & Hg & Hk & Hb). clearbody disposed.
  assert (Hlate : setSrc_loaded gltf disposed
                  = (showFallback (set_modelGroup (Some (mkGroup 0 0 [])) disposed), [])).
  { unfold setSrc_loaded, clearModel. rewrite Hs. simpl. rewrite ?Hs. reflexivity. }
  split; [unfold setVariant; now rewrite Hg |].
  rewrite Hlate. simpl fst. simpl snd.
  split; [reflexivity |]. split; [reflexivity |]. split; [reflexivity |].
  unfold setVariant. simpl modelGroup. cbv iota.
  destruct (Nat.eqb (String.length (trim name)) 0); [reflexivity |].
  simpl variantMaterialsKHR. simpl variantMaterialsByName. rewrite Hk, Hb.
  destruct (map_has (variantMaterialsKHR s) (trim name)); [reflexivity |].
  destruct (map_has (variantMaterialsByName s) (trim name)); reflexivity.
Qed.

Lemma variantName_some (names : list (option string)) (index : Z) (name : string) :
  variantName names index = Some name
  <-> (0 <= index)%Z
      /\ nth_error names (Z.to_nat index) = Some (Some name)
      /\ name <> ""%string.
Proof.
  unfold variantName. destruct (Z.ltb index 0) eqn:Hneg.
  - apply Z.ltb_lt in Hneg. split; [discriminate | lia].
  - apply Z.ltb_ge in Hneg.
    destruct (nth_error names (Z.to_nat index)) as [[n |] |]; try (split; [discriminate |]).
    + destruct (Nat.eqb (String.length n) 0) eqn:Hlen.
      * split; [discriminate |]. intros (_ & H & Hne). injection H as <-.
        destruct n; [congruence | discriminate].
      * split.
        -- intros H. injection H as <-. repeat split; auto.
           intros ->. discriminate.
        -- intros (_ & H & _). congruence.
    + intros (_ & H & _). discriminate.
    + intros (_ & H & _). discriminate.
Qed.

(** X22: the material promises a load registers are exactly those for a mesh
    of the asset, a mapping of that mesh with a variants array, and an index
    in that array that is in range of the variant names and names a
    non-empty string; each carries that name, the mesh's identifier and the
    mapping's material index.  An asset without variant names, or whose nodes
    carry no mappings, registers none. *)
Theorem promises_come_from_well_formed_mappings (gltf : Gltf) (s : State) :
  scene s = true ->
  let tasks := snd (setSrc_loaded gltf s) in
  (forall task,
      In task tasks
      <-> exists node ms mapping indices index,
          In node (gltf_scene gltf)
          /\ material (object node) <> None
          /\ mappings node = Some ms /\ In mapping ms
          /\ mapping_variants mapping = Some indices /\ In index indices
          /\ (0 <= index)%Z
          /\ nth_error (gltf_variants gltf) (Z.to_nat index) = Some (Some (task_variant task))
          /\ task_variant task <> ""%string
          /\ task_node task = uuid (object node)
          /\ task_material task = mapping_material mapping)
  /\ (gltf_variants gltf = [] -> tasks = [])
  /\ ((forall node, In node (gltf_scene gltf) -> mappings node = None) -> tasks = []).
Proof.
  intros Hs tasks.
  assert (Htasks : tasks = flat_map (nodeTasks (gltf_variants gltf)) (gltf_scene gltf)).
  { unfold tasks. rewrite setSrc_loaded_with_scene by exact Hs. reflexivity. }
  assert (Hchar : forall task,
             In task tasks
             <-> exists node ms mapping indices index,
                 In node (gltf_scene gltf)
                 /\ material (object node) <> None
                 /\ mappings node = Some ms /\ In mapping ms
                 /\ mapping_variants mapping = Some indices /\ In index indices
                 /\ (0 <= index)%Z
                 /\ nth_error (gltf_variants gltf) (Z.to_nat index)
                    = Some (Some (task_variant task))
                 /\ task_variant task <> ""%string
                 /\ task_node task = uuid (object node)
                 /\ task_material task = mapping_material mapping).
  { intros task. rewrite Htasks, in_flat_map. split.
    - intros (node & Hnode & Hin). unfold nodeTasks in Hin.
      destruct (material (object node)) eqn:Hm; [| destruct Hin].
      destruct (mappings node) as [ms |] eqn:Hms; [| destruct Hin].
      apply in_flat_map in Hin as (mapping & Hmapping & Hin). unfold mappingTasks in Hin.
      destruct (mapping_variants mapping) as [indices |] eqn:Hv; [| destruct Hin].
      apply in_flat_map in Hin as (index & Hindex & Hin).
      destruct (variantName (gltf_variants gltf) index) as [name |] eqn:Hname;
        [| destruct Hin].
      destruct Hin as [<- | []]. apply variantName_some in Hname as (H0 & Hnth & Hne).
      exists node, ms, mapping, indices, index. simpl.
      repeat split; auto. congruence.
    - intros (node & ms & mapping & indices & index & Hnode & Hm & Hms & Hmapping & Hv
              & Hindex & H0 & Hnth & Hne & Hn & Hmat).
      exists node. split; [exact Hnode |]. unfold nodeTasks.
      destruct (material (object node)); [| congruence]. rewrite Hms.
      apply in_flat_map. exists mapping. split; [exact Hmapping |].
      unfold mappingTasks. rewrite Hv. apply in_flat_map. exists index.
      split; [exact Hindex |].
      assert (Hname : variantName (gltf_variants gltf) index = Some (task_variant task))
        by (apply variantName_some; auto).
      rewrite Hname. left. destruct task; simpl in *. congruence. }
  split; [exact Hchar |]. split.
  - intros Hnone. destruct tasks as [| task rest]; [reflexivity |]. exfalso.
    destruct (proj1 (Hchar task) (or_introl eq_refl))
      as (_ & _ & _ & _ & index & _ & _ & _ & _ & _ & _ & _ & Hnth & _).
    rewrite Hnone in Hnth. destruct (Z.to_nat index); discriminate.
  - intros Hnone. destruct tasks as [| task rest]; [reflexivity |]. exfalso.
    destruct (proj1 (Hchar task) (or_introl eq_refl))
      as (node & ms & _ & _ & _ & Hnode & _ & Hms & _).
    rewrite (Hnone node Hnode) in Hms. discriminate.
Qed.

Lemma promises_come_from_well_formed_mappings_witness :
  snd (setSrc_loaded (mkGltf (gltf_scene showroom) []) (constructor true "cube")) = [].
Proof.
  assert (Hscene : scene (constructor true "cube") = true) by (vm_compute; reflexivity).
  pose proof (promises_come_from_well_formed_mappings
                (mkGltf (gltf_scene showroom) []) (constructor true "cube") Hscene)
    as (_ & Hnone & _).
  exact (Hnone eq_refl).
Defined.

(** ** Selection history *)

Lemma traverse_after (f h : Object3D -> Object3D) (g : Group) :
  (forall node, In node (nodes g) -> f (h node) = f node) ->
  traverse f (traverse h g) = traverse f g.
Proof.
  intros Hf. unfold traverse. simpl. f_equal.
  rewrite map_map. apply map_ext_in. exact Hf.
Qed.

(** X23: when every mesh of the model has its original captured, as after
    a load, a selection that is blank, known to the structured table or
    unknown to both tables does not depend on what was selected before:
    made after any other selection it gives the same state as made
    directly.  (A name known to the naming table only is different: it
    keeps what it does not substitute.) *)
Theorem structured_variant_forgets_history
  (s : State) (g : Group) (chosen before : string) :
  modelGroup s = Some g ->
  (forall node, In node (nodes g) -> material node <> None ->
                originalMaterials s !! uuid node <> None) ->
  trim chosen = ""%string
  \/ map_has (variantMaterialsKHR s) (trim chosen) = true
  \/ map_has (variantMaterialsByName s) (trim chosen) = false ->
  setVariant chosen (setVariant before s) = setVariant chosen s.
Proof.
  destruct s as [r sc cam cz g0 ro ah ps cy cp d ze cv dr pd pt sn khr byname orig l hh cd fr nf].
  simpl. intros -> Horig Hchosen.
  assert (Hblank : Nat.eqb (String.length (trim chosen)) 0 = true
                   \/ (Nat.eqb (String.length (trim chosen)) 0 = false
                       /\ (map_has khr (trim chosen) = true
                           \/ map_has byname (trim chosen) = false))).
  { destruct (Nat.eqb (String.length (trim chosen)) 0) eqn:Hlen; [now left | right].
    split; [reflexivity |]. destruct Hchosen as [H | H]; [| exact H].
    rewrite H in Hlen. discriminate. }
  clear Hchosen. unfold setVariant.
  revert Hblank.
  generalize (Nat.eqb (String.length (trim chosen)) 0). generalize (trim chosen).
  generalize (Nat.eqb (String.length (trim before)) 0). generalize (trim before).
  intros b blank_b c blank_c Hc. unfold map_has in *. simpl.
  assert (Hrestore :
            forall h : Object3D -> Object3D,
              (forall node, uuid (h node) = uuid node
                            /\ (material node = None -> h node = node)
                            /\ (material node <> None -> material (h node) <> None)) ->
              forall node, In node (nodes g) ->
                (fun node : Object3D =>
                   match material node with
                   | None => node
                   | Some _ =>
                       match orig !! uuid node with
                       | Some original => set_material original node
                       | None => node
                       end
                   end) (h node)
                = (fun node : Object3D =>
                     match material node with
                     | None => node
                     | Some _ =>
                         match orig !! uuid node with
                         | Some original => set_material original node
                         | None => node
                         end
                     end) node).
  { intros h Hh node Hin. destruct (Hh node) as (Hu & Hnone & Hsome).
    destruct (material node) eqn:Hm.
    - destruct (material (h node)) eqn:Hm'; [| exfalso; apply Hsome; congruence].
      rewrite Hu. specialize (Horig node Hin). rewrite Hm in Horig.
      destruct (orig !! uuid node) eqn:Ho; [| exfalso; apply Horig; congruence].
      unfold set_material. now rewrite Hu.
    - rewrite (Hnone eq_refl). now rewrite Hm. }
  assert (Hkhr :
            forall (vm : gmap string Material) (h : Object3D -> Object3D),
              (forall node, uuid (h node) = uuid node
                            /\ (material node = None -> h node = node)
                            /\ (material node <> None -> material (h node) <> None)) ->
              forall node, In node (nodes g) ->
                (fun node : Object3D =>
                   match material node with
                   | None => node
                   | Some _ =>
                       match vm !! uuid node with
                       | Some m => set_material (Single m) node
                       | None =>
                           match orig !! uuid node with
                           | Some original => set_material original node
                           | None => node
                           end
                       end
                   end) (h node)
                = (fun node : Object3D =>
                     match material node with
                     | None => node
                     | Some _ =>
                         match vm !! uuid node with
                         | Some m => set_material (Single m) node
                         | None =>
                             match orig !! uuid node with
                             | Some original => set_material original node
                             | None => node
                             end
                         end
                     end) node).
  { intros vm h Hh node Hin. destruct (Hh node) as (Hu & Hnone & Hsome).
    destruct (material node) eqn:Hm.
    - destruct (material (h node)) eqn:Hm'; [| exfalso; apply Hsome; congruence].
      rewrite Hu. specialize (Horig node Hin). rewrite Hm in Horig.
      unfold set_material. rewrite Hu.
      destruct (vm !! uuid node); [reflexivity |].
      destruct (orig !! uuid node) eqn:Ho; [reflexivity | exfalso; apply Horig; congruence].
    - rewrite (Hnone eq_refl). now rewrite Hm. }
  assert (Hshape_restore :
            forall node,
              uuid (match material node with
                    | None => node
                    | Some _ =>
                        match orig !! uuid node with
                        | Some original => set_material original node
                        | None => node
                        end
                    end) = uuid node
              /\ (material node = None ->
                  match material node with
                  | None => node
                  | Some _ =>
                      match orig !! uuid node with
                      | Some original => set_material original node
                      | None => node
                      end
                  end = node)
              /\ (material node <> None ->
                  material (match material node with
                            | None => node
                            | Some _ =>
                                match orig !! uuid node with
                                | Some original => set_material original node
                                | None => node
                                end
                            end) <> None)).
  { intros node. destruct (material node) eqn:Hm.
    - destruct (orig !! uuid node); simpl; repeat split; try congruence.
    - repeat split; congruence. }
  assert (Hshape_khr :
            forall (vm : gmap string Material) node,
              uuid (match material node with
                    | None => node
                    | Some _ =>
                        match vm !! uuid node with
                        | Some m => set_material (Single m) node
                        | None =>
                            match orig !! uuid node with
                            | Some original => set_material original node
                            | None => node
                            end
                        end
                    end) = uuid node
              /\ (material node = None ->
                  match material node with
                  | None => node
                  | Some _ =>
                      match vm !! uuid node with
                      | Some m => set_material (Single m) node
                      | None =>
                          match orig !! uuid node with
                          | Some original => set_material original node
                          | None => node
                          end
                      end
                  end = node)
              /\ (material node <> None ->
                  material (match material node with
                            | None => node
                            | Some _ =>
                                match vm !! uuid node with
                                | Some m => set_material (Single m) node
                                | None =>
                                    match orig !! uuid node with
                                    | Some original => set_material original node
                                    | None => node
                                    end
                                end
                            end) <> None)).
  { intros vm node. destruct (material node) eqn:Hm.
    - destruct (vm !! uuid node); [simpl; repeat split; congruence |].
      destruct (orig !! uuid node); simpl; repeat split; try congruence.
    - repeat split; congruence. }
  assert (Hshape_name :
            forall (vm : gmap string Material) node,
              uuid (match material node with
                    | None => node
                    | Some _ =>
                        match vm !! uuid node with
                        | Some m => set_material (Single m) node
                        | None => node
                        end
                    end) = uuid node
              /\ (material node = None ->
                  match material node with
                  | None => node
                  | Some _ =>
                      match vm !! uuid node with
                      | Some m => set_material (Single m) node
                      | None => node
                      end
                  end = node)
              /\ (material node <> None ->
                  material (match material node with
                            | None => node
                            | Some _ =>
                                match vm !! uuid node with
                                | Some m => set_material (Single m) node
                                | None => node
                                end
                            end) <> None)).
  { intros vm node. destruct (material node) eqn:Hm.
    - destruct (vm !! uuid node); simpl; repeat split; congruence.
    - repeat split; congruence. }
  destruct blank_b; [| destruct (khr !! b) as [vb |] eqn:Hvb;
                         [| destruct (byname !! b) as [nb |] eqn:Hnb]];
    (destruct blank_c;
     [| destruct Hc as [Hc | [_ Hc]]; [discriminate |];
        destruct (khr !! c) as [vm |] eqn:Hvm;
        [| destruct Hc as [Hc | Hc]; [discriminate |];
           destruct (byname !! c) eqn:Hnm; [discriminate |]]]);
    unfold restoreOriginalMaterials, applyVariantFromKHR, applyVariantFromName;
    simpl; rewrite ?Hvb, ?Hnb, ?Hvm, ?Hnm; simpl; rewrite ?Hvb, ?Hnb, ?Hvm, ?Hnm; simpl;
    (rewrite traverse_after; [reflexivity |]);
    first [apply Hrestore | apply Hkhr];
    first [apply Hshape_restore | apply Hshape_khr | apply Hshape_name].
Qed.

Lemma structured_variant_forgets_history_witness :
  setVariant "Blue"
    (setVariant "Red"
       (resolved (mkTask "Blue" "body" 3) (mkMaterial "blue" "Blue paint") showroom_loaded))
  = setVariant "Blue"
      (resolved (mkTask "Blue" "body" 3) (mkMaterial "blue" "Blue paint") showroom_loaded).
Proof.
  assert (Hmodel : modelGroup
                     (resolved (mkTask "Blue" "body" 3) (mkMaterial "blue" "Blue paint")
                        showroom_loaded)
                   = Some (mkGroup 0 0 (map object (gltf_scene showroom))))
    by (vm_compute; reflexivity).
  assert (Hcaptured :
            forall node,
              In node (nodes (mkGroup 0 0 (map object (gltf_scene showroom)))) ->
              material node <> None ->
              originalMaterials
                (resolved (mkTask "Blue" "body" 3) (mkMaterial "blue" "Blue paint")
                   showroom_loaded) !! uuid node <> None).
  { intros node Hin Hmesh. simpl in Hin.
    destruct Hin as [<- | [<- | [<- | []]]];
      [exfalso; apply Hmesh; reflexivity | vm_compute; discriminate
       | vm_compute; discriminate]. }
  assert (Hknown : trim "Blue" = ""%string
                   \/ map_has (variantMaterialsKHR
                                 (resolved (mkTask "Blue" "body" 3)
                                    (mkMaterial "blue" "Blue paint") showroom_loaded))
                        (trim "Blue") = true
                   \/ map_has (variantMaterialsByName
                                 (resolved (mkTask "Blue" "body" 3)
                                    (mkMaterial "blue" "Blue paint") showroom_loaded))
                        (trim "Blue") = false)
    by (right; left; vm_compute; reflexivity).
  exact (structured_variant_forgets_history _ _ "Blue" "Red" Hmodel Hcaptured Hknown).
Defined.

(** ** Wheel steps *)

(** X24: with zoom enabled and the distance in range, a wheel event moves
    the distance to [clamp (distance + deltaY * 0.003) 1.8 4.5] and leaves
    yaw and pitch alone: scrolling down never brings the camera closer,
    scrolling up never moves it away, at the far end scrolling down changes
    nothing, at the near end scrolling up changes nothing, and the camera
    follows. *)
Theorem wheel_zoom_steps (s : State) (event : WheelEvent) :
  zoomEnabled s = true ->
  1.8 <= distance s <= 4.5 ->
  distance (onWheel event s) = clamp (distance s + deltaY event * 0.003) 1.8 4.5
  /\ (0 <= deltaY event -> distance s <= distance (onWheel event s))
  /\ (deltaY event <= 0 -> distance (onWheel event s) <= distance s)
  /\ (distance s = 4.5 -> 0 <= deltaY event -> distance (onWheel event s) = 4.5)
  /\ (distance s = 1.8 -> deltaY event <= 0 -> distance (onWheel event s) = 1.8)
  /\ (camera s = true -> camera_z (onWheel event s) = distance (onWheel event s))
  /\ currentYaw (onWheel event s) = currentYaw s
  /\ currentPitch (onWheel event s) = currentPitch s.
Proof.
  intros Hzoom Hrange.
  assert (Hstep : distance (onWheel event s)
                  = clamp (distance s + deltaY event * 0.003) 1.8 4.5).
  { unfold onWheel. rewrite Hzoom. simpl negb. cbv iota.
    rewrite updateDistance_distance. reflexivity. }
  rewrite Hstep.
  split; [reflexivity |].
  split; [intros Hd; apply clamp_ge_inside; [exact Hrange | lra] |].
  split; [intros Hd; apply clamp_le_inside; [exact Hrange | lra] |].
  split; [intros Hfar Hd; apply clamp_above; lra |].
  split; [intros Hnear Hd; apply clamp_below; lra |].
  split.
  - intros Hcam. unfold onWheel. rewrite Hzoom. simpl negb. cbv iota.
    unfold updateDistance. simpl. rewrite Hcam. reflexivity.
  - apply onWheel_orientation.
Qed.

Lemma wheel_zoom_steps_witness :
  distance (constructor true "cube")
  <= distance (onWheel (mkWheelEvent 100) (constructor true "cube")).
Proof.
  assert (Hzoom : zoomEnabled (constructor true "cube") = true)
    by (vm_compute; reflexivity).
  assert (Hd : distance (constructor true "cube") = 2.8) by (vm_compute; reflexivity).
  assert (Hrange : 1.8 <= distance (constructor true "cube") <= 4.5)
    by (rewrite Hd; lra).
  pose proof (wheel_zoom_steps (constructor true "cube") (mkWheelEvent 100)
                Hzoom Hrange) as (_ & Hdown & _).
  apply Hdown. simpl. lra.
Defined.
